(** * Screen-Text-Analyzer: the text clean-up pipeline of [ScreenReader.tsx]

    A shallow embedding of the pure part of the React component
    [src/components/ScreenReader.tsx] (word filter, spatial sort, text
    normaliser, sentence segmenter, paragraph composer, and the two places
    where the component writes its displayed string), followed by the
    properties that the specification states about them; then of the
    image filter [enhanceImageForOCR] and of the life cycle of the
    component (initialisation of the worker, capture, analysis of a
    frame), with further properties of the code.

    Conventions of the embedding.
    - A JavaScript string is the list of its UTF-16 code units ([N]).
    - A JavaScript number that holds a pixel coordinate is a [Z]; the
      confidence of a word, which is produced by a division by 100, is a
      binary64 float ([PrimFloat.float]), compared with [PrimFloat.ltb].
    - A regular expression is a list of atoms (a character class, a greedy
      bounded repetition of a class, the end-of-input assertion) matched by
      a greedy backtracking matcher.
    - React state is an explicit record that is threaded through the
      functions that call a setter.
    - The bytes of an image are integers; the arithmetic of the image
      filter is binary64, as in JavaScript.
    - What the collaborators of the component do (Tesseract, the
      browser, React) is given by the outcome of each promise and by
      the events that happen while the promise is pending. *)

From Stdlib Require Import Strings.Ascii Strings.String.
From Stdlib Require Import List NArith ZArith Bool Lia.
From Stdlib Require Import Floats.PrimFloat.
From Stdlib Require Import Sorting.Permutation Sorting.Sorted.
From Stdlib Require Floats.FloatOps Floats.SpecFloat.
From Stdlib Require Numbers.Cyclic.Int63.Uint63.
Import ListNotations.

Set Implicit Arguments.
(** 0.6 and 0.55 denote the nearest binary64 values, as in JavaScript. *)
Set Warnings "-inexact-float".

(** [length] is the length of a list throughout. *)
Abbreviation length := List.length.

(* ================================================================== *)
(** * Part I: the embedding *)
(* ================================================================== *)

(** ** JavaScript strings *)

Definition char := N.
Bind Scope N_scope with char.
Definition jsstring := list char.

(** A string literal of the source, for literals that are pure ASCII. *)
Definition str (s : String.string) : jsstring :=
  map N_of_ascii (String.list_ascii_of_string s).
Arguments str s%_string.

Definition inRange (lo hi c : char) : bool := ((lo <=? c) && (c <=? hi))%N.
Definition oneOf (cs : list char) (c : char) : bool := existsb (N.eqb c) cs.
Definition isChar (x : char) (c : char) : bool := (c =? x)%N.

(** Character classes of the regular expressions in the source. *)
Definition isLower (c : char) : bool := inRange 97 122 c.        (* [a-z] *)
Definition isUpper (c : char) : bool := inRange 65 90 c.         (* [A-Z] *)
Definition isAlpha (c : char) : bool := isLower c || isUpper c.  (* [a-zA-Z] *)
Definition isDigit (c : char) : bool := inRange 48 57 c.         (* [0-9] *)
(** [\w] *)
Definition isWordChar (c : char) : bool := isAlpha c || isDigit c || isChar 95 c.
(** [\s]: ECMAScript WhiteSpace and LineTerminator; also what [trim] strips. *)
Definition isSpace (c : char) : bool :=
  inRange 9 13 c || oneOf [32; 160; 5760; 8232; 8233; 8239; 8287; 12288; 65279]%N c
  || inRange 8192 8202 c.
(** [[,.!?;:]] *)
Definition isPunct (c : char) : bool := oneOf [44; 46; 33; 63; 59; 58]%N c.
(** [[.!?]] *)
Definition isTerminator (c : char) : bool := oneOf [46; 33; 63]%N c.
(** [[A-Z\s]] *)
Definition isUpperOrSpace (c : char) : bool := isUpper c || isSpace c.
(** The class of line 221: = - @ and the registered and copyright
    signs. *)
Definition isLeadingSymbol (c : char) : bool := oneOf [61; 45; 64; 174; 169]%N c.
(** The class that line 224 negates: letters, digits, [\s], and
    . , ! ? ; : apostrophe, double quote, ( ) - $ and the pound sign. *)
Definition isAllowed (c : char) : bool :=
  isAlpha c || isDigit c || isSpace c
  || oneOf [46; 44; 33; 63; 59; 58; 39; 34; 40; 41; 45; 36; 163]%N c.
(** The class of line 229 as the source file has it: the ASCII double
    quote (34), the bar (124) and the ASCII double quote again. *)
Definition isQuoteOrBar (c : char) : bool := oneOf [34; 124; 34]%N c.
(** The class of line 230 as the source file has it: the ASCII
    apostrophe (39), twice. *)
Definition isApostrophe (c : char) : bool := oneOf [39; 39]%N c.
(** The class of line 270: the ASCII double quote or apostrophe. *)
Definition isQuoteStart (c : char) : bool := oneOf [34; 39]%N c.

(** [m.toUpperCase()] for a one-character match of [[a-z]]; other
    characters are left alone (only ASCII letters reach it). *)
Definition toUpperCase (c : char) : char :=
  if isLower c then (c - 32)%N else c.

Fixpoint dropWhile (p : char -> bool) (s : jsstring) : jsstring :=
  match s with
  | [] => []
  | c :: s' => if p c then dropWhile p s' else s
  end.

Fixpoint takeWhile (p : char -> bool) (s : jsstring) : jsstring :=
  match s with
  | [] => []
  | c :: s' => if p c then c :: takeWhile p s' else []
  end.

(** [String.prototype.trim] *)
Definition trimStart (s : jsstring) : jsstring := dropWhile isSpace s.
Definition trimEnd (s : jsstring) : jsstring := rev (dropWhile isSpace (rev s)).
Definition trim (s : jsstring) : jsstring := trimEnd (trimStart s).

(** [Array.prototype.join] on an array of strings. *)
Fixpoint join (sep : jsstring) (l : list jsstring) : jsstring :=
  match l with
  | [] => []
  | [s] => s
  | s :: l' => s ++ sep ++ join sep l'
  end.

(** Truthiness of a string: it is not the empty string. *)
Definition truthy (s : jsstring) : bool :=
  match s with [] => false | _ => true end.

(** ** Regular expressions *)

Inductive atom : Type :=
| One (p : char -> bool)                        (* a class, one character *)
| Rep (p : char -> bool) (lo : nat) (hi : option nat) (* p{lo,hi}, greedy *)
| Eos.                                          (* $ (no m flag) *)

Definition regex := list atom.

Definition star (p : char -> bool) : atom := Rep p 0 None.
Definition plus (p : char -> bool) : atom := Rep p 1 None.
(** A literal word of a pattern. *)
Definition lit (s : String.string) : regex := map (fun x => One (isChar x)) (str s).
Arguments lit s%_string.
(** A literal word under the [i] flag: both sides are canonicalised; a code
    unit outside ASCII never canonicalises to an ASCII letter. *)
Definition lit_i (s : String.string) : regex :=
  map (fun x => One (fun c => (toUpperCase c =? toUpperCase x)%N)) (str s).
Arguments lit_i s%_string.

(** [tryDown f lo n]: the first success of [f n], [f (n-1)], ..., [f lo]. *)
Fixpoint tryDown (f : nat -> option nat) (lo n : nat) : option nat :=
  if (n <? lo)%nat then None
  else match f n with
       | Some r => Some r
       | None => match n with
                 | O => None
                 | S n' => tryDown f lo n'
                 end
       end.

(** [matchHere r s]: the length of the match of [r] that starts at the
    first character of [s], as a backtracking matcher finds it (greedy
    repetitions give characters back one at a time). *)
Fixpoint matchHere (r : regex) (s : jsstring) : option nat :=
  match r with
  | [] => Some O
  | One p :: r' =>
      match s with
      | c :: s' => if p c then option_map S (matchHere r' s') else None
      | [] => None
      end
  | Rep p lo hi :: r' =>
      let run := length (takeWhile p s) in
      let most := match hi with Some h => Nat.min h run | None => run end in
      tryDown (fun n => option_map (Nat.add n) (matchHere r' (skipn n s))) lo most
  | Eos :: r' =>
      match s with
      | [] => matchHere r' s
      | _ :: _ => None
      end
  end.

(** [/^r/.test(s)] *)
Definition testStart (r : regex) (s : jsstring) : bool :=
  match matchHere r s with Some _ => true | None => false end.

(** [/r/.test(s)] for a pattern with no [^]: some position matches. *)
Fixpoint test (r : regex) (s : jsstring) : bool :=
  match matchHere r s with
  | Some _ => true
  | None => match s with
            | [] => false
            | _ :: s' => test r s'
            end
  end.

(** [s.replace(/^r/, rep)]: a pattern anchored at the start matches at
    position 0 or nowhere, with or without the [g] flag. *)
Definition replaceStart (r : regex) (rep : jsstring -> jsstring) (s : jsstring)
  : jsstring :=
  match matchHere r s with
  | Some n => rep (firstn n s) ++ skipn n s
  | None => s
  end.

(** [s.replace(/r/g, rep)]: matches are found left to right and do not
    overlap; [rep] receives the matched text.  [skip] counts the characters
    of the current match that are still to be consumed. *)
Fixpoint replaceAll_from (r : regex) (rep : jsstring -> jsstring)
  (skip : nat) (s : jsstring) : jsstring :=
  match s with
  | [] =>
      match skip with
      | O => match matchHere r [] with Some _ => rep [] | None => [] end
      | S _ => []
      end
  | c :: s' =>
      match skip with
      | S k => replaceAll_from r rep k s'
      | O =>
          match matchHere r s with
          | Some (S k) => rep (firstn (S k) s) ++ replaceAll_from r rep k s'
          | Some O => rep [] ++ c :: replaceAll_from r rep 0 s'
          | None => c :: replaceAll_from r rep 0 s'
          end
      end
  end.

Definition replaceAll (r : regex) (rep : jsstring -> jsstring) (s : jsstring)
  : jsstring := replaceAll_from r rep 0 s.

(** Replacement texts. *)
Definition always (t : jsstring) : jsstring -> jsstring := fun _ => t.

Notation "x |> f" := (f x) (at level 68, left associativity, only parsing).

(** A captured group that is the first, the last, or the n-th character of
    the matched text, and the matched text without its last character. *)
Definition firstChar (m : jsstring) : jsstring := firstn 1 m.
Definition lastChar (m : jsstring) : jsstring := skipn (length m - 1) m.
Definition charAt (n : nat) (m : jsstring) : jsstring := firstn 1 (skipn n m).
Definition butLast (m : jsstring) : jsstring := firstn (length m - 1) m.

(** [s.split(/(?<=[.!?])\s+/)]: at each position, left to right, the
    pattern matches when the previous character is a terminator and a run
    of white space starts there; the run is dropped and a new piece starts
    after it.  [prev] is the character before the current position and
    [skip] counts the characters of the run still to be dropped.  The
    result of the recursive call is never empty: its head is the piece
    under construction. *)
Definition consHead (c : char) (pieces : list jsstring) : list jsstring :=
  match pieces with
  | p :: ps => (c :: p) :: ps
  | [] => [[c]]
  end.

Definition lookbehind (p : char -> bool) (prev : option char) : bool :=
  match prev with Some c => p c | None => false end.

Fixpoint split_from (prev : option char) (skip : nat) (s : jsstring)
  : list jsstring :=
  match s with
  | [] => [[]]
  | c :: s' =>
      match skip with
      | S k => split_from (Some c) k s'
      | O =>
          match (if lookbehind isTerminator prev
                 then matchHere [plus isSpace] s else None) with
          | Some (S k) => [] :: split_from (Some c) k s'
          | _ => consHead c (split_from (Some c) 0 s')
          end
      end
  end.

(* ------------------------------------------------------------------ *)
(** ** cleanTextLocally (lines 218-294) *)

(** Line 222: the literal navigation menu. *)
Definition navMenu : regex :=
  lit "Watch Live Sign In Home News Sport Business Innovation Culture Arts Travel Earth Audio Video Live".

(** Line 223: the navigation labels separated by [\s+]. *)
Definition navLabels : regex :=
  lit "Home" ++ [plus isSpace] ++ lit "News" ++ [plus isSpace] ++
  lit "Sport" ++ [plus isSpace] ++ lit "Business" ++ [plus isSpace] ++
  lit "Innovation" ++ [plus isSpace] ++ lit "Culture" ++ [plus isSpace] ++
  lit "Arts" ++ [plus isSpace] ++ lit "Travel" ++ [plus isSpace] ++
  lit "Earth" ++ [plus isSpace] ++ lit "Audio" ++ [plus isSpace] ++
  lit "Video" ++ [plus isSpace] ++ lit "Live".

(** Step 1 (lines 220-231): [cleaned]. *)
Definition cleaned (text : jsstring) : jsstring :=
  text
  |> replaceStart [plus isLeadingSymbol] (always [])
  |> replaceAll navMenu (always [])
  |> replaceAll navLabels (always [])
  |> replaceAll [One (fun c => negb (isAllowed c))] (always (str " "))
  |> replaceAll [star isSpace; One (isChar 91); star isSpace] (always (str " "))
  |> replaceAll [star isSpace; One (isChar 93); star isSpace] (always (str " "))
  |> replaceAll [star isSpace; One (isChar 40); star isSpace] (always (str "("))
  |> replaceAll [star isSpace; One (isChar 41); star isSpace] (always (str ") "))
  |> replaceAll [One isQuoteOrBar] (always [34%N])
  |> replaceAll [One isApostrophe] (always (str "'"))
  |> trim.

(** Line 234: [sentences]. *)
Definition sentences (cleaned : jsstring) : list jsstring :=
  split_from None 0 cleaned.

(** Lines 237-245: the callback of [filter]. *)
Definition keepSentence (sentence : jsstring) : bool :=
  if (length sentence <? 5)%nat then false
  else if testStart [Rep isUpperOrSpace 1 (Some 5); Eos] sentence then false
  else if testStart [star (fun c => negb (isAlpha c)); Eos] sentence then false
  else true.

(** Lines 246-255: the callback of the second [map]. *)
Definition cleanSentence (sentence : jsstring) : jsstring :=
  sentence
  |> replaceStart [One isLower] (map toUpperCase)
  |> replaceAll [plus isSpace] (always (str " "))
  |> replaceAll [One isAlpha; One (isChar 39); One isAlpha]
       (fun m => charAt 0 m ++ str "'" ++ charAt 2 m)
  |> replaceAll [plus isWordChar; One isPunct] (fun m => butLast m ++ lastChar m)
  |> replaceAll [plus isSpace; One isPunct] (fun m => lastChar m)
  |> replaceAll [One isPunct; star isSpace] (fun m => firstChar m ++ str " ")
  |> trim.

(** Lines 235-255: [processedSentences]. *)
Definition processedSentences (cleaned : jsstring) : list jsstring :=
  map cleanSentence (filter keepSentence (map trim (sentences cleaned))).

(** Lines 258-259: the two arrays the loop mutates. *)
Record composer : Type := mkComposer {
  paragraphs : list jsstring;
  currentParagraph : list jsstring
}.

(** Lines 266-274. *)
Definition shouldStartNewParagraph (currentParagraph : list jsstring)
  (sentence : jsstring) : bool :=
  (3 <=? length currentParagraph)%nat
  || testStart [One isQuoteStart] sentence
  || (length sentence <? 30)%nat
  || test [One (isChar 58); star isSpace; Eos] sentence.

(** Lines 261-287: the callback of [forEach]; [total] is
    [processedSentences.length]. *)
Definition composeStep (total : nat) (st : composer) (index : nat)
  (sentence : jsstring) : composer :=
  if negb (truthy (trim sentence)) then st
  else
    let st1 :=
      if shouldStartNewParagraph (currentParagraph st) sentence
         && (0 <? length (currentParagraph st))%nat
      then mkComposer (paragraphs st ++ [join (str " ") (currentParagraph st)]) []
      else st in
    let st2 := mkComposer (paragraphs st1) (currentParagraph st1 ++ [sentence]) in
    if (index =? total - 1)%nat && (0 <? length (currentParagraph st2))%nat
    then mkComposer (paragraphs st2 ++ [join (str " ") (currentParagraph st2)])
                    (currentParagraph st2)
    else st2.

(** [Array.prototype.forEach] with the index passed to the callback. *)
Fixpoint forEach_from (St : Type) (f : St -> nat -> jsstring -> St)
  (index : nat) (l : list jsstring) (st : St) : St :=
  match l with
  | [] => st
  | x :: l' => forEach_from f (S index) l' (f st index x)
  end.

Definition composeParagraphs (processedSentences : list jsstring) : list jsstring :=
  paragraphs
    (forEach_from (composeStep (length processedSentences)) 0 processedSentences
       (mkComposer [] [])).

(** Lines 290-293: the paragraphs that are joined. *)
Definition finalParagraphs (paragraphs : list jsstring) : list jsstring :=
  map trim (filter (fun p => (0 <? length (trim p))%nat) paragraphs).

Definition blankLine : jsstring := [10; 10]%N.

Definition cleanTextLocally (text : jsstring) : jsstring :=
  join blankLine
    (finalParagraphs (composeParagraphs (processedSentences (cleaned text)))).

(* ------------------------------------------------------------------ *)
(** ** filterAndFormatBlocks (lines 296-333) *)

Record BBox : Type := mkBBox { x0 : Z; y0 : Z; x1 : Z; y1 : Z }.

Record TextBlock : Type := mkTextBlock {
  text : jsstring;
  confidence : float;
  bbox : BBox
}.

(** Line 310: the alternatives of the navigation-label pattern. *)
Definition navAlternatives : list regex :=
  [lit_i "Home"; lit_i "News"; lit_i "Sport"; lit_i "Business";
   lit_i "Innovation"; lit_i "Culture"; lit_i "Arts"; lit_i "Travel";
   lit_i "Earth"; lit_i "Audio"; lit_i "Video"; lit_i "Live"].

Definition isNavLabel (text : jsstring) : bool :=
  existsb (fun alt => testStart (alt ++ [Eos]) text) navAlternatives.

(** Lines 299-312: the callback of [filter]. *)
Definition keepBlock (block : TextBlock) : bool :=
  let text := trim (text block) in
  if (length text <? 3)%nat then false
  else if testStart [Rep isUpperOrSpace 1 (Some 5); Eos] text then false
  else if (confidence block <? 0.6)%float then false
  else if testStart [star (fun c => negb (isAlpha c)); Eos] text then false
  else if isNavLabel text then false
  else true.

(** Lines 313-318: the comparator of [sort]. *)
Definition compareBlocks (a b : TextBlock) : Z :=
  if (Z.abs (y0 (bbox a) - y0 (bbox b)) <? 10)%Z
  then (x0 (bbox a) - x0 (bbox b))%Z
  else (y0 (bbox a) - y0 (bbox b))%Z.

(** [Array.prototype.sort] is a built-in.  ECMAScript requires it to be
    stable and to sort when the comparator is consistent; with any other
    comparator the order is left to the engine.  It is modelled by one
    conforming implementation, a stable insertion sort: each element in
    turn moves left past the elements that compare greater than it.
    [insertRev] works on the sorted prefix in reverse. *)
Fixpoint insertRev (A : Type) (cmp : A -> A -> Z) (x : A) (racc : list A)
  : list A :=
  match racc with
  | [] => [x]
  | e :: r => if (0 <? cmp e x)%Z then e :: insertRev cmp x r else x :: racc
  end.

Definition sortBy (A : Type) (cmp : A -> A -> Z) (l : list A) : list A :=
  rev (fold_left (fun racc x => insertRev cmp x racc) l []).

(** Lines 298-318: [processedBlocks]. *)
Definition filteredBlocks (blocks : list TextBlock) : list TextBlock :=
  filter keepBlock blocks.

Definition processedBlocks (blocks : list TextBlock) : list TextBlock :=
  sortBy compareBlocks (filteredBlocks blocks).

(** Lines 321-325: [combinedText]. *)
Definition combinedText (processedBlocks : list TextBlock) : jsstring :=
  join (str " ") (map text processedBlocks)
  |> replaceAll [plus isSpace] (always (str " "))
  |> trim.

(** ** The component's state and its effects *)

(** A thrown value: an [Error] with its message, or anything else. *)
Inductive thrown : Type :=
| ErrorObject (message : jsstring)
| OtherValue.

(** How an awaited promise or a block of code ends. *)
Inductive outcome (A : Type) : Type :=
| Resolved (a : A)
| Rejected (e : thrown).
Arguments Rejected {A} e.

(** The [useState] cells of the component that the modelled code writes. *)
Record ScreenReaderState : Type := mkState {
  blocks : list TextBlock;
  cleanedText : jsstring;
  isLoading : bool;
  initError : option jsstring
}.

Definition setBlocks (v : list TextBlock) (st : ScreenReaderState) :=
  mkState v (cleanedText st) (isLoading st) (initError st).
Definition setCleanedText (v : jsstring) (st : ScreenReaderState) :=
  mkState (blocks st) v (isLoading st) (initError st).
Definition setIsLoading (v : bool) (st : ScreenReaderState) :=
  mkState (blocks st) (cleanedText st) v (initError st).
Definition setInitError (v : option jsstring) (st : ScreenReaderState) :=
  mkState (blocks st) (cleanedText st) (isLoading st) v.

(** Code that reads and writes the state and may throw. *)
Definition M (A : Type) : Type := ScreenReaderState -> outcome A * ScreenReaderState.

Definition ret (A : Type) (a : A) : M A := fun st => (Resolved a, st).
Definition throw (A : Type) (e : thrown) : M A := fun st => (Rejected e, st).
Arguments throw {A} e.
Definition bind (A B : Type) (m : M A) (f : A -> M B) : M B :=
  fun st =>
    match m st with
    | (Resolved a, st') => f a st'
    | (Rejected e, st') => (Rejected e, st')
    end.
Definition effect (f : ScreenReaderState -> ScreenReaderState) : M unit :=
  fun st => (Resolved tt, f st).
(** [await p], where the promise [p] settles with the given outcome. *)
Definition await (A : Type) (p : outcome A) : M A := fun st => (p, st).
(** [try { body } catch (e) { handler e }] *)
Definition tryCatch (A : Type) (body : M A) (handler : thrown -> M A) : M A :=
  fun st =>
    match body st with
    | (Resolved a, st') => (Resolved a, st')
    | (Rejected e, st') => handler e st'
    end.
(** [try { body } finally { fin }], for a [fin] that only writes state. *)
Definition tryFinally (A : Type) (body : M A)
  (fin : ScreenReaderState -> ScreenReaderState) : M A :=
  fun st => let (r, st') := body st in (r, fin st').

Notation "x <- m ;; k" := (bind m (fun x => k))
  (at level 61, m at next level, right associativity).
Notation "m ;;; k" := (bind m (fun _ => k))
  (at level 61, right associativity).

(** Lines 296-333.  The displayed string is written only under the guard
    [if (combinedText)]. *)
Definition filterAndFormatBlocks (blocks : list TextBlock)
  : M (list TextBlock) :=
  let processedBlocks := processedBlocks blocks in
  let combinedText := combinedText processedBlocks in
  (if truthy combinedText
   then effect (setCleanedText (cleanTextLocally combinedText))
   else ret tt) ;;;
  ret processedBlocks.

(** What [worker.recognize] resolves to, as far as [analyzeFrame] reads it. *)
Record TesseractWord : Type := mkWord {
  word_text : jsstring;
  word_confidence : float;
  word_bbox : BBox
}.
Record TesseractLine : Type := mkLine { words : list TesseractWord }.
Record TesseractData : Type := mkData {
  data_text : jsstring;
  lines : list TesseractLine
}.

(** Lines 363-384: the blocks pushed for the recognised words. *)
Definition collectBlocks (data : TesseractData) : list TextBlock :=
  flat_map
    (fun line =>
       flat_map
         (fun word =>
            if truthy (trim (word_text word))
            then [mkTextBlock (word_text word)
                    (word_confidence word / 100)%float
                    (mkBBox (x0 (word_bbox word)) (y0 (word_bbox word))
                            (x1 (word_bbox word)) (y1 (word_bbox word)))]
            else [])
         (words line))
    (lines data).

(** Lines 335-396.  [workerReady] is [workerRef.current] being set,
    [frameEmpty] the test of line 352, [recognized] what the awaited
    [recognize] settles with ([None]: a result with no [data]), and
    [isMounted] the liveness flag. *)
Definition analyzeFrame (workerReady frameEmpty : bool)
  (recognized : outcome (option TesseractData)) (isMounted : bool) : M unit :=
  tryCatch
    (if negb workerReady
     then throw (ErrorObject (str "Worker not initialized"))
     else if frameEmpty then ret tt
     else
       result <- await recognized ;;
       match result with
       | Some data =>
           if truthy (data_text data) && isMounted then
             let blocks := collectBlocks data in
             if (0 <? length blocks)%nat && isMounted then
               filteredBlocks <- filterAndFormatBlocks blocks ;;
               effect (setBlocks filteredBlocks)
             else ret tt
           else ret tt
       | None => ret tt
       end)
    (fun error =>
       effect (setInitError
                 (Some match error with
                       | ErrorObject message => message
                       | OtherValue => str "Error analyzing frame"
                       end))).

(* ------------------------------------------------------------------ *)
(** ** cleanTextWithAI (lines 193-216) *)

(** The response of [textGeneration]; [generated_text] may be missing. *)
Record TextGenerationOutput : Type := mkOutput {
  generated_text : option jsstring
}.

Definition cleanupPrompt (text : jsstring) : jsstring :=
  str "Clean and format the following text, removing unnecessary elements and preserving the main content:"
  ++ [10; 10]%N ++ text.

(** [textGeneration] is the remote collaborator: for a prompt, the outcome
    its promise settles with ([Resolved None]: no response object). *)
Definition cleanTextWithAI
  (textGeneration : jsstring -> outcome (option TextGenerationOutput))
  (text : jsstring) : M jsstring :=
  tryFinally
    (tryCatch
       (effect (setIsLoading true) ;;;
        response <- await (textGeneration (cleanupPrompt text)) ;;
        match response with
        | Some r =>
            match generated_text r with
            | Some g => if truthy g then ret (trim g) else ret text
            | None => ret text
            end
        | None => ret text
        end)
       (fun error => ret text))
    (setIsLoading false).

(* ------------------------------------------------------------------ *)
(** ** enhanceImageForOCR (lines 456-469) *)

(** An integer-valued JavaScript number as a binary64 float. *)
Definition toNumber (z : Z) : float := PrimFloat.of_uint63 (Uint63.of_Z z).

(** The integer part of a positive finite float. *)
Definition floorZ (x : float) : Z :=
  match FloatOps.Prim2SF x with
  | SpecFloat.S754_finite false m e => Z.shiftl (Zpos m) e
  | _ => 0%Z
  end.

(** ECMAScript ToUint8Clamp, the conversion of a store into a
    [Uint8ClampedArray]: NaN is stored as 0, the value is clamped to
    0..255 and rounded to the nearest integer, a tie going to the even
    one. *)
Definition toUint8Clamp (x : float) : Z :=
  if negb (x =? x)%float then 0%Z
  else if (x <=? 0)%float then 0%Z
  else if (255 <=? x)%float then 255%Z
  else
    let f := floorZ x in
    let half := (toNumber f + 0.5)%float in
    if (x <? half)%float then f
    else if (half <? x)%float then (f + 1)%Z
    else if Z.even f then f else (f + 1)%Z.

(** [data[i]]: an element of the array, or [undefined] past its end. *)
Definition element := option Z.

(** [data[i] + data[i + 1] + data[i + 2]]: the bytes are small integers
    and their sum is exact; [undefined] makes the sum NaN. *)
Definition sum3 (r g b : element) : float :=
  match r, g, b with
  | Some r, Some g, Some b => toNumber (r + g + b)
  | _, _, _ => nan
  end.

(** [Math.min(255, y)] *)
Definition min255 (y : float) : float :=
  if negb (y =? y)%float then nan
  else if (y <? 255)%float then y else 255%float.

(** Lines 461-462, and the conversion of the store of lines 463-465. *)
Definition adjusted (r g b : element) : Z :=
  let avg := (sum3 r g b / 3)%float in
  toUint8Clamp (if (avg <? 128)%float then (avg / 2)%float
                else min255 (avg * 1.5)%float).

(** The loop of lines 460-466 on the bytes of [imageData.data]: four
    bytes are consumed by each iteration; in the last one the bytes past
    the end of the array read as [undefined] and are not written. *)
Fixpoint enhanceImageForOCR (data : list Z) : list Z :=
  match data with
  | [] => []
  | [r] => let v := adjusted (Some r) None None in [v]
  | [r; g] => let v := adjusted (Some r) (Some g) None in [v; v]
  | [r; g; b] => let v := adjusted (Some r) (Some g) (Some b) in [v; v; v]
  | r :: g :: b :: a :: rest =>
      let v := adjusted (Some r) (Some g) (Some b) in
      v :: v :: v :: a :: enhanceImageForOCR rest
  end.

(* ------------------------------------------------------------------ *)
(** ** The life cycle of the component (lines 87-191, 398-474) *)

(** A Tesseract worker and a captured media stream, by identity. *)
Definition Worker := nat.
Definition Stream := nat.

(** The calls the component makes on its collaborators. *)
Inductive call : Type :=
| CreateWorker
| LoadLanguage (worker : Worker) (lang : jsstring)
| Initialize (worker : Worker) (langs : jsstring)
| Recognize (worker : Worker)
| Terminate (worker : Worker)
| GetDisplayMedia
| StopTracks (stream : Stream).

(** The cells of the component: the [useState] cells of
    [ScreenReaderState] and those of lines 89-90 and 96, the refs of lines
    94 and 99, the video elements that line 437 appends to the document
    (each by the stream it plays), and the calls made so far, oldest
    first. *)
Record World : Type := mkWorld {
  view : ScreenReaderState;
  isCapturing : bool;
  isAnalyzing : bool;
  initializationStatus : jsstring;
  workerRef : option Worker;
  isMounted : bool;
  videos : list Stream;
  calls : list call
}.

Definition setView (v : ScreenReaderState) (w : World) :=
  mkWorld v (isCapturing w) (isAnalyzing w) (initializationStatus w)
    (workerRef w) (isMounted w) (videos w) (calls w).
Definition setIsCapturing (v : bool) (w : World) :=
  mkWorld (view w) v (isAnalyzing w) (initializationStatus w)
    (workerRef w) (isMounted w) (videos w) (calls w).
Definition setIsAnalyzing (v : bool) (w : World) :=
  mkWorld (view w) (isCapturing w) v (initializationStatus w)
    (workerRef w) (isMounted w) (videos w) (calls w).
Definition setInitializationStatus (v : jsstring) (w : World) :=
  mkWorld (view w) (isCapturing w) (isAnalyzing w) v
    (workerRef w) (isMounted w) (videos w) (calls w).
Definition setWorkerRef (v : option Worker) (w : World) :=
  mkWorld (view w) (isCapturing w) (isAnalyzing w) (initializationStatus w)
    v (isMounted w) (videos w) (calls w).
Definition setIsMounted (v : bool) (w : World) :=
  mkWorld (view w) (isCapturing w) (isAnalyzing w) (initializationStatus w)
    (workerRef w) v (videos w) (calls w).
Definition setVideos (v : list Stream) (w : World) :=
  mkWorld (view w) (isCapturing w) (isAnalyzing w) (initializationStatus w)
    (workerRef w) (isMounted w) v (calls w).
Definition called (c : call) (w : World) :=
  mkWorld (view w) (isCapturing w) (isAnalyzing w) (initializationStatus w)
    (workerRef w) (isMounted w) (videos w) (calls w ++ [c]).

(** Lines 162-168: the clean-up of the effect.  The promise of
    [terminate] is not awaited. *)
Definition cleanup (w : World) : World :=
  let w := setIsMounted false w in
  match workerRef w with
  | Some worker => setWorkerRef None (called (Terminate worker) w)
  | None => w
  end.

(** Lines 110-115: the logger installed on the worker. *)
Definition logger (status : jsstring) (w : World) : World :=
  if isMounted w then setInitializationStatus status w else w.

(** What can happen while the component waits for a promise: React
    unmounts it, or Tesseract reports progress. *)
Inductive event : Type :=
| Unmount
| Progress (status : jsstring).

Definition happen (w : World) (e : event) : World :=
  match e with
  | Unmount => cleanup w
  | Progress status => logger status w
  end.

(** A promise the component waits for: how it settles, and what happens
    meanwhile. *)
Record Pending (A : Type) : Type := mkPending {
  settles : outcome A;
  meanwhile : list event
}.

Definition isSet (A : Type) (ref : option A) : bool :=
  match ref with Some _ => true | None => false end.

(** Code that reads and writes the cells and may throw. *)
Definition L (A : Type) : Type := World -> outcome A * World.

Definition retL (A : Type) (a : A) : L A := fun w => (Resolved a, w).
Definition throwL (A : Type) (e : thrown) : L A := fun w => (Rejected e, w).
Arguments throwL {A} e.
Definition bindL (A B : Type) (m : L A) (f : A -> L B) : L B :=
  fun w =>
    match m w with
    | (Resolved a, w') => f a w'
    | (Rejected e, w') => (Rejected e, w')
    end.
Definition readL (A : Type) (cell : World -> A) : L A := fun w => (Resolved (cell w), w).
Definition effectL (f : World -> World) : L unit := fun w => (Resolved tt, f w).
(** [await c], where the call [c] returns the promise [p]. *)
Definition awaitL (A : Type) (c : call) (p : Pending A) : L A :=
  fun w => (settles p, fold_left happen (meanwhile p) (called c w)).
Definition tryCatchL (A : Type) (body : L A) (handler : thrown -> L A) : L A :=
  fun w =>
    match body w with
    | (Resolved a, w') => (Resolved a, w')
    | (Rejected e, w') => handler e w'
    end.
(** Code that works on the [useState] cells of [ScreenReaderState]. *)
Definition liftM (A : Type) (m : M A) : L A :=
  fun w => let (r, v) := m (view w) in (r, setView v w).

Notation "x <~ m ;; k" := (bindL m (fun x => k))
  (at level 61, m at next level, right associativity).
Notation "m ;;~ k" := (bindL m (fun _ => k))
  (at level 61, right associativity).

(** The collaborator of [initializeWorker]: what each promise of
    Tesseract settles with, and [toString], the text that a template
    literal gives for a thrown value. *)
Record Tesseract : Type := mkTesseract {
  createWorker : Pending Worker;
  loadLanguage : jsstring -> Pending unit;
  initialize : jsstring -> Pending unit;
  terminate : Pending unit;
  toString : thrown -> jsstring
}.

(** Line 98. *)
Definition languages : list jsstring := [str "eng"; str "kor"].

(** [error?.message || fallback]; a thrown value that is not an [Error]
    is taken to carry no message. *)
Definition messageOr (fallback : jsstring) (error : thrown) : jsstring :=
  match error with
  | ErrorObject message => if truthy message then message else fallback
  | OtherValue => fallback
  end.

(** Lines 121-126: the loop over the languages. *)
Fixpoint loadLanguages (t : Tesseract) (worker : Worker)
  (langs : list jsstring) : L unit :=
  match langs with
  | [] => retL tt
  | lang :: rest =>
      mounted <~ readL isMounted ;;
      if negb mounted then retL tt
      else
        awaitL (LoadLanguage worker lang) (loadLanguage t lang) ;;~
        loadLanguages t worker rest
  end.

Definition setInitErrorL (v : option jsstring) (w : World) : World :=
  setView (setInitError v (view w)) w.

(** Lines 101-156. *)
Definition initializeWorker (t : Tesseract) : L unit :=
  tryCatchL
    (worker <~ awaitL CreateWorker (createWorker t) ;;
     effectL (setWorkerRef (Some worker)) ;;~
     tryCatchL
       (effectL (setInitializationStatus (str "Loading languages...")) ;;~
        loadLanguages t worker languages ;;~
        mounted <~ readL isMounted ;;
        if mounted then
          awaitL (Initialize worker (join (str "+") languages))
            (initialize t (join (str "+") languages)) ;;~
          effectL (setInitializationStatus (str "Ready"))
        else retL tt)
       (fun error =>
          throwL (ErrorObject
                    (str "Language initialization failed: " ++ toString t error))))
    (fun error =>
       mounted <~ readL isMounted ;;
       if mounted then
         effectL (setInitErrorL
                    (Some (messageOr (str "Unknown initialization error") error))) ;;~
         effectL (setInitializationStatus (str "Initialization failed")) ;;~
         current <~ readL workerRef ;;
         match current with
         | Some worker =>
             tryCatchL (awaitL (Terminate worker) (terminate t))
               (fun _ => retL tt) ;;~
             effectL (setWorkerRef None)
         | None => retL tt
         end
       else retL tt).

(** [if (initError)]: the cell holds a string that is not empty. *)
Definition hasError (w : World) : bool :=
  match initError (view w) with
  | Some message => truthy message
  | None => false
  end.

(** Lines 422-437: the video element is appended to the document; what
    follows runs when the browser has loaded the stream. *)
Definition handleStream (stream : Stream) : L unit :=
  effectL (fun w => setVideos (videos w ++ [stream]) w).

(** Lines 171-191. *)
Definition startCapture (displayMedia : Pending Stream) : L unit :=
  blocked <~ readL hasError ;;
  if blocked then retL tt
  else
    tryCatchL
      (stream <~ awaitL GetDisplayMedia displayMedia ;;
       effectL (setIsCapturing true) ;;~
       handleStream stream)
      (fun err => effectL (setIsCapturing false)).

(** A frame of the video: the test of line 352 and the promise of
    [recognize]. *)
Record Frame : Type := mkFrame {
  frameEmpty : bool;
  recognize : Pending (option TesseractData)
}.

(** [analyzeFrame] on the cells of the component.  [workerRef.current] is
    read at line 337 and [isMounted.current] at lines 362 and 386, after
    the promise of [recognize] has settled; nothing that happens
    meanwhile touches a cell that [analyzeFrame] writes. *)
Definition analyzeFrameL (frame : Frame) : L unit :=
  fun w =>
    let w' :=
      match workerRef w with
      | Some worker =>
          if frameEmpty frame then w
          else fold_left happen (meanwhile (recognize frame))
                 (called (Recognize worker) w)
      | None => w
      end in
    liftM (analyzeFrame (isSet (workerRef w)) (frameEmpty frame)
             (settles (recognize frame)) (isMounted w')) w'.

(** [video.parentNode.removeChild(video)], when the video is attached. *)
Fixpoint removeChild (stream : Stream) (videos : list Stream) : list Stream :=
  match videos with
  | [] => []
  | v :: rest => if Nat.eqb v stream then rest else v :: removeChild stream rest
  end.

(** Lines 408-419: the callback of the timer. *)
Definition analysis (stream : Stream) (frame : Frame) : L unit :=
  effectL (setIsAnalyzing true) ;;~
  analyzeFrameL frame ;;~
  effectL (setIsAnalyzing false) ;;~
  effectL (called (StopTracks stream)) ;;~
  effectL (fun w => setVideos (removeChild stream (videos w)) w) ;;~
  effectL (setIsCapturing false).

(** Lines 398-420; [delay] is what happens during the second for which
    the timer runs. *)
Definition analyzeFrames (contextAvailable : bool) (delay : list event)
  (stream : Stream) (frame : Frame) : L unit :=
  if negb contextAvailable then retL tt
  else effectL (fun w => fold_left happen delay w) ;;~ analysis stream frame.

(** Lines 494-511, 518, 557: what the component shows. *)
Inductive clickHandler : Type := StartCapture | StopCapture.
Record Rendered : Type := mkRendered {
  buttonLabel : jsstring;
  buttonDisabled : bool;
  onClick : clickHandler;
  processing : bool;
  errorMessage : option jsstring;
  detectedText : option jsstring
}.

Definition eqString (a b : jsstring) : bool :=
  if list_eq_dec N.eq_dec a b then true else false.

Definition render (w : World) : Rendered :=
  let ready := eqString (initializationStatus w) (str "Ready") in
  mkRendered
    (if negb ready then initializationStatus w
     else if isCapturing w then str "Stop Capture" else str "Start Capture")
    (negb (isSet (workerRef w)) || negb ready)
    (if isCapturing w then StopCapture else StartCapture)
    (isAnalyzing w)
    (if hasError w then initError (view w) else None)
    (if truthy (cleanedText (view w)) then Some (cleanedText (view w)) else None).

(* ================================================================== *)
(** * Part II: the vocabulary of the specification, and example inputs *)
(* ================================================================== *)

(** ** Remote clean-up (C9) *)

(** The remote call threw, or its response carries no generated text (no
    response object, no [generated_text] field, or an empty one). *)
Definition failsOrLacksText (r : outcome (option TextGenerationOutput)) : Prop :=
  match r with
  | Rejected _ => True
  | Resolved None => True
  | Resolved (Some o) => generated_text o = None \/ generated_text o = Some []
  end.

(** ** Example inputs *)

Definition word (t : String.string) (c : float) (x y : Z) : TextBlock :=
  mkTextBlock (str t) c (mkBBox x y (x + 40) (y + 12)).

(** Scenario 1 of the specification. *)
Definition scenario1 : list TextBlock :=
  [word "NEWS" 0.95 0 0; word "The" 0.91 50 0; word "quick" 0.92 100 0;
   word "fox." 0.90 150 0].

(** Scenario 2 of the specification. *)
Definition scenario2 : jsstring :=
  str "hello world this is great. and it works well. ok.".

(** A text with curly quotes (U+201C, U+201D) and a curly apostrophe
    (U+2019). *)
Definition curlyQuoted : jsstring :=
  ([8220] ++ str "Hello" ++ [8221; 32] ++ str "it" ++ [8217] ++ str "s fine")%N.

Definition initialState : ScreenReaderState := mkState [] [] false None.
Definition showingOld : ScreenReaderState :=
  mkState [] (str "Old text.") false None.

(** ** What a pattern matches *)

(** [Matches r m rest]: the pattern [r] matches the text [m] when [rest]
    is what follows [m] in the input. *)
Inductive Matches : regex -> jsstring -> jsstring -> Prop :=
| Matches_nil : forall rest, Matches [] [] rest
| Matches_one : forall p r c m rest,
    p c = true -> Matches r m rest -> Matches (One p :: r) (c :: m) rest
| Matches_rep : forall p lo hi r w m rest,
    Forall (fun c => p c = true) w ->
    lo <= length w ->
    match hi with Some h => length w <= h | None => True end ->
    Matches r m rest -> Matches (Rep p lo hi :: r) (w ++ m) rest
| Matches_eos : forall r, Matches r [] [] -> Matches (Eos :: r) [] [].

(** ** The paragraph rule (C3, C10) *)

Definition nonBlank (s : jsstring) : Prop := trim s <> [].

(** The test of line 263, as a boolean. *)
Definition isNonBlank (s : jsstring) : bool := truthy (trim s).

(** The sentence begins with a double or a single quotation mark. *)
Definition beginsWithQuote (s : jsstring) : Prop :=
  exists rest, s = 34%N :: rest \/ s = 39%N :: rest.

(** The sentence ends with a colon, optionally followed by white space. *)
Definition endsWithColon (s : jsstring) : Prop :=
  exists before ws,
    s = before ++ 58%N :: ws /\ Forall (fun c => isSpace c = true) ws.

(** The accumulator [acc] is flushed before the sentence [s] is taken. *)
Definition mustFlush (acc : list jsstring) (s : jsstring) : Prop :=
  acc <> [] /\
  (3 <= length acc \/ beginsWithQuote s \/ length s < 30 \/ endsWithColon s).

(** [composes acc ss out]: starting with the accumulator [acc], the
    sentences [ss] give the paragraphs [out] under the rule of the
    specification. *)
Inductive composes : list jsstring -> list jsstring -> list jsstring -> Prop :=
| composes_nothing : composes [] [] []
| composes_final : forall acc,
    acc <> [] -> composes acc [] [join (str " ") acc]
| composes_flush : forall acc s ss out,
    mustFlush acc s -> composes [s] ss out ->
    composes acc (s :: ss) (join (str " ") acc :: out)
| composes_append : forall acc s ss out,
    ~ mustFlush acc s -> composes (acc ++ [s]) ss out ->
    composes acc (s :: ss) out.

(** ** What the clean-up leaves alone *)

(** The characters of a string that are not white space. *)
Definition notSpace (c : char) : bool := negb (isSpace c).
Definition visible (s : jsstring) : jsstring := filter notSpace s.

(** The only white space character is the plain space (U+0020). *)
Definition plainSpaced (c : char) : Prop := isSpace c = true -> c = 32%N.

(** Line 248 alone. *)
Definition capitalize (sentence : jsstring) : jsstring :=
  replaceStart [One isLower] (map toUpperCase) sentence.

(** The end of a step of the loop: the unconditional flush at the last
    index. *)
Definition finishAt (total index : nat) (st : composer) : composer :=
  if (index =? total - 1)%nat
  then mkComposer (paragraphs st ++ [join (str " ") (currentParagraph st)])
         (currentParagraph st)
  else st.

(** ** Degenerate input (C8) *)

(** No word survives the word filter: the word list is empty or every
    word of it is filtered out. *)
Definition degenerate (blocks : list TextBlock) : Prop :=
  filteredBlocks blocks = [].

(** A recognition result with no word at all, and one whose only word is
    a navigation label. *)
Definition frameWithoutWords : TesseractData := mkData (str "~") [].
Definition frameWithLabelOnly : TesseractData :=
  mkData (str "NEWS")
    [mkLine [mkWord (str "NEWS") 95 (mkBBox 0 0 40 12)]].

(** ** Stable sentences (C7) *)

(** Two neighbouring characters that no rule of the sentence cleaner
    touches: a space is followed by neither a space nor a punctuation
    mark, and a punctuation mark that is followed by anything is no
    sentence terminator and is followed by a plain space. *)
Definition pairOk (a b : char) : bool :=
  (if isSpace a then negb (isSpace b) && negb (isPunct b) else true)
  && (if isPunct a then (b =? 32)%N && negb (isTerminator a) else true).

Fixpoint tight (s : jsstring) : bool :=
  match s with
  | a :: (b :: _) as t => pairOk a b && tight t
  | _ => true
  end.

(** A character that the normaliser keeps as it is. *)
Definition normalChar (c : char) : bool :=
  isAllowed c && negb (c =? 40)%N && negb (c =? 41)%N.

(** Such a character that is a plain space if it is white space at all. *)
Definition plainChar (c : char) : bool :=
  normalChar c && (negb (isSpace c) || (c =? 32)%N).

Definition firstOk (s : jsstring) : bool :=
  match s with
  | c :: _ => negb (isSpace c) && negb (isLower c) && negb (isLeadingSymbol c)
  | [] => false
  end.

Fixpoint lastNonSpace (s : jsstring) : bool :=
  match s with
  | [] => true
  | [c] => negb (isSpace c)
  | _ :: t => lastNonSpace t
  end.

Fixpoint endsWith (p : char -> bool) (s : jsstring) : bool :=
  match s with
  | [] => false
  | [c] => p c
  | _ :: t => endsWith p t
  end.

(** A sentence on which the segmenter's filter and clean-up do nothing. *)
Definition stableSentence (s : jsstring) : bool :=
  keepSentence s && forallb plainChar s && firstOk s && lastNonSpace s
  && tight s.

(** Every sentence but the last ends with a sentence terminator. *)
Fixpoint terminatedButLast (ss : list jsstring) : bool :=
  match ss with
  | s :: (_ :: _) as t => endsWith isTerminator s && terminatedButLast t
  | _ => true
  end.

(** [Glued ss d]: the document [d] is the sentences [ss], in order, with
    a non-empty run of white space between each two. *)
Inductive Glued : list jsstring -> jsstring -> Prop :=
| Glued_one : forall s, Glued [s] s
| Glued_cons : forall s sep ss d,
    sep <> [] -> Forall (fun c => isSpace c = true) sep ->
    Glued ss d -> Glued (s :: ss) (s ++ sep ++ d).

(** [s] put in front of the first piece of a split. *)
Definition prependTo (s : jsstring) (pieces : list jsstring) : list jsstring :=
  match pieces with
  | p :: ps => (s ++ p) :: ps
  | [] => [s]
  end.

(** The split pattern cannot match at the first character of [s] when
    [prev] is the character before it. *)
Definition noBreakAt (prev : option char) (s : jsstring) : Prop :=
  match s with
  | [] => True
  | c :: _ => lookbehind isTerminator prev = false \/ isSpace c = false
  end.

(** Every sentence has a first character, and it is not white space. *)
Definition headsOk (ss : list jsstring) : Prop :=
  Forall (fun s => exists c t, s = c :: t /\ isSpace c = false) ss.

(** The pass run on its own output changes nothing but white space. *)
Definition secondPassKeepsVisible (text : jsstring) : Prop :=
  visible (cleanTextLocally (cleanTextLocally text))
  = visible (cleanTextLocally text).

(** A text with a full stop inside a word. *)
Definition dottedText : jsstring := str "hello world.this is a test".

(** ** Reading order (C2) *)



(** [a] stands somewhere before [b] in [l]. *)
Definition Precedes (A : Type) (a b : A) (l : list A) : Prop :=
  exists l1 l2 l3, l = l1 ++ a :: l2 ++ b :: l3.

(** Two words are on the same line: their top edges are less than 10
    pixels apart. *)
Definition sameLine (a b : TextBlock) : Prop :=
  (Z.abs (y0 (bbox a) - y0 (bbox b)) < 10)%Z.

(** The order the specification asks of the sorted list: a word that
    stands before another is above it when they are on different lines,
    and not to the right of it when they are on the same line. *)
Definition readingOrder (out : list TextBlock) : Prop :=
  forall a b, Precedes a b out ->
    ((10 <= Z.abs (y0 (bbox a) - y0 (bbox b)))%Z ->
     (y0 (bbox a) < y0 (bbox b))%Z) /\
    (sameLine a b -> (x0 (bbox a) <= x0 (bbox b))%Z).

(** The words whose top-left corner is [(x, y)]. *)
Definition atCorner (y x : Z) (b : TextBlock) : bool :=
  ((y0 (bbox b) =? y) && (x0 (bbox b) =? x))%Z.

(** Words with equal [(y0, x0)] keep their relative order. *)
Definition keepsTies (input out : list TextBlock) : Prop :=
  forall y x, filter (atCorner y x) out = filter (atCorner y x) input.

(** C2 as the specification states it, for one input list and its sorted
    list. *)
Definition sortInvariant (input out : list TextBlock) : Prop :=
  readingOrder out /\ keepsTies input out.


(** A skewed line of three words, each 8 pixels higher and further right
    than the previous one (top edges 20, 12 and 4). *)
Definition skewedLine : list TextBlock :=
  [word "alpha" 0.93 0 20; word "beta" 0.93 50 12; word "gamma" 0.93 100 4].


(** ** The cleaned document and the idle steps of the pipeline *)

(** A character of a cleaned document: a line feed, a plain space, or a
    character of the allowed set of line 224 that is no white space. *)
Definition documentChar (c : char) : bool :=
  (c =? 10)%N || (c =? 32)%N || (isAllowed c && negb (isSpace c)).

(** [cleaned] without lines 225, 226, 229 and 230. *)
Definition cleanedInSixSteps (text : jsstring) : jsstring :=
  text
  |> replaceStart [plus isLeadingSymbol] (always [])
  |> replaceAll navMenu (always [])
  |> replaceAll navLabels (always [])
  |> replaceAll [One (fun c => negb (isAllowed c))] (always (str " "))
  |> replaceAll [star isSpace; One (isChar 40); star isSpace] (always (str "("))
  |> replaceAll [star isSpace; One (isChar 41); star isSpace] (always (str ") "))
  |> trim.

(** [cleanSentence] without lines 250 and 251. *)
Definition cleanSentenceInFourSteps (sentence : jsstring) : jsstring :=
  sentence
  |> replaceStart [One isLower] (map toUpperCase)
  |> replaceAll [plus isSpace] (always (str " "))
  |> replaceAll [plus isSpace; One isPunct] (fun m => lastChar m)
  |> replaceAll [One isPunct; star isSpace] (fun m => firstChar m ++ str " ")
  |> trim.

(** ** Navigation labels and the combined text *)

(** The labels of line 310. *)
Definition navLabelNames : list String.string :=
  ["Home"; "News"; "Sport"; "Business"; "Innovation"; "Culture"; "Arts";
   "Travel"; "Earth"; "Audio"; "Video"; "Live"]%string.

(** The same text up to the case of ASCII letters. *)
Definition sameIgnoringCase (a b : jsstring) : Prop :=
  map toUpperCase a = map toUpperCase b.

(** No two neighbouring characters are both white space. *)
Fixpoint singleSpaced (s : jsstring) : bool :=
  match s with
  | a :: (b :: _) as t => negb (isSpace a && isSpace b) && singleSpaced t
  | _ => true
  end.

(** ** What [analyzeFrame] records *)

(** The message that line 394 records for a thrown value. *)
Definition analysisMessage (error : thrown) : jsstring :=
  match error with
  | ErrorObject message => message
  | OtherValue => str "Error analyzing frame"
  end.

(** The word of a recognition result that a block was made of. *)
Definition madeOf (data : TesseractData) (b : TextBlock) : Prop :=
  exists line word,
    In line (lines data) /\ In word (words line)
    /\ trim (word_text word) <> []
    /\ text b = word_text word
    /\ confidence b = (word_confidence word / 100)%float
    /\ bbox b = word_bbox word.

(** ** Pixels *)

(** A value that a [Uint8ClampedArray] can hold. *)
Definition isByte (v : Z) : Prop := (0 <= v <= 255)%Z.

(** [n / d] rounded to the nearest integer, a tie going to the even one. *)
Definition roundHalfEven (n d : Z) : Z :=
  let q := (n / d)%Z in
  let r := (n mod d)%Z in
  if (2 * r <? d)%Z then q
  else if (d <? 2 * r)%Z then (q + 1)%Z
  else if Z.even q then q else (q + 1)%Z.

(** The grey level the source computes for a pixel whose colour bytes sum
    to [s], in integer arithmetic. *)
Definition greyLevel (s : Z) : Z :=
  if (s <? 384)%Z then roundHalfEven s 6
  else Z.min 255 (roundHalfEven s 2).

(** The sums that three bytes can have. *)
Definition sums : list Z := map Z.of_nat (seq 0 766).

(** The [i]-th pixel of the array: red, green, blue, alpha. *)
Definition pixelAt (data : list Z) (i : nat) : option (Z * Z * Z * Z) :=
  match skipn (4 * i) data with
  | r :: g :: b :: a :: _ => Some (r, g, b, a)
  | _ => None
  end.

(** A dark pixel and a bright one. *)
Definition sampleImage : list Z := [10; 20; 30; 255; 200; 100; 85; 128]%Z.

(** ** Runs of the life cycle *)

(** The component is not unmounted while the promise is pending. *)
Definition staysMounted (A : Type) (p : Pending A) : Prop :=
  ~ In Unmount (meanwhile p).

(** The component is not unmounted during a run of [initializeWorker]. *)
Definition neverUnmounts (t : Tesseract) : Prop :=
  staysMounted (createWorker t)
  /\ (forall lang, staysMounted (loadLanguage t lang))
  /\ (forall langs, staysMounted (initialize t langs))
  /\ staysMounted (terminate t).

(** Every promise of a run of [initializeWorker] is fulfilled. *)
Definition succeeds (t : Tesseract) (worker : Worker) : Prop :=
  settles (createWorker t) = Resolved worker
  /\ (forall lang, In lang languages -> settles (loadLanguage t lang) = Resolved tt)
  /\ settles (initialize t (str "eng+kor")) = Resolved tt.

(** The component once mounted, before its worker exists (lines 88-99). *)
Definition mountedWorld : World :=
  mkWorld initialState false false (str "Starting initialization...") None true
    [] [].

(** The component after an error has been recorded. *)
Definition failedWorld : World :=
  setInitErrorL (Some (str "Worker not initialized")) mountedWorld.

(** A promise that settles before anything else happens. *)
Definition promptly (A : Type) (r : outcome A) : Pending A := mkPending r [].

(** A text for a thrown value. *)
Definition describe (e : thrown) : jsstring :=
  match e with
  | ErrorObject message => str "Error: " ++ message
  | OtherValue => str "undefined"
  end.

(** Tesseract at its best; without the Korean data; and so slow that the
    component is unmounted before the worker exists. *)
Definition tesseractOk : Tesseract :=
  mkTesseract (promptly (Resolved 1)) (fun _ => promptly (Resolved tt))
    (fun _ => promptly (Resolved tt)) (promptly (Resolved tt)) describe.
Definition tesseractWithoutKorean : Tesseract :=
  mkTesseract (promptly (Resolved 1))
    (fun lang => if eqString lang (str "kor")
                 then promptly (Rejected (ErrorObject (str "404")))
                 else promptly (Resolved tt))
    (fun _ => promptly (Resolved tt)) (promptly (Resolved tt)) describe.
Definition tesseractSlow : Tesseract :=
  mkTesseract (mkPending (Resolved 1) [Unmount]) (fun _ => promptly (Resolved tt))
    (fun _ => promptly (Resolved tt)) (promptly (Resolved tt)) describe.

(** Tesseract left behind: the component is unmounted while the first
    language loads, and the load is then rejected. *)
Definition tesseractLeft : Tesseract :=
  mkTesseract (promptly (Resolved 1))
    (fun lang => mkPending (Rejected (ErrorObject (str "aborted"))) [Unmount])
    (fun _ => promptly (Resolved tt)) (promptly (Resolved tt)) describe.

(** A frame with nothing on it. *)
Definition blankFrame : Frame := mkFrame true (promptly (Resolved None)).


(** The code [m] keeps the invariant [Inv] of the cells. *)
Definition preserves (Inv : World -> Prop) (A : Type) (m : L A) : Prop :=
  forall w, Inv w -> Inv (snd (m w)).

(** ** Proof automation *)


(** Inversion of [Matches] along a pattern that is given explicitly. *)
Ltac invert_matches :=
  unfold plus, star in *;
  repeat match goal with
         | H : Matches (_ :: _) _ _ |- _ => inversion H; subst; clear H
         | H : Matches [] _ _ |- _ => inversion H; subst; clear H
         end.

(** Facts about character classes, by linear arithmetic on code units. *)
Ltac char_arith :=
  unfold isAlpha, isLower, isUpper, isDigit, isSpace, isPunct, isTerminator,
    isWordChar, isAllowed, isQuoteStart, isLeadingSymbol, isChar, notSpace,
    toUpperCase, inRange, oneOf in *;
  simpl existsb in *;
  rewrite ?negb_true_iff, ?negb_false_iff in *;
  repeat match goal with
         | |- _ = false => apply not_true_is_false; intro
         | H : _ = false |- _ => apply not_true_iff_false in H
         end;
  rewrite ?orb_true_iff, ?andb_true_iff, ?N.leb_le, ?N.eqb_eq in *;
  try lia; try tauto.

(** A derivation of [Matches] for a concrete pattern and text. *)
Ltac build_match :=
  repeat first
    [ apply Matches_nil
    | apply Matches_one; [reflexivity|]
    | match goal with
      | |- Matches (Rep _ _ _ :: _) (?c :: ?m) _ =>
          change (c :: m) with ([c] ++ m);
          apply Matches_rep; [repeat constructor|simpl; lia|exact I|]
      end ].

(** One step of a run of the life cycle: case analysis on what a promise
    settles with, on a flag, or on the worker ref. *)
Ltac run_step :=
  match goal with
  | |- context [match settles ?p with _ => _ end] => destruct (settles p) as [[]|?] eqn:?
  | |- context [match settles ?p with _ => _ end] => destruct (settles p) eqn:?
  | |- context [if negb ?b then _ else _] => destruct b eqn:?
  | |- context [if ?b then _ else _] => destruct b eqn:?
  | |- context [match workerRef ?w with _ => _ end] => destruct (workerRef w) eqn:?
  end; simpl.

Ltac run_code :=
  unfold tryCatchL, bindL, awaitL, effectL, readL, retL, throwL; simpl;
  repeat run_step.

(** What happens while a promise is pending, under [lemma], which says
    what the events do to a mounted component ([Hm]). *)
Ltac settle_with lemma Hm :=
  repeat match goal with
  | |- context [fold_left happen (meanwhile ?p) ?X] =>
      let s := fresh "status" in
      let Hs := fresh "Hstatus" in
      destruct (lemma (meanwhile p) X) as (s & -> & Hs);
      [solve [simpl; exact Hm] | solve [auto] | simpl in Hs; simpl]
  end.

(** The end of a failed initialisation; [truthy_lemma] says that the
    recorded message is not empty, [e] is what was thrown. *)
Ltac failure_tail truthy_lemma e :=
  unfold hasError, render; cbn -[str app];
  split; [|split; [|split; [|split]]];
  [ first [reflexivity | apply truthy_lemma; reflexivity]
  | first [reflexivity | assumption]
  | first [reflexivity
          | match goal with H : workerRef _ = None |- _ => rewrite H; reflexivity end]
  | first [ intros ? [= <-]; split;
            [apply in_or_app; right; left; reflexivity|exists e; reflexivity]
          | intros ? [=] ]
  | first [assumption | reflexivity] ].

(* ================================================================== *)
(** * Part III: properties *)
(* ================================================================== *)

(** ** The matcher *)

Lemma tryDown_some (f : nat -> option nat) (lo n r : nat) :
  tryDown f lo n = Some r -> exists k, lo <= k <= n /\ f k = Some r.
Proof.
  induction n as [|n IH]; simpl.
  - destruct (Nat.ltb_spec 0 lo); [discriminate|].
    destruct (f 0) eqn:Hf; [|discriminate].
    intros [= <-]. exists 0. split; [lia|exact Hf].
  - destruct (Nat.ltb_spec (S n) lo) as [Hlt|Hge]; [discriminate|].
    destruct (f (S n)) eqn:Hf.
    + intros [= <-]. exists (S n). split; [lia|exact Hf].
    + intros H. destruct (IH H) as (k & Hk & Hfk).
      exists k. split; [lia|exact Hfk].
Qed.

Lemma tryDown_none (f : nat -> option nat) (lo n : nat) :
  tryDown f lo n = None -> forall k, lo <= k <= n -> f k = None.
Proof.
  induction n as [|n IH]; simpl.
  - destruct (Nat.ltb_spec 0 lo); [intros; lia|].
    destruct (f 0) eqn:Hf; [discriminate|].
    intros _ k Hk. replace k with 0 by lia. exact Hf.
  - destruct (Nat.ltb_spec (S n) lo) as [Hlt|Hge]; [intros; lia|].
    destruct (f (S n)) eqn:Hf; [discriminate|].
    intros H k Hk. destruct (Nat.eq_dec k (S n)) as [->|Hne]; [exact Hf|].
    apply IH; [exact H|lia].
Qed.

Lemma takeWhile_dropWhile (p : char -> bool) (s : jsstring) :
  s = takeWhile p s ++ dropWhile p s.
Proof.
  induction s as [|c s IH]; simpl; [reflexivity|].
  destruct (p c); simpl; [f_equal; exact IH|reflexivity].
Qed.

Lemma takeWhile_Forall (p : char -> bool) (s : jsstring) :
  Forall (fun c => p c = true) (takeWhile p s).
Proof.
  induction s as [|c s IH]; simpl; [constructor|].
  destruct (p c) eqn:Hc; [constructor; assumption|constructor].
Qed.

Lemma takeWhile_longest (p : char -> bool) (w t : jsstring) :
  Forall (fun c => p c = true) w -> length w <= length (takeWhile p (w ++ t)).
Proof.
  induction 1 as [|c w Hc Hw IH]; simpl; [lia|].
  rewrite Hc. simpl. lia.
Qed.

Lemma firstn_takeWhile (p : char -> bool) (k : nat) (s : jsstring) :
  k <= length (takeWhile p s) ->
  Forall (fun c => p c = true) (firstn k s) /\ length (firstn k s) = k.
Proof.
  revert k. induction s as [|c s IH]; intros k; simpl.
  - intros Hk. replace k with 0 by lia. simpl. split; [constructor|reflexivity].
  - destruct (p c) eqn:Hc; simpl; intros Hk.
    + destruct k as [|k]; simpl; [split; [constructor|reflexivity]|].
      destruct (IH k) as [H1 H2]; [lia|].
      split; [constructor; assumption|f_equal; exact H2].
    + replace k with 0 by lia. simpl. split; [constructor|reflexivity].
Qed.

Lemma firstn_plus (A : Type) (k n : nat) (s : list A) :
  firstn (k + n) s = firstn k s ++ firstn n (skipn k s).
Proof.
  revert s. induction k as [|k IH]; intros s; simpl; [reflexivity|].
  destruct s as [|c s]; simpl.
  - rewrite firstn_nil. reflexivity.
  - f_equal. apply IH.
Qed.

Lemma skipn_plus (A : Type) (k n : nat) (s : list A) :
  skipn (k + n) s = skipn n (skipn k s).
Proof.
  revert s. induction k as [|k IH]; intros s; simpl; [reflexivity|].
  destruct s as [|c s]; simpl; [rewrite skipn_nil; reflexivity|apply IH].
Qed.

(** What the matcher finds is a match. *)
Lemma matchHere_sound (r : regex) :
  forall s n, matchHere r s = Some n ->
    Matches r (firstn n s) (skipn n s) /\ length (firstn n s) = n.
Proof.
  induction r as [|a r IH]; intros s n; simpl.
  - intros [= <-]. simpl. split; [constructor|reflexivity].
  - destruct a as [p|p lo hi|].
    + destruct s as [|c s]; [discriminate|].
      destruct (p c) eqn:Hc; [|discriminate].
      destruct (matchHere r s) as [n'|] eqn:Hm; [|discriminate].
      simpl. intros [= <-]. destruct (IH _ _ Hm) as [H1 H2]. simpl.
      split; [constructor; assumption|f_equal; exact H2].
    + intros H. apply tryDown_some in H. destruct H as (k & Hk & H).
      destruct (matchHere r (skipn k s)) as [n'|] eqn:Hm; [|discriminate].
      simpl in H. injection H as <-.
      destruct (IH _ _ Hm) as [H1 H2].
      assert (Hrun : k <= length (takeWhile p s)).
      { destruct hi; lia. }
      destruct (@firstn_takeWhile p k s Hrun) as [Hall Hlen].
      rewrite firstn_plus, skipn_plus. split.
      * constructor; [exact Hall|lia| |exact H1].
        destruct hi; [lia|exact I].
      * rewrite length_app. lia.
    + destruct s as [|c s]; [|discriminate].
      intros H. destruct (IH _ _ H) as [H1 H2].
      rewrite firstn_nil, skipn_nil in *.
      split; [constructor; exact H1|exact H2].
Qed.

(** Where a match exists the matcher finds one. *)
Lemma matchHere_complete (r : regex) (m rest : jsstring) :
  Matches r m rest -> exists n, matchHere r (m ++ rest) = Some n.
Proof.
  induction 1 as [rest|p r c m rest Hc _ IH|p lo hi r w m rest Hw Hlo Hhi _ IH|r _ IH];
    simpl.
  - exists 0. reflexivity.
  - rewrite Hc. destruct IH as [n ->]. exists (S n). reflexivity.
  - match goal with |- exists n, tryDown ?f ?a ?b = Some n =>
      destruct (tryDown f a b) as [n|] eqn:Ht end; [exists n; reflexivity|].
    exfalso.
    apply tryDown_none with (k := length w) in Ht.
    + rewrite <- app_assoc, skipn_app, skipn_all, Nat.sub_diag in Ht.
      simpl in Ht. destruct IH as [n Hn]. rewrite Hn in Ht. discriminate.
    + split; [exact Hlo|].
      pose proof (@takeWhile_longest p w (m ++ rest) Hw) as Hlong.
      rewrite app_assoc in Hlong. destruct hi; lia.
  - exact IH.
Qed.

Lemma matchHere_none (r : regex) (m rest : jsstring) :
  matchHere r (m ++ rest) = None -> ~ Matches r m rest.
Proof.
  intros Hn Hm. destruct (matchHere_complete Hm) as [n H]. congruence.
Qed.

Lemma test_true (r : regex) (s : jsstring) :
  test r s = true <->
  exists before m rest, s = before ++ m ++ rest /\ Matches r m rest.
Proof.
  split.
  - induction s as [|c s IH]; simpl.
    + destruct (matchHere r []) as [n|] eqn:Hm; [|discriminate].
      intros _. apply matchHere_sound in Hm. destruct Hm as [Hm _].
      exists [], (firstn n []), (skipn n []). split; [|exact Hm].
      rewrite firstn_nil, skipn_nil. reflexivity.
    + destruct (matchHere r (c :: s)) as [n|] eqn:Hm.
      * intros _. apply matchHere_sound in Hm. destruct Hm as [Hm _].
        exists [], (firstn n (c :: s)), (skipn n (c :: s)).
        split; [|exact Hm]. simpl. symmetry. apply firstn_skipn.
      * intros H. destruct (IH H) as (b & m & rest & -> & Hm').
        exists (c :: b), m, rest. split; [reflexivity|exact Hm'].
  - intros (b & m & rest & -> & Hm).
    induction b as [|c b IH]; simpl.
    + destruct (matchHere_complete Hm) as [n Hn].
      destruct (m ++ rest); simpl; rewrite Hn; reflexivity.
    + destruct (matchHere r (c :: b ++ m ++ rest)); [reflexivity|exact IH].
Qed.

(** ** Global replacement *)

Section ReplaceAll.
Variable r : regex.
Variable rep : jsstring -> jsstring.

Lemma replaceAll_from_skipn (k : nat) :
  forall s, k <= length s ->
    replaceAll_from r rep k s = replaceAll r rep (skipn k s).
Proof.
  induction k as [|k IH]; intros s Hk.
  - destruct s; reflexivity.
  - destruct s as [|c s]; simpl in Hk; [lia|].
    simpl. apply IH. lia.
Qed.

Lemma replaceAll_nil :
  replaceAll r rep [] =
  match matchHere r [] with Some _ => rep [] | None => [] end.
Proof. reflexivity. Qed.

Lemma replaceAll_cons (c : char) (s : jsstring) :
  replaceAll r rep (c :: s) =
  match matchHere r (c :: s) with
  | Some (S k) => rep (firstn (S k) (c :: s))
                  ++ replaceAll r rep (skipn (S k) (c :: s))
  | Some O => rep [] ++ c :: replaceAll r rep s
  | None => c :: replaceAll r rep s
  end.
Proof.
  unfold replaceAll at 1. simpl.
  destruct (matchHere r (c :: s)) as [[|k]|] eqn:Hm; try reflexivity.
  apply matchHere_sound in Hm. destruct Hm as [_ Hlen].
  simpl in Hlen. injection Hlen as Hlen.
  rewrite replaceAll_from_skipn; [reflexivity|].
  rewrite length_firstn in Hlen. lia.
Qed.

(** Induction along the matches that [replaceAll] finds. *)
Lemma replaceAll_ind (P : jsstring -> jsstring -> Prop) :
  P [] (match matchHere r [] with Some _ => rep [] | None => [] end) ->
  (forall c s, matchHere r (c :: s) = None ->
     P s (replaceAll r rep s) -> P (c :: s) (c :: replaceAll r rep s)) ->
  (forall c s, matchHere r (c :: s) = Some 0 ->
     P s (replaceAll r rep s) ->
     P (c :: s) (rep [] ++ c :: replaceAll r rep s)) ->
  (forall c m rest, Matches r (c :: m) rest ->
     matchHere r (c :: m ++ rest) = Some (S (length m)) ->
     P rest (replaceAll r rep rest) ->
     P (c :: m ++ rest) (rep (c :: m) ++ replaceAll r rep rest)) ->
  forall s, P s (replaceAll r rep s).
Proof.
  intros Hnil Hnone Hzero Hmatch s.
  remember (length s) as n eqn:Hn.
  revert s Hn. induction n as [n IH] using lt_wf_ind. intros s Hn.
  destruct s as [|c s]; [exact Hnil|].
  rewrite replaceAll_cons.
  destruct (matchHere r (c :: s)) as [[|k]|] eqn:Hm.
  - apply Hzero; [exact Hm|]. apply (IH (length s)); simpl in Hn; [lia|reflexivity].
  - pose proof (matchHere_sound _ _ Hm) as [HM Hlen].
    pose proof (firstn_skipn (S k) (c :: s)) as Hsplit.
    simpl in HM, Hlen, Hsplit |- *. injection Hlen as Hlen.
    rewrite <- Hsplit at 1.
    injection Hsplit as Hsplit.
    assert (Hm' : matchHere r (c :: firstn k s ++ skipn k s)
                  = Some (S (length (firstn k s)))).
    { rewrite Hsplit, Hlen. exact Hm. }
    apply (Hmatch c (firstn k s) (skipn k s) HM Hm').
    apply (IH (length (skipn k s))); [|reflexivity].
    rewrite length_skipn. simpl in Hn. lia.
  - apply Hnone; [exact Hm|]. apply (IH (length s)); simpl in Hn; [lia|reflexivity].
Qed.

(** A property of characters that the replacement texts respect holds of
    the result; the characters that are kept may be assumed unmatched. *)
Lemma replaceAll_Forall (P Q : char -> Prop) :
  (forall c s, P c -> matchHere r (c :: s) = None -> Q c) ->
  (forall c s, P c -> matchHere r (c :: s) = Some 0 -> Q c) ->
  (forall m rest, Matches r m rest -> Forall P m -> Forall Q (rep m)) ->
  (forall n, matchHere r [] = Some n -> Forall Q (rep [])) ->
  forall s, Forall P s -> Forall Q (replaceAll r rep s).
Proof.
  intros Hkeep Hkeep0 Hrep Hend s.
  apply (replaceAll_ind (fun s out => Forall P s -> Forall Q out)).
  - intros _. destruct (matchHere r []) eqn:Hm; [|constructor].
    eapply Hend. reflexivity.
  - intros c s' Hm IH HP. inversion HP; subst.
    constructor; [eapply Hkeep; eassumption|auto].
  - intros c s' Hm IH HP. inversion HP; subst.
    apply Forall_app. split.
    + apply matchHere_sound in Hm. simpl in Hm.
      apply (Hrep [] (c :: s')); [apply Hm|constructor].
    + constructor; [eapply Hkeep0; eassumption|auto].
  - intros c m rest HM _ IH HP.
    change (c :: m ++ rest) with ((c :: m) ++ rest) in HP.
    apply Forall_app in HP. destruct HP as [HP1 HP2].
    apply Forall_app. split; [apply (Hrep _ _ HM HP1)|auto].
Qed.

(** Where every replacement text is the matched text, nothing changes. *)
Lemma replaceAll_id :
  (forall m rest, Matches r m rest -> rep m = m) ->
  forall s, replaceAll r rep s = s.
Proof.
  intros Hrep.
  apply (replaceAll_ind (fun s out => out = s)).
  - destruct (matchHere r []) eqn:Hm; [|reflexivity].
    apply matchHere_sound in Hm. simpl in Hm. apply (Hrep [] []).
    rewrite firstn_nil, skipn_nil in Hm. apply Hm.
  - intros c s _ ->. reflexivity.
  - intros c s Hm ->. apply matchHere_sound in Hm. simpl in Hm.
    rewrite (Hrep [] (c :: s)); [reflexivity|apply Hm].
  - intros c m rest HM _ ->. rewrite (Hrep _ _ HM). reflexivity.
Qed.

(** A filter that does not tell a replacement text from the matched text
    does not tell the result from the input. *)
Lemma replaceAll_filter (keep : char -> bool) :
  (forall m rest, Matches r m rest -> filter keep (rep m) = filter keep m) ->
  forall s, filter keep (replaceAll r rep s) = filter keep s.
Proof.
  intros Hrep.
  apply (replaceAll_ind
           (fun s out => filter keep out = filter keep s)).
  - destruct (matchHere r []) eqn:Hm; [|reflexivity].
    apply matchHere_sound in Hm. simpl in Hm.
    rewrite firstn_nil, skipn_nil in Hm. apply (Hrep [] []). apply Hm.
  - intros c s _ IH. simpl. rewrite IH. reflexivity.
  - intros c s Hm IH. apply matchHere_sound in Hm. simpl in Hm.
    rewrite filter_app, (Hrep [] (c :: s)) by apply Hm.
    simpl. rewrite IH. reflexivity.
  - intros c m rest HM _ IH.
    change (c :: m ++ rest) with ((c :: m) ++ rest).
    rewrite !filter_app, IH, (Hrep _ _ HM). reflexivity.
Qed.
End ReplaceAll.

(** ** What the patterns of the source match *)

Lemma Matches_single (p : char -> bool) (m rest : jsstring) :
  Matches [One p] m rest -> exists c, m = [c] /\ p c = true.
Proof.
  intros H. invert_matches. eexists. split; [reflexivity|assumption].
Qed.

Lemma matchHere_not_zero (p : char -> bool) (r : regex) (c : char) (s : jsstring) :
  matchHere (One p :: r) (c :: s) <> Some 0.
Proof.
  simpl. destruct (p c); [|discriminate].
  destruct (matchHere r s); discriminate.
Qed.

Lemma Matches_spaces (m rest : jsstring) :
  Matches [plus isSpace] m rest ->
  Forall (fun c => isSpace c = true) m /\ m <> [].
Proof.
  intros H. invert_matches. rewrite app_nil_r.
  split; [assumption|]. destruct w; simpl in *; [lia|discriminate].
Qed.

Lemma Matches_contraction (m rest : jsstring) :
  Matches [One isAlpha; One (isChar 39); One isAlpha] m rest ->
  exists a b, m = [a; 39%N; b].
Proof.
  intros H. invert_matches.
  match goal with H : isChar 39 ?c = true |- _ =>
    apply N.eqb_eq in H; subst end.
  eexists _, _. reflexivity.
Qed.

Lemma Matches_space_punct (m rest : jsstring) :
  Matches [plus isSpace; One isPunct] m rest ->
  exists w c, m = w ++ [c] /\ Forall (fun c => isSpace c = true) w
              /\ isPunct c = true.
Proof.
  intros H. invert_matches. eexists _, _. repeat split; eassumption.
Qed.

Lemma Matches_punct_space (m rest : jsstring) :
  Matches [One isPunct; star isSpace] m rest ->
  exists c w, m = c :: w /\ isPunct c = true
              /\ Forall (fun c => isSpace c = true) w.
Proof.
  intros H. invert_matches. rewrite app_nil_r.
  eexists _, _. repeat split; eassumption.
Qed.

Lemma butLast_lastChar (m : jsstring) : butLast m ++ lastChar m = m.
Proof. unfold butLast, lastChar. apply firstn_skipn. Qed.

Lemma lastChar_snoc (w : jsstring) (c : char) : lastChar (w ++ [c]) = [c].
Proof.
  unfold lastChar. rewrite length_app. simpl.
  replace (length w + 1 - 1) with (length w + 0) by lia.
  rewrite skipn_app, Nat.add_0_r, skipn_all.
  replace (length w - length w) with 0 by lia. reflexivity.
Qed.

(** ** White space and visible characters *)

Lemma visible_spaces (w : jsstring) :
  Forall (fun c => isSpace c = true) w -> visible w = [].
Proof.
  induction 1 as [|c w Hc _ IH]; [reflexivity|].
  unfold visible, notSpace in *. simpl. rewrite Hc. simpl. exact IH.
Qed.

Lemma visible_app (a b : jsstring) : visible (a ++ b) = visible a ++ visible b.
Proof. apply filter_app. Qed.

Lemma visible_dropWhile (s : jsstring) : visible (dropWhile isSpace s) = visible s.
Proof.
  induction s as [|c s IH]; simpl; [reflexivity|].
  destruct (isSpace c) eqn:Hc; [|reflexivity].
  rewrite IH. unfold visible, notSpace. simpl. rewrite Hc. reflexivity.
Qed.

Lemma visible_trim (s : jsstring) : visible (trim s) = visible s.
Proof.
  unfold trim, trimEnd, trimStart, visible.
  rewrite filter_rev. fold (visible (dropWhile isSpace (rev (dropWhile isSpace s)))).
  rewrite visible_dropWhile. unfold visible. rewrite filter_rev, rev_involutive.
  apply visible_dropWhile.
Qed.

Lemma trim_nil_visible (s : jsstring) : trim s = [] <-> visible s = [].
Proof.
  split.
  - intros H. rewrite <- visible_trim, H. reflexivity.
  - intros H. unfold trim, trimEnd, trimStart.
    assert (Hd : dropWhile isSpace s = []).
    { induction s as [|c s IH]; simpl; [reflexivity|].
      unfold visible, notSpace in H. simpl in H.
      destruct (isSpace c); simpl in H; [apply IH; exact H|discriminate]. }
    rewrite Hd. reflexivity.
Qed.

Lemma dropWhile_Forall (P : char -> Prop) (p : char -> bool) (s : jsstring) :
  Forall P s -> Forall P (dropWhile p s).
Proof.
  induction 1 as [|c s Hc Hs IH]; simpl; [constructor|].
  destruct (p c); [exact IH|constructor; assumption].
Qed.

Lemma trim_Forall (P : char -> Prop) (s : jsstring) :
  Forall P s -> Forall P (trim s).
Proof.
  intros H. unfold trim, trimEnd, trimStart.
  apply Forall_rev, dropWhile_Forall, Forall_rev, dropWhile_Forall. exact H.
Qed.

(** ** The sentence cleaner changes white space only *)

Lemma alpha_notSpace (c : char) : isAlpha c = true -> isSpace c = false.
Proof. intros H. char_arith. Qed.

Lemma punct_notSpace (c : char) : isPunct c = true -> isSpace c = false.
Proof. intros H. char_arith. Qed.

Lemma space_32 : isSpace 32 = true.
Proof. reflexivity. Qed.

Lemma cleanSentence_visible (s : jsstring) :
  visible (cleanSentence s) = visible (capitalize s).
Proof.
  unfold cleanSentence. fold (capitalize s).
  rewrite visible_trim. unfold visible.
  rewrite replaceAll_filter.
  2:{ intros m rest H. apply Matches_punct_space in H.
      destruct H as (c & w & -> & _ & Hw). simpl firstChar.
      fold (visible ([c] ++ str " ")). fold (visible (c :: w)).
      change (c :: w) with ([c] ++ w). rewrite !visible_app.
      rewrite (visible_spaces Hw). reflexivity. }
  rewrite replaceAll_filter.
  2:{ intros m rest H. apply Matches_space_punct in H.
      destruct H as (w & c & -> & Hw & _). rewrite lastChar_snoc.
      fold (visible [c]). fold (visible (w ++ [c])).
      rewrite visible_app, (visible_spaces Hw). reflexivity. }
  rewrite replaceAll_id.
  2:{ intros m rest _. apply butLast_lastChar. }
  rewrite replaceAll_id.
  2:{ intros m rest H. apply Matches_contraction in H.
      destruct H as (a & b & ->). reflexivity. }
  rewrite replaceAll_filter; [reflexivity|].
  intros m rest H. apply Matches_spaces in H. destruct H as [Hm _].
  fold (visible m). rewrite (visible_spaces Hm). reflexivity.
Qed.

Lemma unmatched_space (c : char) (s : jsstring) :
  matchHere [plus isSpace] (c :: s) = None -> isSpace c = false.
Proof.
  intros H. destruct (isSpace c) eqn:Hc; [|reflexivity]. exfalso.
  apply (@matchHere_none _ [c] s H).
  unfold plus. rewrite <- (app_nil_r [c]).
  constructor; [repeat constructor; exact Hc|simpl; lia|exact I|constructor].
Qed.

(** After line 249 the only white space in a sentence is the plain space. *)
Lemma collapse_plainSpaced (s : jsstring) :
  Forall plainSpaced (replaceAll [plus isSpace] (always (str " ")) s).
Proof.
  apply (@replaceAll_Forall _ _ (fun _ => True) plainSpaced).
  - intros c s' _ H. apply unmatched_space in H.
    unfold plainSpaced. congruence.
  - intros c s' _ H. apply matchHere_sound in H. destruct H as [H _].
    apply Matches_spaces in H. simpl in H. tauto.
  - intros m rest _ _. repeat constructor.
  - intros n _. repeat constructor.
  - apply Forall_forall. auto.
Qed.

Lemma cleanSentence_plainSpaced (s : jsstring) :
  Forall plainSpaced (cleanSentence s).
Proof.
  unfold cleanSentence. apply trim_Forall.
  apply (@replaceAll_Forall _ _ plainSpaced plainSpaced).
  - intros c s' H _. exact H.
  - intros c s' H _. exact H.
  - intros m rest H Hm. apply Matches_punct_space in H.
    destruct H as (c & w & -> & _ & _). inversion Hm; subst.
    simpl. repeat constructor; assumption.
  - intros n _. repeat constructor.
  - apply (@replaceAll_Forall _ _ plainSpaced plainSpaced).
    + intros c s' H _. exact H.
    + intros c s' H _. exact H.
    + intros m rest H Hm. apply Matches_space_punct in H.
      destruct H as (w & c & -> & _ & _). rewrite lastChar_snoc.
      apply Forall_app in Hm. tauto.
    + intros n _. constructor.
    + rewrite replaceAll_id.
      2:{ intros m rest _. apply butLast_lastChar. }
      rewrite replaceAll_id.
      2:{ intros m rest H. apply Matches_contraction in H.
          destruct H as (a & b & ->). reflexivity. }
      apply collapse_plainSpaced.
Qed.

Lemma letter_or_none (s : jsstring) :
  Forall (fun c => negb (isAlpha c) = true) s \/
  exists c, In c s /\ isAlpha c = true.
Proof.
  induction s as [|c s [IH|(d & Hd & Ha)]].
  - left. constructor.
  - destruct (isAlpha c) eqn:Hc.
    + right. exists c. split; [left; reflexivity|exact Hc].
    + left. constructor; [rewrite Hc; reflexivity|exact IH].
  - right. exists d. split; [right; exact Hd|exact Ha].
Qed.

Lemma keepSentence_letter (s : jsstring) :
  keepSentence s = true -> exists c, In c s /\ isAlpha c = true.
Proof.
  unfold keepSentence, testStart.
  destruct (length s <? 5)%nat; [discriminate|].
  destruct (matchHere [Rep isUpperOrSpace 1 (Some 5); Eos] s); [discriminate|].
  destruct (matchHere [star (fun c => negb (isAlpha c)); Eos] s) eqn:Hm;
    [discriminate|].
  intros _. destruct (letter_or_none s) as [Hall|Hex]; [|exact Hex].
  exfalso. rewrite <- (app_nil_r s) in Hm.
  apply (matchHere_none Hm).
  unfold star. rewrite <- (app_nil_r s) at 1.
  constructor; [exact Hall|lia|exact I|]. constructor. constructor.
Qed.

Lemma letter_visible (s : jsstring) :
  (exists c, In c s /\ isAlpha c = true) -> visible s <> [].
Proof.
  intros (c & Hin & Ha) Hv.
  assert (H : In c (visible s)).
  { apply filter_In. split; [exact Hin|].
    unfold notSpace. rewrite (alpha_notSpace _ Ha). reflexivity. }
  rewrite Hv in H. exact H.
Qed.

Lemma capitalize_cases (s : jsstring) :
  capitalize s = s \/
  exists c s', s = c :: s' /\ isLower c = true
               /\ capitalize s = toUpperCase c :: s'.
Proof.
  unfold capitalize, replaceStart. destruct s as [|c s]; simpl; [left; reflexivity|].
  destruct (isLower c) eqn:Hc; simpl; [|left; reflexivity].
  right. exists c, s. repeat split. exact Hc.
Qed.

Lemma upper_of_lower (c : char) :
  isLower c = true -> isUpper (toUpperCase c) = true.
Proof.
  intros H. unfold toUpperCase. rewrite H.
  unfold isLower, isUpper, inRange in *.
  rewrite andb_true_iff, !N.leb_le in *. lia.
Qed.

Lemma capitalize_letter (s : jsstring) :
  (exists c, In c s /\ isAlpha c = true) ->
  exists c, In c (capitalize s) /\ isAlpha c = true.
Proof.
  intros H. destruct (capitalize_cases s) as [->|(c & s' & -> & Hc & ->)];
    [exact H|].
  exists (toUpperCase c). split; [left; reflexivity|].
  unfold isAlpha. rewrite (upper_of_lower _ Hc). apply orb_true_r.
Qed.

(** No sentence that the segmenter hands to the composer is blank. *)
Lemma processedSentences_nonBlank (cleaned : jsstring) :
  Forall nonBlank (processedSentences cleaned).
Proof.
  unfold processedSentences. apply Forall_forall. intros s Hs.
  apply in_map_iff in Hs. destruct Hs as (s0 & <- & Hs0).
  apply filter_In in Hs0. destruct Hs0 as [_ Hkeep].
  unfold nonBlank. rewrite trim_nil_visible, cleanSentence_visible.
  apply letter_visible, capitalize_letter, keepSentence_letter. exact Hkeep.
Qed.

(** ** C1: the word filter *)

Lemma keepBlock_confidence (b : TextBlock) :
  keepBlock b = true -> (confidence b <? 0.6)%float = false.
Proof.
  unfold keepBlock.
  destruct (length (trim (text b)) <? 3)%nat; [discriminate|].
  destruct (testStart [Rep isUpperOrSpace 1 (Some 5); Eos] (trim (text b)));
    [discriminate|].
  destruct (confidence b <? 0.6)%float; [discriminate|reflexivity].
Qed.

(** C1. Every word that the word filter lets through has a confidence that
    is not below 0.6; in particular no such word has confidence 0.55,
    whatever its text, its bounding box and its place in the input. *)
Theorem C1_filter_drops_low_confidence :
  forall (blocks : list TextBlock) (b : TextBlock),
    In b (filteredBlocks blocks) ->
    (confidence b <? 0.6)%float = false /\ confidence b <> 0.55%float.
Proof.
  intros blocks b Hin.
  apply filter_In in Hin. destruct Hin as [_ Hkeep].
  apply keepBlock_confidence in Hkeep.
  split; [exact Hkeep|].
  intros Heq. rewrite Heq in Hkeep. vm_compute in Hkeep. discriminate.
Qed.

Lemma C1_filter_drops_low_confidence_witness :
  In (word "quick" 0.92 100 0) (filteredBlocks scenario1) /\
  ((confidence (word "quick" 0.92 100 0) <? 0.6)%float = false /\
   confidence (word "quick" 0.92 100 0) <> 0.55%float).
Proof.
  assert (H : In (word "quick" 0.92 100 0) (filteredBlocks scenario1)).
  { vm_compute. right. left. reflexivity. }
  split; [exact H|].
  exact (C1_filter_drops_low_confidence scenario1 (word "quick" 0.92 100 0) H).
Defined.

(** ** C2: the spatial sort *)

Section SortBy.
Variable A : Type.
Variable cmp : A -> A -> Z.

Lemma insertRev_perm (x : A) (racc : list A) :
  Permutation (x :: racc) (insertRev cmp x racc).
Proof.
  induction racc as [|e r IH]; simpl.
  - apply Permutation_refl.
  - destruct (0 <? cmp e x)%Z.
    + eapply Permutation_trans; [apply perm_swap|].
      apply perm_skip. exact IH.
    + apply Permutation_refl.
Qed.

Lemma fold_insertRev_perm (l racc : list A) :
  Permutation (rev l ++ racc)
    (fold_left (fun racc x => insertRev cmp x racc) l racc).
Proof.
  revert racc. induction l as [|x l IH]; intros racc; simpl.
  - apply Permutation_refl.
  - eapply Permutation_trans; [|apply IH].
    rewrite <- app_assoc. simpl.
    apply Permutation_app_head. apply insertRev_perm.
Qed.

Lemma sortBy_perm (l : list A) : Permutation l (sortBy cmp l).
Proof.
  unfold sortBy.
  eapply Permutation_trans; [|apply Permutation_rev].
  eapply Permutation_trans; [apply Permutation_rev|].
  rewrite <- (app_nil_r (rev l)) at 1.
  apply fold_insertRev_perm.
Qed.

(** Stability: elements that never compare greater than one another are
    never moved past one another. *)
Section Stable.
Variable P : A -> bool.
Hypothesis P_tied : forall e x, P e = true -> P x = true -> (cmp e x <= 0)%Z.



End Stable.

(** Sortedness, for a comparator that is total and, on the elements of
    the input, transitive. *)
Section Sorted.
Variable dom : A -> Prop.
Hypothesis cmp_total : forall a b, (0 < cmp a b)%Z -> (cmp b a <= 0)%Z.
Hypothesis cmp_trans : forall a b c, dom a -> dom b -> dom c ->
  (cmp a b <= 0)%Z -> (cmp b c <= 0)%Z -> (cmp a c <= 0)%Z.






End Sorted.
End SortBy.






(** On a skewed line of three words the modelled sort leaves the first
    word before the third although it is 16 pixels lower. *)
Lemma skewedLine_stays_out_of_order :
  ~ sortInvariant (filteredBlocks skewedLine) (processedBlocks skewedLine).
Proof.
  intros [Hro _].
  destruct (Hro (word "alpha" 0.93 0 20) (word "gamma" 0.93 100 4)) as [H _].
  - exists [], [word "beta" 0.93 50 12], []. vm_compute. reflexivity.
  - simpl in H. lia.
Qed.






(** ** C3, C10: the paragraph composer *)

Lemma nonBlank_truthy (s : jsstring) : nonBlank s <-> truthy (trim s) = true.
Proof.
  unfold nonBlank. destruct (trim s); simpl; split; congruence.
Qed.

Lemma testStart_quote (s : jsstring) :
  testStart [One isQuoteStart] s = true <-> beginsWithQuote s.
Proof.
  unfold testStart, beginsWithQuote. destruct s as [|c s]; simpl.
  - split; [discriminate|]. intros [rest [H|H]]; discriminate.
  - unfold isQuoteStart, oneOf. simpl.
    destruct (N.eqb_spec c 34) as [->|H34]; simpl.
    + split; [|reflexivity]. intros _. exists s. left. reflexivity.
    + destruct (N.eqb_spec c 39) as [->|H39]; simpl.
      * split; [|reflexivity]. intros _. exists s. right. reflexivity.
      * split; [discriminate|]. intros [rest [H|H]]; congruence.
Qed.

Lemma test_colon (s : jsstring) :
  test [One (isChar 58); star isSpace; Eos] s = true <-> endsWithColon s.
Proof.
  rewrite test_true. unfold endsWithColon. split.
  - intros (b & m & rest & -> & Hm).
    inversion Hm as [|p r c m1 rest1 Hc Hm1| |]; subst.
    apply N.eqb_eq in Hc. subst c.
    inversion Hm1 as [| |p lo hi r w m2 rest2 Hw _ _ Hm2|]; subst.
    inversion Hm2 as [| | |r Hm3]; subst.
    exists b, w. rewrite !app_nil_r. split; [reflexivity|exact Hw].
  - intros (b & ws & -> & Hws).
    exists b, (58%N :: ws), []. split; [rewrite app_nil_r; reflexivity|].
    constructor; [reflexivity|].
    rewrite <- (app_nil_r ws).
    constructor; [exact Hws|simpl; lia|exact I|].
    constructor. constructor.
Qed.

Lemma mustFlush_decide (acc : list jsstring) (s : jsstring) :
  shouldStartNewParagraph acc s && (0 <? length acc)%nat = true
  <-> mustFlush acc s.
Proof.
  unfold shouldStartNewParagraph, mustFlush.
  rewrite andb_true_iff, !orb_true_iff.
  rewrite testStart_quote, test_colon, Nat.leb_le, !Nat.ltb_lt.
  destruct acc; simpl; split; intros [H1 H2]; try lia; try congruence.
  - split; [discriminate|tauto].
  - split; [tauto|lia].
Qed.

Lemma composeStep_nonBlank (total index : nat) (st : composer) (s : jsstring) :
  nonBlank s ->
  (mustFlush (currentParagraph st) s ->
   composeStep total st index s =
   finishAt total index
     (mkComposer (paragraphs st ++ [join (str " ") (currentParagraph st)]) [s]))
  /\
  (~ mustFlush (currentParagraph st) s ->
   composeStep total st index s =
   finishAt total index
     (mkComposer (paragraphs st) (currentParagraph st ++ [s]))).
Proof.
  intros Hs. apply nonBlank_truthy in Hs.
  unfold composeStep, finishAt. rewrite Hs. simpl.
  destruct (shouldStartNewParagraph (currentParagraph st) s
            && (0 <? length (currentParagraph st))%nat) eqn:Hf.
  - apply mustFlush_decide in Hf. split; [|tauto]. intros _. simpl.
    rewrite andb_true_r. reflexivity.
  - split.
    + intros H. apply mustFlush_decide in H. congruence.
    + intros _. simpl. rewrite length_app. simpl.
      replace (0 <? length (currentParagraph st) + 1)%nat with true
        by (symmetry; apply Nat.ltb_lt; lia).
      rewrite andb_true_r. destruct st; reflexivity.
Qed.

Lemma mustFlush_dec (acc : list jsstring) (s : jsstring) :
  mustFlush acc s \/ ~ mustFlush acc s.
Proof.
  destruct (shouldStartNewParagraph acc s && (0 <? length acc)%nat) eqn:Hf.
  - left. apply mustFlush_decide. exact Hf.
  - right. intros H. apply mustFlush_decide in H. congruence.
Qed.

(** The loop, started anywhere in a sequence of sentences none of which is
    blank, adds the paragraphs that the rule prescribes. *)
Lemma forEach_composes (rest : list jsstring) :
  forall s acc ps index total,
    Forall nonBlank (s :: rest) ->
    index + length (s :: rest) = total ->
    exists out,
      paragraphs (forEach_from (composeStep total) index (s :: rest)
                    (mkComposer ps acc)) = ps ++ out
      /\ composes acc (s :: rest) out.
Proof.
  induction rest as [|s' rest IH]; intros s acc ps index total Hnb Hlen.
  - inversion Hnb as [|? ? Hs _]; subst. simpl.
    destruct (composeStep_nonBlank (index + 1) index (mkComposer ps acc) Hs)
      as [Hyes Hno].
    unfold finishAt in Hyes, Hno.
    replace (index =? index + 1 - 1)%nat with true in Hyes, Hno
      by (symmetry; apply Nat.eqb_eq; lia).
    simpl in Hyes, Hno.
    destruct (mustFlush_dec acc s) as [Hf|Hf].
    + rewrite (Hyes Hf). simpl.
      exists [join (str " ") acc; join (str " ") [s]]. split.
      * rewrite <- app_assoc. reflexivity.
      * apply composes_flush; [exact Hf|].
        apply composes_final. discriminate.
    + rewrite (Hno Hf). simpl.
      exists [join (str " ") (acc ++ [s])]. split; [reflexivity|].
      apply composes_append; [exact Hf|].
      apply composes_final. destruct acc; discriminate.
  - inversion Hnb as [|? ? Hs Hnb']; subst.
    remember (s' :: rest) as tl eqn:Htl.
    simpl.
    destruct (composeStep_nonBlank (index + length (s :: tl)) index
                (mkComposer ps acc) Hs) as [Hyes Hno].
    unfold finishAt in Hyes, Hno.
    replace (index =? index + length (s :: tl) - 1)%nat with false in Hyes, Hno
      by (symmetry; apply Nat.eqb_neq; subst tl; simpl; lia).
    simpl in Hyes, Hno.
    destruct (mustFlush_dec acc s) as [Hf|Hf].
    + rewrite (Hyes Hf). subst tl.
      destruct (IH s' [s] (ps ++ [join (str " ") acc]) (S index)
                  (index + length (s :: s' :: rest)) Hnb')
        as (out & Hout & Hc); [simpl; lia|].
      exists (join (str " ") acc :: out). split.
      * etransitivity; [exact Hout|]. rewrite <- app_assoc. reflexivity.
      * apply composes_flush; assumption.
    + rewrite (Hno Hf). subst tl.
      destruct (IH s' (acc ++ [s]) ps (S index)
                  (index + length (s :: s' :: rest)) Hnb')
        as (out & Hout & Hc); [simpl; lia|].
      exists out. split; [exact Hout|].
      apply composes_append; assumption.
Qed.

Lemma composes_functional (acc ss out1 out2 : list jsstring) :
  composes acc ss out1 -> composes acc ss out2 -> out1 = out2.
Proof.
  intros H1. revert out2.
  induction H1 as [|acc Hacc|acc s ss out Hf _ IH|acc s ss out Hf _ IH];
    intros out2 H2; inversion H2; subst; try reflexivity; try congruence;
    try contradiction.
  - f_equal. apply IH. assumption.
  - apply IH. assumption.
Qed.

Lemma composeParagraphs_composes (ss : list jsstring) :
  Forall nonBlank ss -> composes [] ss (composeParagraphs ss).
Proof.
  intros Hnb. unfold composeParagraphs. destruct ss as [|s rest].
  - simpl. constructor.
  - destruct (@forEach_composes rest s [] [] 0 (length (s :: rest)) Hnb eq_refl)
      as (out & Hout & Hc).
    rewrite Hout. exact Hc.
Qed.

Lemma not_mustFlush_short (acc : list jsstring) (s : jsstring) :
  ~ mustFlush acc s -> length acc < 3.
Proof.
  intros H. destruct (Nat.lt_ge_cases (length acc) 3) as [Hlt|Hge]; [exact Hlt|].
  exfalso. apply H. split; [destruct acc; simpl in *; [lia|discriminate]|].
  left. exact Hge.
Qed.

(** The loop, started anywhere with at most three sentences accumulated,
    adds paragraphs that are joins of one to three sentences each, taken
    in order from the accumulator and the non-blank sentences. *)
Lemma forEach_groups (rest : list jsstring) :
  forall acc ps index total,
    index + length rest = total ->
    length acc <= 3 ->
    exists groups tail,
      paragraphs (forEach_from (composeStep total) index rest
                    (mkComposer ps acc)) = ps ++ map (join (str " ")) groups
      /\ Forall (fun g => 1 <= length g <= 3) groups
      /\ acc ++ filter isNonBlank rest = concat groups ++ tail
      /\ (Forall nonBlank rest -> rest <> [] -> tail = []).
Proof.
  induction rest as [|s rest IH]; intros acc ps index total Hlen Hacc.
  - exists [], acc. simpl. rewrite !app_nil_r.
    split; [reflexivity|]. split; [constructor|].
    split; [reflexivity|congruence].
  - simpl forEach_from. simpl filter.
    destruct (isNonBlank s) eqn:Hs.
    + assert (Hnb : nonBlank s) by (apply nonBlank_truthy; exact Hs).
      destruct (composeStep_nonBlank total index (mkComposer ps acc) Hnb)
        as [Hyes Hno].
      simpl in Hyes, Hno. unfold finishAt in Hyes, Hno.
      destruct rest as [|s' rest].
      * replace (index =? total - 1)%nat with true in Hyes, Hno
          by (symmetry; apply Nat.eqb_eq; simpl in Hlen; lia).
        simpl in Hyes, Hno |- *.
        destruct (mustFlush_dec acc s) as [Hf|Hf].
        -- rewrite (Hyes Hf). simpl. exists [acc; [s]], [].
           split; [rewrite <- app_assoc; reflexivity|].
           split; [|split; [simpl; rewrite !app_nil_r; reflexivity|reflexivity]].
           destruct Hf as [Hne _].
           constructor; [|constructor; [simpl; lia|constructor]].
           destruct acc; simpl in *; [congruence|lia].
        -- rewrite (Hno Hf). simpl. exists [acc ++ [s]], [].
           apply not_mustFlush_short in Hf.
           split; [reflexivity|].
           split; [|split; [simpl; rewrite !app_nil_r; reflexivity|reflexivity]].
           constructor; [rewrite length_app; simpl; lia|constructor].
      * replace (index =? total - 1)%nat with false in Hyes, Hno
          by (symmetry; apply Nat.eqb_neq; simpl in Hlen; lia).
        destruct (mustFlush_dec acc s) as [Hf|Hf].
        -- rewrite (Hyes Hf).
           destruct (IH [s] (ps ++ [join (str " ") acc]) (S index) total)
             as (groups & tail & Hp & Hg & Hc & Ht);
             [simpl in *; lia|simpl; lia|].
           exists (acc :: groups), tail.
           split; [rewrite Hp, <- app_assoc; reflexivity|].
           split; [|split].
           ++ constructor; [|exact Hg].
              destruct Hf as [Hne _]. destruct acc; simpl in *; [congruence|lia].
           ++ simpl. rewrite <- app_assoc. f_equal. exact Hc.
           ++ intros Hall _. apply Ht; [|discriminate].
              inversion Hall; assumption.
        -- rewrite (Hno Hf). apply not_mustFlush_short in Hf.
           destruct (IH (acc ++ [s]) ps (S index) total)
             as (groups & tail & Hp & Hg & Hc & Ht);
             [simpl in *; lia|rewrite length_app; simpl; lia|].
           exists groups, tail.
           split; [exact Hp|]. split; [exact Hg|]. split.
           ++ rewrite <- Hc, <- app_assoc. reflexivity.
           ++ intros Hall _. apply Ht; [|discriminate].
              inversion Hall; assumption.
    + assert (Hstep : composeStep total (mkComposer ps acc) index s
                      = mkComposer ps acc).
      { unfold composeStep. unfold isNonBlank in Hs. rewrite Hs. reflexivity. }
      rewrite Hstep.
      destruct (IH acc ps (S index) total) as (groups & tail & Hp & Hg & Hc & Ht);
        [simpl in *; lia|exact Hacc|].
      exists groups, tail.
      split; [exact Hp|]. split; [exact Hg|]. split; [exact Hc|].
      intros Hall _. inversion Hall as [|? ? Hnb _]; subst.
      apply nonBlank_truthy in Hnb. unfold isNonBlank in Hs. congruence.
Qed.

Lemma filter_isNonBlank_all (l : list jsstring) :
  Forall nonBlank l -> filter isNonBlank l = l.
Proof.
  induction 1 as [|x l Hx _ IH]; [reflexivity|].
  simpl. apply nonBlank_truthy in Hx. unfold isNonBlank. rewrite Hx.
  f_equal. exact IH.
Qed.

(** C3. On every sentence sequence that the segmenter produces, the
    composer's paragraphs are the ones that the flush rule prescribes
    (flush exactly when the accumulator is not empty and it holds three or
    more sentences, or the sentence begins with a quotation mark, is
    shorter than 30 characters, or ends with a colon and optional white
    space; then append; flush what is left after the last sentence), and
    the rule prescribes no other list. *)
Theorem C3_composer_follows_flush_rule :
  forall cleaned : jsstring,
    composes [] (processedSentences cleaned)
      (composeParagraphs (processedSentences cleaned)) /\
    (forall out, composes [] (processedSentences cleaned) out ->
                 out = composeParagraphs (processedSentences cleaned)).
Proof.
  intros cleaned.
  pose proof (composeParagraphs_composes (processedSentences_nonBlank cleaned))
    as H.
  split; [exact H|].
  intros out Hout. exact (composes_functional Hout H).
Qed.

Lemma composeParagraphs_groups :
  forall ss : list jsstring,
    exists groups tail,
      composeParagraphs ss = map (join (str " ")) groups /\
      Forall (fun g => 1 <= length g <= 3) groups /\
      filter isNonBlank ss = concat groups ++ tail /\
      (Forall nonBlank ss -> concat groups = ss).
Proof.
  intros ss.
  destruct (@forEach_groups ss [] [] 0 (length ss) eq_refl)
    as (groups & tail & Hp & Hg & Hc & Ht); [simpl; lia|].
  exists groups, tail.
  split; [exact Hp|]. split; [exact Hg|]. split; [exact Hc|].
  intros Hall. destruct ss as [|s ss].
  - simpl in Hc. destruct groups as [|g groups]; [reflexivity|].
    inversion Hg as [|? ? Hlen _]; subst. destruct g; simpl in *; [lia|discriminate].
  - rewrite (Ht Hall), app_nil_r in Hc by discriminate.
    rewrite <- Hc. exact (filter_isNonBlank_all Hall).
Qed.

(** C10. The paragraphs of the composer are the space-joins of groups of
    one to three sentences each; the groups, in order, are a prefix of the
    non-blank sentences, and all of them when no sentence is blank. *)
Theorem C10_paragraphs_join_at_most_three :
  forall ss : list jsstring,
    exists groups tail,
      composeParagraphs ss = map (join (str " ")) groups /\
      Forall (fun g => 1 <= length g <= 3) groups /\
      filter isNonBlank ss = concat groups ++ tail /\
      (Forall nonBlank ss -> concat groups = ss).
Proof. exact composeParagraphs_groups. Qed.

Lemma C10_paragraphs_join_at_most_three_witness :
  exists groups,
    composeParagraphs (processedSentences scenario2)
    = map (join (str " ")) groups /\
    Forall (fun g => 1 <= length g <= 3) groups /\
    concat groups = processedSentences scenario2.
Proof.
  destruct (C10_paragraphs_join_at_most_three (processedSentences scenario2))
    as (groups & tail & Hp & Hg & _ & Hall).
  exists groups. split; [exact Hp|]. split; [exact Hg|].
  apply Hall. vm_compute. repeat constructor; discriminate.
Defined.

Lemma C3_composer_follows_flush_rule_witness :
  composes [] (processedSentences scenario2)
    [str "Hello world this is great."; str "And it works well."] /\
  [str "Hello world this is great."; str "And it works well."]
  = composeParagraphs (processedSentences scenario2).
Proof.
  assert (H : composes [] (processedSentences scenario2)
                [str "Hello world this is great."; str "And it works well."]).
  { exact (proj1 (C3_composer_follows_flush_rule scenario2)). }
  split; [exact H|].
  exact (proj2 (C3_composer_follows_flush_rule scenario2) _ H).
Defined.

(** ** C4: the final document *)

Lemma join_Forall (P : char -> Prop) (sep : jsstring) (l : list jsstring) :
  Forall P sep -> Forall (Forall P) l -> Forall P (join sep l).
Proof.
  intros Hsep Hl. induction Hl as [|x l Hx Hl IH]; [constructor|].
  destruct l as [|y l]; [exact Hx|].
  change (join sep (x :: y :: l)) with (x ++ sep ++ join sep (y :: l)).
  apply Forall_app. split; [exact Hx|].
  apply Forall_app. split; [exact Hsep|exact IH].
Qed.

Lemma in_concat_prefix (A : Type) (groups : list (list A)) (tail l : list A)
  (keep : A -> bool) (g : list A) (x : A) :
  filter keep l = concat groups ++ tail -> In g groups -> In x g -> In x l.
Proof.
  intros Heq Hg Hx.
  assert (H : In x (filter keep l)).
  { rewrite Heq. apply in_or_app. left. apply in_concat. exists g. tauto. }
  apply filter_In in H. tauto.
Qed.

(** Every paragraph of the composer is made of characters of its
    sentences and of plain spaces. *)
Lemma composeParagraphs_Forall (P : char -> Prop) (ss : list jsstring) :
  P 32%N -> Forall (Forall P) ss -> Forall (Forall P) (composeParagraphs ss).
Proof.
  intros H32 Hss.
  destruct (composeParagraphs_groups ss) as (groups & tail & -> & _ & Hc & _).
  apply Forall_forall. intros p Hp.
  apply in_map_iff in Hp. destruct Hp as (g & <- & Hg).
  apply join_Forall; [repeat constructor; exact H32|].
  apply Forall_forall. intros x Hx.
  rewrite Forall_forall in Hss. apply Hss.
  eapply in_concat_prefix; eassumption.
Qed.



(** ** C5: scenario 2 *)

(** C5 as the specification states it fails: the segmenter does not
    produce three sentences on scenario 2, and the document does not have
    three paragraphs. *)
Lemma C5_three_sentences_refuted :
  processedSentences scenario2 <>
    [str "Hello world this is great."; str "And it works well."; str "Ok."] /\
  cleanTextLocally scenario2 <>
    str "Hello world this is great." ++ blankLine ++
    str "And it works well." ++ blankLine ++ str "Ok.".
Proof.
  split; vm_compute; discriminate.
Qed.

(** C5 (amended). Scenario 2 is a fixed point of the normaliser; it splits
    into three candidate sentences; the third, [ok.], has trimmed length 3
    and is discarded by the length filter; the two survivors are
    capitalised, each is shorter than 30 characters, and the document is
    the two of them separated by one blank line. *)
Theorem C5_scenario2_two_paragraphs :
  cleaned scenario2 = scenario2 /\
  map trim (sentences scenario2) =
    [str "hello world this is great."; str "and it works well."; str "ok."] /\
  keepSentence (str "ok.") = false /\
  processedSentences scenario2 =
    [str "Hello world this is great."; str "And it works well."] /\
  Forall (fun s => length s < 30) (processedSentences scenario2) /\
  cleanTextLocally scenario2 =
    str "Hello world this is great." ++ blankLine ++ str "And it works well.".
Proof.
  repeat split; try (vm_compute; reflexivity).
  vm_compute. repeat constructor.
Qed.

(** ** C6: curly quotes *)

Lemma replaceStart_Forall (P : char -> Prop) (r : regex) (s : jsstring) :
  Forall P s -> Forall P (replaceStart r (always []) s).
Proof.
  intros H. unfold replaceStart, always.
  destruct (matchHere r s) as [n|]; [|exact H].
  simpl. rewrite <- (firstn_skipn n s) in H.
  apply Forall_app in H. tauto.
Qed.

Lemma removeAll_Forall (P : char -> Prop) (r : regex) (s : jsstring) :
  Forall P s -> Forall P (replaceAll r (always []) s).
Proof.
  apply (@replaceAll_Forall r (always []) P P).
  - intros c s' H _. exact H.
  - intros c s' H _. exact H.
  - intros m rest _ _. constructor.
  - intros n _. constructor.
Qed.

(** Where a straight quote (34) or apostrophe (39) does not occur in the
    input, the normaliser does not produce it, whatever else the input
    holds. *)
Lemma cleaned_makes_no_quote (k : char) (text : jsstring) :
  k = 34%N \/ k = 39%N -> ~ In k text -> ~ In k (cleaned text).
Proof.
  intros Hk Hin.
  assert (H0 : Forall (fun c => c <> k) text).
  { apply Forall_forall. intros c Hc ->. exact (Hin Hc). }
  set (Q := fun c : char => isAllowed c = true /\ c <> k).
  assert (HQ : forall c, In c [32; 40; 41]%N -> Q c).
  { intros c Hc. simpl in Hc. unfold Q.
    destruct Hk as [-> | ->];
      repeat (destruct Hc as [<-|Hc]; [split; [reflexivity|discriminate]|]);
      contradiction. }
  assert (Haround : forall j rep s,
             Forall Q rep -> Forall Q s ->
             Forall Q (replaceAll [star isSpace; One (isChar j); star isSpace]
                         (always rep) s)).
  { intros j rep s Hrep.
    apply (@replaceAll_Forall _ (always rep) Q Q).
    - intros c s' H _. exact H.
    - intros c s' H _. exact H.
    - intros m rest _ _. exact Hrep.
    - intros n Hn. discriminate Hn. }
  assert (Hfinal : Forall Q (cleaned text)).
  { unfold cleaned. apply trim_Forall.
    apply (@replaceAll_Forall [One isApostrophe] (always (str "'")) Q Q).
    { intros c s' H _. exact H. }
    { intros c s' H _. exact H. }
    { intros m rest Hm HQm. apply Matches_single in Hm.
      destruct Hm as (c & -> & Hc). inversion HQm as [|? ? [_ Hne] _]; subst.
      unfold isApostrophe, oneOf in Hc. simpl in Hc.
      rewrite !orb_true_iff, !N.eqb_eq in Hc.
      assert (c = 39%N) by (destruct Hc as [Hc|[Hc|Hc]]; [exact Hc|exact Hc|discriminate Hc]).
      subst c. constructor; [|constructor].
      destruct Hk as [-> | ->]; [split; [reflexivity|discriminate]|].
      exfalso. apply Hne. reflexivity. }
    { intros n Hn. discriminate Hn. }
    apply (@replaceAll_Forall [One isQuoteOrBar] (always [34%N]) Q Q).
    { intros c s' H _. exact H. }
    { intros c s' H _. exact H. }
    { intros m rest Hm HQm. apply Matches_single in Hm.
      destruct Hm as (c & -> & Hc). inversion HQm as [|? ? [Hal Hne] _]; subst.
      unfold isQuoteOrBar, oneOf in Hc. simpl in Hc.
      rewrite !orb_true_iff, !N.eqb_eq in Hc.
      assert (c = 34%N).
      { destruct Hc as [Hc|[Hc|[Hc|Hc]]]; try exact Hc; try discriminate.
        subst c. discriminate Hal. }
      subst c. constructor; [|constructor]. split; [reflexivity|exact Hne]. }
    { intros n Hn. discriminate Hn. }
    apply Haround; [repeat constructor; apply HQ; simpl; tauto|].
    apply Haround; [repeat constructor; apply HQ; simpl; tauto|].
    apply Haround; [repeat constructor; apply HQ; simpl; tauto|].
    apply Haround; [repeat constructor; apply HQ; simpl; tauto|].
    apply (@replaceAll_Forall [One (fun c => negb (isAllowed c))]
             (always (str " ")) (fun c => c <> k) Q).
    { intros c s' Hc Hm. simpl in Hm.
      destruct (isAllowed c) eqn:Hal; simpl in Hm.
      - split; [exact Hal|exact Hc].
      - destruct (matchHere [] s'); discriminate. }
    { intros c s' _ Hm. exfalso. exact (matchHere_not_zero _ _ _ _ Hm). }
    { intros m rest _ _. repeat constructor. apply HQ. simpl. tauto. }
    { intros n Hn. discriminate Hn. }
    apply removeAll_Forall. apply removeAll_Forall.
    apply replaceStart_Forall. exact H0. }
  intros Hc. rewrite Forall_forall in Hfinal.
  destruct (Hfinal k Hc) as [_ Hne]. congruence.
Qed.

(** C6. The normaliser turns no character into a straight quote or
    apostrophe: where the input holds none, the output holds none.  On a
    text with curly quotes and a curly apostrophe it puts a space where
    the specification expects the straight character: line 224 replaces
    the curly characters before lines 229-230 are reached, and the classes
    of lines 229-230 hold ASCII characters only. *)
Theorem C6_curly_quotes_become_spaces :
  (forall text, ~ In 34%N text -> ~ In 34%N (cleaned text)) /\
  (forall text, ~ In 39%N text -> ~ In 39%N (cleaned text)) /\
  cleaned curlyQuoted = str "Hello  it s fine".
Proof.
  split; [|split].
  - intros text. apply cleaned_makes_no_quote. left. reflexivity.
  - intros text. apply cleaned_makes_no_quote. right. reflexivity.
  - vm_compute. reflexivity.
Qed.

(** ** C7: the second pass *)

Unset Implicit Arguments.

(** Where every match, taken with its place in the input, is replaced by
    itself, nothing changes. *)
Lemma replaceAll_id_local (r : regex) (rep : jsstring -> jsstring) (s : jsstring) :
  (forall b m rest, s = b ++ m ++ rest -> Matches r m rest -> rep m = m) ->
  replaceAll r rep s = s.
Proof.
  apply (@replaceAll_ind r rep
           (fun s out =>
              (forall b m rest, s = b ++ m ++ rest -> Matches r m rest ->
                                rep m = m) -> out = s)).
  - intros H. destruct (matchHere r []) as [n|] eqn:Hm; [|reflexivity].
    apply matchHere_sound in Hm. destruct Hm as [Hm _].
    rewrite firstn_nil, skipn_nil in Hm. exact (H [] [] [] eq_refl Hm).
  - intros c s' _ IH H. f_equal. apply IH.
    intros b m rest -> Hm. exact (H (c :: b) m rest eq_refl Hm).
  - intros c s' Hm IH H. apply matchHere_sound in Hm. destruct Hm as [Hm _].
    simpl in Hm. rewrite (H [] [] (c :: s') eq_refl Hm). simpl. f_equal.
    apply IH. intros b m rest -> Hm'. exact (H (c :: b) m rest eq_refl Hm').
  - intros c m rest Hm _ IH H.
    rewrite (H [] (c :: m) rest eq_refl Hm). simpl. f_equal. f_equal.
    apply IH. intros b m' rest' -> Hm'.
    apply (H (c :: m ++ b) m' rest'); [|exact Hm'].
    simpl. rewrite <- app_assoc. reflexivity.
Qed.

Lemma tryDown_first (f : nat -> option nat) (lo n r : nat) :
  lo <= n -> f n = Some r -> tryDown f lo n = Some r.
Proof.
  intros Hlo Hf. destruct n; simpl.
  - replace lo with 0 by lia. simpl. rewrite Hf. reflexivity.
  - destruct (Nat.ltb_spec (S n) lo) as [Hlt|_]; [lia|].
    rewrite Hf. reflexivity.
Qed.

Lemma matchHere_one_star (q p : char -> bool) (c : char) (s : jsstring) :
  matchHere [One q; star p] (c :: s)
  = if q c then Some (S (length (takeWhile p s))) else None.
Proof.
  simpl. destruct (q c); [|reflexivity].
  rewrite (@tryDown_first _ 0 _ (length (takeWhile p s))).
  - reflexivity.
  - lia.
  - simpl. rewrite Nat.add_0_r. reflexivity.
Qed.

Lemma matchHere_plus (p : char -> bool) (s : jsstring) :
  matchHere [plus p] s
  = match takeWhile p s with
    | [] => None
    | w => Some (length w)
    end.
Proof.
  unfold plus. simpl. destruct (takeWhile p s) as [|c w] eqn:Hw; simpl.
  - reflexivity.
  - rewrite Nat.add_0_r. reflexivity.
Qed.

Lemma tight_tail (a : char) (t : jsstring) : tight (a :: t) = true -> tight t = true.
Proof.
  destruct t as [|b t]; [reflexivity|].
  simpl. intros H. apply andb_true_iff in H. tauto.
Qed.

Lemma tight_adjacent (b : jsstring) (x y : char) (t : jsstring) :
  tight (b ++ x :: y :: t) = true -> pairOk x y = true.
Proof.
  induction b as [|a b IH].
  - simpl. intros H. apply andb_true_iff in H. tauto.
  - intros H. apply IH. exact (tight_tail _ _ H).
Qed.

Lemma lastNonSpace_tail (a : char) (t : jsstring) :
  lastNonSpace (a :: t) = true -> lastNonSpace t = true.
Proof. destruct t; [reflexivity|]. simpl. tauto. Qed.

Lemma lastNonSpace_snoc (s : jsstring) :
  lastNonSpace s = true -> s <> [] ->
  exists s' c, s = s' ++ [c] /\ isSpace c = false.
Proof.
  induction s as [|a s IH]; [congruence|]. intros H _.
  destruct s as [|b s].
  - exists [], a. split; [reflexivity|].
    simpl in H. apply negb_true_iff in H. exact H.
  - destruct (IH H) as (s' & c & Heq & Hc); [discriminate|].
    exists (a :: s'), c. rewrite Heq. split; [reflexivity|exact Hc].
Qed.

Lemma dropWhile_first (p : char -> bool) (s : jsstring) :
  (forall c t, s = c :: t -> p c = false) -> dropWhile p s = s.
Proof.
  destruct s as [|c t]; [reflexivity|].
  intros H. simpl. rewrite (H c t eq_refl). reflexivity.
Qed.

Lemma trim_id (s : jsstring) :
  (forall c t, s = c :: t -> isSpace c = false) ->
  lastNonSpace s = true -> trim s = s.
Proof.
  intros Hfirst Hlast. unfold trim, trimStart, trimEnd.
  rewrite (dropWhile_first _ _ Hfirst).
  destruct s as [|c t] eqn:Hs; [reflexivity|]. rewrite <- Hs in *.
  destruct (@lastNonSpace_snoc _ Hlast) as (s' & d & Heq & Hd);
    [rewrite Hs; discriminate|].
  rewrite Heq, rev_app_distr. simpl. rewrite Hd. simpl.
  rewrite rev_involutive. reflexivity.
Qed.

Lemma trim_id_space (s : jsstring) :
  (forall c t, s = c :: t -> isSpace c = false) ->
  lastNonSpace s = true -> s <> [] -> trim (s ++ [32%N]) = s.
Proof.
  intros Hfirst Hlast Hne. unfold trim, trimStart, trimEnd.
  rewrite (@dropWhile_first isSpace (s ++ [32%N])).
  - destruct (@lastNonSpace_snoc _ Hlast Hne) as (s' & d & Heq & Hd).
    rewrite Heq, !rev_app_distr. simpl. rewrite Hd. simpl.
    rewrite rev_involutive. reflexivity.
  - intros c t Heq. destruct s as [|a s]; [congruence|].
    simpl in Heq. injection Heq as <- _. exact (Hfirst a s eq_refl).
Qed.

Lemma endsWith_cons (p : char -> bool) (a : char) (t : jsstring) :
  t <> [] -> endsWith p (a :: t) = endsWith p t.
Proof. destruct t; [congruence|reflexivity]. Qed.

(** Line 253 on a tight sentence: a space is added after a final
    punctuation mark and nothing else changes. *)
Lemma spaceAfterPunct_tight (s : jsstring) :
  tight s = true -> lastNonSpace s = true ->
  replaceAll [One isPunct; star isSpace] (fun m => firstChar m ++ str " ") s
  = s ++ (if endsWith isPunct s then [32%N] else []).
Proof.
  apply (@replaceAll_ind [One isPunct; star isSpace]
           (fun m => firstChar m ++ str " ")
           (fun s out =>
              tight s = true -> lastNonSpace s = true ->
              out = s ++ (if endsWith isPunct s then [32%N] else []))).
  - intros _ _. reflexivity.
  - intros c s' Hm IH Ht Hl.
    rewrite matchHere_one_star in Hm.
    destruct (isPunct c) eqn:Hc; [discriminate|].
    rewrite (IH (tight_tail _ _ Ht) (lastNonSpace_tail _ _ Hl)).
    destruct s' as [|b s']; simpl; [rewrite Hc; reflexivity|reflexivity].
  - intros c s' Hm. rewrite matchHere_one_star in Hm.
    destruct (isPunct c); discriminate.
  - intros c m rest _ Hm IH Ht Hl.
    rewrite matchHere_one_star in Hm.
    destruct (isPunct c) eqn:Hc; [|discriminate].
    injection Hm as Hlen.
    destruct (m ++ rest) as [|b t] eqn:Hmr.
    + apply app_eq_nil in Hmr. destruct Hmr as [-> ->].
      simpl. rewrite Hc. reflexivity.
    + simpl in Ht. apply andb_true_iff in Ht. destruct Ht as [Hp Ht].
      unfold pairOk in Hp. rewrite Hc in Hp.
      apply andb_true_iff in Hp. destruct Hp as [_ Hp].
      apply andb_true_iff in Hp. destruct Hp as [Hb _].
      apply N.eqb_eq in Hb. subst b.
      destruct t as [|y t]; [simpl in Hl; discriminate|].
      assert (Hy : isSpace y = false).
      { simpl in Ht. apply andb_true_iff in Ht. destruct Ht as [Hp _].
        unfold pairOk in Hp. simpl in Hp.
        apply andb_true_iff in Hp. destruct Hp as [Hp _].
        apply andb_true_iff in Hp. destruct Hp as [Hy _].
        apply negb_true_iff in Hy. exact Hy. }
      simpl in Hlen. rewrite Hy in Hlen. simpl in Hlen.
      destruct m as [|x [|? ?]]; simpl in Hlen; try lia.
      simpl in Hmr. injection Hmr as -> ->.
      assert (Ht' : tight (y :: t) = true).
      { apply andb_true_iff in Ht. tauto. }
      assert (Hl' : lastNonSpace (y :: t) = true).
      { apply (lastNonSpace_tail 32%N). exact (lastNonSpace_tail _ _ Hl). }
      rewrite (IH Ht' Hl'). reflexivity.
Qed.

Lemma Matches_space_then (m rest : jsstring) :
  Matches [plus isSpace; One isPunct] m rest ->
  exists x y t, m = x :: y :: t /\ isSpace x = true
                /\ (isSpace y = true \/ isPunct y = true).
Proof.
  intros H. invert_matches.
  match goal with H : Forall _ ?w |- _ => destruct H as [|x w' Hx Hw'] end;
    [simpl in *; lia|].
  destruct Hw' as [|y w'' Hy _]; simpl.
  - eexists _, _, _. split; [reflexivity|]. split; [exact Hx|]. right. assumption.
  - eexists _, _, _. split; [reflexivity|]. split; [exact Hx|]. left. exact Hy.
Qed.

Lemma stableSentence_parts (s : jsstring) :
  stableSentence s = true ->
  keepSentence s = true /\ Forall (fun c => plainChar c = true) s /\
  firstOk s = true /\ lastNonSpace s = true /\ tight s = true.
Proof.
  unfold stableSentence. rewrite !andb_true_iff, forallb_forall, Forall_forall.
  tauto.
Qed.

Lemma firstOk_head (s : jsstring) :
  firstOk s = true ->
  forall c t, s = c :: t ->
    isSpace c = false /\ isLower c = false /\ isLeadingSymbol c = false.
Proof.
  intros H c t ->. simpl in H.
  rewrite !andb_true_iff, !negb_true_iff in H. tauto.
Qed.

Lemma plainChar_space (c : char) :
  plainChar c = true -> isSpace c = true -> c = 32%N.
Proof.
  unfold plainChar. rewrite andb_true_iff, orb_true_iff, negb_true_iff.
  intros [_ [H|H]] Hs; [congruence|]. apply N.eqb_eq. exact H.
Qed.

Lemma pairOk_space (x y : char) :
  pairOk x y = true -> isSpace x = true ->
  isSpace y = false /\ isPunct y = false.
Proof.
  unfold pairOk. intros H Hx. rewrite Hx in H.
  rewrite !andb_true_iff, !negb_true_iff in H. tauto.
Qed.

(** The sentence cleaner does nothing to a stable sentence. *)
Lemma cleanSentence_stable (s : jsstring) :
  stableSentence s = true -> cleanSentence s = s.
Proof.
  intros Hst. apply stableSentence_parts in Hst.
  destruct Hst as (_ & Hplain & Hfirst & Hlast & Htight).
  assert (Hne : s <> []) by (destruct s; [discriminate|discriminate]).
  assert (Hhead : forall c t, s = c :: t -> isSpace c = false).
  { intros c t Hs. apply (firstOk_head s Hfirst c t Hs). }
  unfold cleanSentence.
  assert (Ha : replaceStart [One isLower] (map toUpperCase) s = s).
  { unfold replaceStart. destruct s as [|c t]; [reflexivity|].
    destruct (firstOk_head _ Hfirst c t eq_refl) as (_ & Hl & _).
    simpl. rewrite Hl. reflexivity. }
  rewrite Ha.
  assert (Hb : replaceAll [plus isSpace] (always (str " ")) s = s).
  { apply replaceAll_id_local. intros b m rest Hs Hm.
    apply Matches_spaces in Hm. destruct Hm as [Hall Hmne].
    destruct m as [|x m]; [congruence|].
    inversion Hall as [|? ? Hx Hall']; subst.
    assert (x = 32%N).
    { apply plainChar_space; [|exact Hx].
      rewrite Forall_forall in Hplain. apply Hplain.
      apply in_or_app. right. left. reflexivity. }
    subst x. destruct m as [|y m]; [reflexivity|].
    exfalso. inversion Hall' as [|? ? Hy _]; subst.
    simpl in Htight. apply tight_adjacent in Htight.
    destruct (pairOk_space _ _ Htight eq_refl) as [Hy' _]. congruence. }
  rewrite Hb.
  rewrite (@replaceAll_id [One isAlpha; One (isChar 39); One isAlpha]).
  2:{ intros m rest H. apply Matches_contraction in H.
      destruct H as (a & b & ->). reflexivity. }
  rewrite (@replaceAll_id [plus isWordChar; One isPunct]).
  2:{ intros m rest _. apply butLast_lastChar. }
  assert (He : replaceAll [plus isSpace; One isPunct] (fun m => lastChar m) s = s).
  { apply replaceAll_id_local. intros b m rest Hs Hm. exfalso.
    apply Matches_space_then in Hm.
    destruct Hm as (x & y & t & -> & Hx & Hy). subst s.
    simpl in Htight. apply tight_adjacent in Htight.
    destruct (pairOk_space _ _ Htight Hx) as [Hy1 Hy2].
    destruct Hy; congruence. }
  rewrite He.
  rewrite (spaceAfterPunct_tight _ Htight Hlast).
  destruct (endsWith isPunct s).
  - apply trim_id_space; assumption.
  - rewrite app_nil_r. apply trim_id; assumption.
Qed.

(** *** Splitting a glued document *)

Lemma consHead_prependTo (c : char) (s : jsstring) (l : list jsstring) :
  consHead c (prependTo s l) = prependTo (c :: s) l.
Proof. destruct l; reflexivity. Qed.

Lemma terminator_punct (c : char) : isTerminator c = true -> isPunct c = true.
Proof. intros H. char_arith. Qed.

Lemma pairOk_not_terminator (a b : char) :
  pairOk a b = true -> isTerminator a = false.
Proof.
  unfold pairOk. intros H. apply andb_true_iff in H. destruct H as [_ H].
  destruct (isTerminator a) eqn:Ht; [|reflexivity].
  rewrite (terminator_punct a Ht) in H.
  apply andb_true_iff in H. destruct H as [_ H]. discriminate.
Qed.

Lemma split_from_0 (prev : option char) (c : char) (s : jsstring) :
  split_from prev 0 (c :: s)
  = match (if lookbehind isTerminator prev
           then matchHere [plus isSpace] (c :: s) else None) with
    | Some (S k) => [] :: split_from (Some c) k s
    | _ => consHead c (split_from (Some c) 0 s)
    end.
Proof. reflexivity. Qed.

Lemma split_step_no_break (prev : option char) (c : char) (s : jsstring) :
  noBreakAt prev (c :: s) ->
  split_from prev 0 (c :: s) = consHead c (split_from (Some c) 0 s).
Proof.
  intros H. rewrite split_from_0.
  destruct (lookbehind isTerminator prev) eqn:Hp; [|reflexivity].
  destruct H as [H|H]; [congruence|].
  rewrite matchHere_plus. simpl. rewrite H. reflexivity.
Qed.

Lemma split_tight (s : jsstring) :
  forall prev tail,
    s <> [] -> tight s = true -> noBreakAt prev s ->
    split_from prev 0 (s ++ tail)
    = prependTo s (split_from (Some (last s 0%N)) 0 tail).
Proof.
  induction s as [|c s IH]; intros prev tail Hne Ht Hnb; [congruence|].
  change ((c :: s) ++ tail) with (c :: (s ++ tail)).
  rewrite split_step_no_break by exact Hnb.
  destruct s as [|b s].
  - simpl. destruct (split_from (Some c) 0 tail); reflexivity.
  - rewrite IH.
    + rewrite consHead_prependTo. reflexivity.
    + discriminate.
    + exact (tight_tail _ _ Ht).
    + left. simpl. simpl in Ht. apply andb_true_iff in Ht.
      exact (pairOk_not_terminator c b (proj1 Ht)).
Qed.

Lemma takeWhile_app_stop (p : char -> bool) (w d : jsstring) :
  Forall (fun c => p c = true) w ->
  (forall c t, d = c :: t -> p c = false) ->
  takeWhile p (w ++ d) = w.
Proof.
  intros Hw Hd. induction Hw as [|x w Hx _ IH]; simpl.
  - destruct d as [|c t]; [reflexivity|].
    simpl. rewrite (Hd c t eq_refl). reflexivity.
  - rewrite Hx, IH. reflexivity.
Qed.

Lemma split_from_skip (w : jsstring) :
  forall prev d, exists prev',
    split_from prev (length w) (w ++ d) = split_from prev' 0 d.
Proof.
  induction w as [|x w IH]; intros prev d.
  - exists prev. reflexivity.
  - simpl. apply IH.
Qed.

Lemma split_from_prev (prev prev' : option char) (d : jsstring) :
  (forall c t, d = c :: t -> isSpace c = false) ->
  split_from prev 0 d = split_from prev' 0 d.
Proof.
  intros Hd. destruct d as [|c t]; [reflexivity|].
  rewrite !split_step_no_break; [reflexivity| |];
    right; exact (Hd c t eq_refl).
Qed.

Lemma split_separator (t : char) (sep d : jsstring) :
  isTerminator t = true -> sep <> [] ->
  Forall (fun c => isSpace c = true) sep ->
  (forall c r, d = c :: r -> isSpace c = false) ->
  split_from (Some t) 0 (sep ++ d) = [] :: split_from None 0 d.
Proof.
  intros Ht Hne Hsep Hd. destruct sep as [|x sep]; [congruence|].
  change ((x :: sep) ++ d) with (x :: (sep ++ d)).
  rewrite split_from_0. simpl lookbehind. rewrite Ht, matchHere_plus.
  change (x :: sep ++ d) with ((x :: sep) ++ d).
  rewrite (takeWhile_app_stop isSpace (x :: sep) d Hsep Hd). simpl.
  destruct (split_from_skip sep (Some x) d) as [prev' ->].
  rewrite (split_from_prev prev' None d Hd). reflexivity.
Qed.

Lemma endsWith_last (p : char -> bool) (s : jsstring) :
  endsWith p s = true -> p (last s 0%N) = true.
Proof.
  induction s as [|a s IH]; [discriminate|].
  destruct s as [|b s]; [simpl; tauto|]. exact IH.
Qed.

Lemma Glued_nonempty (ss : list jsstring) (d : jsstring) :
  Glued ss d -> ss <> [].
Proof. intros H. destruct H; discriminate. Qed.

Lemma Glued_head (ss : list jsstring) (d : jsstring) :
  Glued ss d ->
  forall s ss', ss = s :: ss' -> forall c t, s = c :: t ->
  exists t', d = c :: t'.
Proof.
  intros H. destruct H as [s0|s0 sep ss0 d0 _ _ _];
    intros s ss' [= <- <-] c t ->.
  - exists t. reflexivity.
  - exists (t ++ sep ++ d0). reflexivity.
Qed.

Lemma Glued_head_notSpace (ss : list jsstring) (d : jsstring) :
  Glued ss d -> headsOk ss -> forall c t, d = c :: t -> isSpace c = false.
Proof.
  intros HG Hh c t Hd.
  destruct ss as [|s ss']; [exfalso; exact (Glued_nonempty _ _ HG eq_refl)|].
  inversion Hh as [|? ? (c0 & t0 & Hs & Hc0) _].
  destruct (Glued_head _ _ HG _ _ eq_refl c0 t0 Hs) as [t' Hd'].
  rewrite Hd in Hd'. injection Hd' as -> _. exact Hc0.
Qed.

(** The split of a glued document of tight sentences, each but the last
    ending with a terminator, is the list of the sentences. *)
Lemma split_Glued (ss : list jsstring) (d : jsstring) :
  Glued ss d ->
  Forall (fun s => tight s = true) ss -> headsOk ss ->
  terminatedButLast ss = true ->
  forall prev, split_from prev 0 d = ss.
Proof.
  induction 1 as [s|s sep ss d Hne Hsep HG IH]; intros Ht Hh Hterm prev.
  - inversion Ht as [|? ? Hts _]; subst.
    inversion Hh as [|? ? (c & t & -> & Hc) _]; subst.
    rewrite <- (app_nil_r (c :: t)) at 1.
    rewrite split_tight; [|discriminate|exact Hts|right; exact Hc].
    simpl. rewrite app_nil_r. reflexivity.
  - inversion Ht as [|? ? Hts Ht']; subst.
    inversion Hh as [|? ? (c & t & -> & Hc) Hh']; subst.
    assert (Hend : endsWith isTerminator (c :: t) = true
                   /\ terminatedButLast ss = true).
    { destruct ss as [|s2 ss2]; [exfalso; exact (Glued_nonempty _ _ HG eq_refl)|].
      simpl in Hterm. apply andb_true_iff in Hterm. exact Hterm. }
    destruct Hend as [Hend Hterm'].
    rewrite split_tight; [|discriminate|exact Hts|right; exact Hc].
    rewrite split_separator;
      [|apply endsWith_last; exact Hend|exact Hne|exact Hsep
       |exact (Glued_head_notSpace _ _ HG Hh')].
    simpl. rewrite app_nil_r. f_equal. apply IH; assumption.
Qed.

(** *** The normaliser on a document of normal characters *)

Lemma Matches_lit_eq (l m rest : jsstring) :
  Matches (map (fun x => One (isChar x)) l) m rest -> m = l.
Proof.
  revert m. induction l as [|x l IH]; intros m H; simpl in H.
  - inversion H. reflexivity.
  - inversion H as [|p r c m' rest' Hc Hm| |]; subst.
    apply N.eqb_eq in Hc. subst c. f_equal. apply IH. exact Hm.
Qed.

(** The literal menu of line 222 ends with the labels of line 223. *)
Lemma navMenu_has_labels (m rest : jsstring) :
  Matches navMenu m rest ->
  exists pre m', m = pre ++ m' /\ Matches navLabels m' rest.
Proof.
  intros H. unfold navMenu, lit in H. apply Matches_lit_eq in H. subst m.
  exists (str "Watch Live Sign In "),
    (str "Home News Sport Business Innovation Culture Arts Travel Earth Audio Video Live").
  split; [reflexivity|].
  unfold navLabels, lit, plus. simpl. build_match.
Qed.

Lemma replaceAll_no_match (r : regex) (rep : jsstring -> jsstring) (s : jsstring) :
  test r s = false -> replaceAll r rep s = s.
Proof.
  intros Ht. apply replaceAll_id_local. intros b m rest Hs Hm. exfalso.
  assert (H : test r s = true).
  { apply test_true. exists b, m, rest. split; assumption. }
  congruence.
Qed.

Lemma Matches_around (k : char) (m rest : jsstring) :
  Matches [star isSpace; One (isChar k); star isSpace] m rest -> In k m.
Proof.
  intros H. invert_matches.
  match goal with H : isChar k ?c = true |- _ =>
    apply N.eqb_eq in H; subst end.
  apply in_or_app. right. left. reflexivity.
Qed.

Lemma in_middle (A : Type) (x : A) (b m rest : list A) :
  In x m -> In x (b ++ m ++ rest).
Proof.
  intros H. apply in_or_app. right. apply in_or_app. left. exact H.
Qed.

Lemma cleaned_normal (d : jsstring) :
  Forall (fun c => normalChar c = true) d ->
  (forall c t, d = c :: t -> isSpace c = false /\ isLeadingSymbol c = false) ->
  lastNonSpace d = true ->
  test navLabels d = false ->
  cleaned d = d.
Proof.
  intros Hnormal Hfirst Hlast Hnav. rewrite Forall_forall in Hnormal.
  unfold cleaned.
  assert (H1 : replaceStart [plus isLeadingSymbol] (always []) d = d).
  { unfold replaceStart. rewrite matchHere_plus.
    destruct d as [|c t]; [reflexivity|].
    simpl. rewrite (proj2 (Hfirst c t eq_refl)). reflexivity. }
  rewrite H1.
  assert (H2 : replaceAll navMenu (always []) d = d).
  { apply replaceAll_id_local. intros b m rest Hs Hm. exfalso.
    apply navMenu_has_labels in Hm. destruct Hm as (pre & m' & -> & Hm).
    assert (H : test navLabels d = true).
    { apply test_true. exists (b ++ pre), m', rest.
      split; [rewrite Hs, <- !app_assoc; reflexivity|exact Hm]. }
    congruence. }
  rewrite H2.
  rewrite (replaceAll_no_match navLabels (always []) d Hnav).
  assert (H4 : replaceAll [One (fun c => negb (isAllowed c))] (always (str " ")) d
               = d).
  { apply replaceAll_id_local. intros b m rest Hs Hm. exfalso.
    apply Matches_single in Hm. destruct Hm as (c & -> & Hc).
    assert (Hn : normalChar c = true).
    { apply Hnormal. rewrite Hs. apply in_middle. left. reflexivity. }
    unfold normalChar in Hn. rewrite !andb_true_iff in Hn.
    apply negb_true_iff in Hc. destruct Hn as [[Hn _] _]. congruence. }
  rewrite H4.
  assert (Hk : forall k rep, normalChar k = false ->
             replaceAll [star isSpace; One (isChar k); star isSpace] rep d = d).
  { intros k rep Hkn. apply replaceAll_id_local. intros b m rest Hs Hm.
    exfalso. apply Matches_around in Hm.
    assert (Hn : normalChar k = true).
    { apply Hnormal. rewrite Hs. apply in_middle. exact Hm. }
    congruence. }
  rewrite !Hk by reflexivity.
  assert (H9 : replaceAll [One isQuoteOrBar] (always [34%N]) d = d).
  { apply replaceAll_id_local. intros b m rest Hs Hm.
    apply Matches_single in Hm. destruct Hm as (c & -> & Hc).
    assert (Hn : normalChar c = true).
    { apply Hnormal. rewrite Hs. apply in_middle. left. reflexivity. }
    unfold isQuoteOrBar, oneOf in Hc. simpl in Hc.
    rewrite !orb_true_iff, !N.eqb_eq in Hc.
    destruct Hc as [->|[->|[->|Hc]]]; try reflexivity; discriminate. }
  rewrite H9.
  assert (H10 : replaceAll [One isApostrophe] (always (str "'")) d = d).
  { apply replaceAll_id. intros m rest Hm.
    apply Matches_single in Hm. destruct Hm as (c & -> & Hc).
    unfold isApostrophe, oneOf in Hc. simpl in Hc.
    rewrite !orb_true_iff, !N.eqb_eq in Hc.
    destruct Hc as [->|[->|Hc]]; try reflexivity; discriminate. }
  rewrite H10.
  apply trim_id; [|exact Hlast].
  intros c t Hd. exact (proj1 (Hfirst c t Hd)).
Qed.

(** *** Documents composed of stable sentences *)

Lemma Glued_join (sep : jsstring) (g : list jsstring) :
  g <> [] -> sep <> [] -> Forall (fun c => isSpace c = true) sep ->
  Glued g (join sep g).
Proof.
  intros Hg Hne Hsep. induction g as [|s g IH]; [congruence|].
  destruct g as [|s2 g]; [constructor|].
  change (join sep (s :: s2 :: g)) with (s ++ sep ++ join sep (s2 :: g)).
  constructor; [exact Hne|exact Hsep|]. apply IH. discriminate.
Qed.

Lemma Glued_app (a b : list jsstring) (x y sep : jsstring) :
  Glued a x -> Glued b y ->
  sep <> [] -> Forall (fun c => isSpace c = true) sep ->
  Glued (a ++ b) (x ++ sep ++ y).
Proof.
  intros Ha Hb Hne Hsep.
  induction Ha as [s|s sep0 ss d Hne0 Hsep0 _ IH]; simpl.
  - constructor; assumption.
  - rewrite <- !app_assoc. constructor; [exact Hne0|exact Hsep0|].
    exact IH.
Qed.

Lemma Glued_document (groups : list (list jsstring)) :
  groups <> [] -> Forall (fun g => g <> []) groups ->
  Glued (concat groups) (join blankLine (map (join (str " ")) groups)).
Proof.
  intros Hne Hall. induction Hall as [|g groups Hg Hall IH]; [congruence|].
  destruct groups as [|g2 groups].
  - simpl. rewrite app_nil_r.
    apply Glued_join; [exact Hg|discriminate|repeat constructor].
  - change (concat (g :: g2 :: groups)) with (g ++ concat (g2 :: groups)).
    change (join blankLine (map (join (str " ")) (g :: g2 :: groups)))
      with (join (str " ") g ++ blankLine
            ++ join blankLine (map (join (str " ")) (g2 :: groups))).
    apply Glued_app.
    + apply Glued_join; [exact Hg|discriminate|repeat constructor].
    + apply IH. discriminate.
    + discriminate.
    + repeat constructor.
Qed.

Lemma lastNonSpace_app (a b : jsstring) :
  b <> [] -> lastNonSpace (a ++ b) = lastNonSpace b.
Proof.
  intros Hb. induction a as [|x a IH]; [reflexivity|].
  simpl. destruct (a ++ b) eqn:Hab; [|exact IH].
  apply app_eq_nil in Hab. tauto.
Qed.

Lemma Glued_lastNonSpace (ss : list jsstring) (d : jsstring) :
  Glued ss d -> headsOk ss ->
  Forall (fun s => lastNonSpace s = true) ss -> lastNonSpace d = true.
Proof.
  induction 1 as [s|s sep ss d Hne Hsep HG IH]; intros Hh Hl.
  - inversion Hl. assumption.
  - inversion Hh as [|? ? _ Hh']; inversion Hl as [|? ? _ Hl']; subst.
    assert (Hd : d <> []).
    { destruct ss as [|s2 ss2]; [exfalso; exact (Glued_nonempty _ _ HG eq_refl)|].
      inversion Hh' as [|? ? (c & t & Hs & _) _]; subst.
      destruct (Glued_head _ _ HG _ _ eq_refl c t eq_refl) as [t' ->].
      discriminate. }
    rewrite lastNonSpace_app.
    + rewrite lastNonSpace_app; [apply IH; assumption|exact Hd].
    + intros H. apply app_eq_nil in H. tauto.
Qed.

Lemma stable_edges (ss : list jsstring) :
  Forall (fun s => stableSentence s = true) ss ->
  headsOk ss /\ Forall (fun s => lastNonSpace s = true) ss
  /\ Forall (fun s => tight s = true) ss.
Proof.
  intros H. unfold headsOk. rewrite !Forall_forall in *.
  repeat split; intros s Hs; specialize (H s Hs);
    apply stableSentence_parts in H;
    destruct H as (_ & _ & Hfirst & Hlast & Htight); try assumption.
  destruct s as [|c t]; [discriminate|].
  exists c, t. split; [reflexivity|].
  exact (proj1 (firstOk_head _ Hfirst c t eq_refl)).
Qed.

Lemma trim_stable (s : jsstring) : stableSentence s = true -> trim s = s.
Proof.
  intros H. apply stableSentence_parts in H.
  destruct H as (_ & _ & Hfirst & Hlast & _).
  apply trim_id; [|exact Hlast].
  intros c t Hs. exact (proj1 (firstOk_head _ Hfirst c t Hs)).
Qed.

Lemma stable_nonBlank (s : jsstring) : stableSentence s = true -> nonBlank s.
Proof.
  intros H. unfold nonBlank. rewrite (trim_stable s H).
  apply stableSentence_parts in H. destruct H as (_ & _ & Hfirst & _).
  destruct s; discriminate.
Qed.

Lemma map_fixed (A : Type) (f : A -> A) (l : list A) :
  Forall (fun x => f x = x) l -> map f l = l.
Proof. induction 1 as [|x l Hx _ IH]; simpl; congruence. Qed.

Lemma filter_fixed (A : Type) (f : A -> bool) (l : list A) :
  Forall (fun x => f x = true) l -> filter f l = l.
Proof.
  induction 1 as [|x l Hx _ IH]; simpl; [reflexivity|].
  rewrite Hx, IH. reflexivity.
Qed.

(** The segmenter recovers the stable sentences of a glued document. *)
Lemma processedSentences_Glued (ss : list jsstring) (d : jsstring) :
  Glued ss d ->
  Forall (fun s => stableSentence s = true) ss ->
  terminatedButLast ss = true ->
  processedSentences d = ss.
Proof.
  intros HG Hst Hterm.
  destruct (stable_edges ss Hst) as (Hh & _ & Ht).
  unfold processedSentences, sentences.
  rewrite (split_Glued ss d HG Ht Hh Hterm None).
  rewrite (map_fixed _ trim ss).
  2:{ apply Forall_forall. intros s Hs. apply trim_stable.
      rewrite Forall_forall in Hst. exact (Hst s Hs). }
  rewrite (filter_fixed _ keepSentence ss).
  2:{ apply Forall_forall. intros s Hs. rewrite Forall_forall in Hst.
      exact (proj1 (stableSentence_parts s (Hst s Hs))). }
  apply map_fixed. apply Forall_forall. intros s Hs.
  apply cleanSentence_stable. rewrite Forall_forall in Hst. exact (Hst s Hs).
Qed.

Lemma finalParagraphs_fixed (ps : list jsstring) :
  Forall (fun p => trim p = p /\ p <> []) ps -> finalParagraphs ps = ps.
Proof.
  intros H. unfold finalParagraphs.
  rewrite filter_fixed.
  - apply map_fixed. apply Forall_forall. intros p Hp.
    rewrite Forall_forall in H. exact (proj1 (H p Hp)).
  - apply Forall_forall. intros p Hp. rewrite Forall_forall in H.
    destruct (H p Hp) as [-> Hne]. apply Nat.ltb_lt.
    destruct p; [congruence|simpl; lia].
Qed.

Lemma plainChar_normal (c : char) : plainChar c = true -> normalChar c = true.
Proof. unfold plainChar. intros H. apply andb_true_iff in H. tauto. Qed.

(** *** Every sentence but the last ends with a terminator *)

Lemma endsWith_app (p : char -> bool) (a b : jsstring) :
  b <> [] -> endsWith p (a ++ b) = endsWith p b.
Proof.
  intros Hb. induction a as [|x a IH]; [reflexivity|].
  simpl. destruct (a ++ b) eqn:Hab; [|exact IH].
  apply app_eq_nil in Hab. tauto.
Qed.

Lemma endsWith_snoc (p : char -> bool) (s : jsstring) :
  endsWith p s = true -> exists s' t, s = s' ++ [t] /\ p t = true.
Proof.
  induction s as [|a s IH]; [discriminate|]. intros H.
  destruct s as [|b s].
  - exists [], a. split; [reflexivity|exact H].
  - destruct (IH H) as (s' & t & Heq & Ht).
    exists (a :: s'), t. rewrite Heq. split; [reflexivity|exact Ht].
Qed.

Lemma endsWith_nonempty (p : char -> bool) (s : jsstring) :
  endsWith p s = true -> s <> [].
Proof. destruct s; [discriminate|discriminate]. Qed.

Lemma terminator_notSpace (c : char) : isTerminator c = true -> isSpace c = false.
Proof. intros H. char_arith. Qed.

Lemma split_from_nonempty (s : jsstring) :
  forall prev skip, split_from prev skip s <> [].
Proof.
  induction s as [|c s IH]; intros prev skip; [discriminate|].
  destruct skip as [|k]; [|apply IH].
  rewrite split_from_0.
  destruct (if lookbehind isTerminator prev
            then matchHere [plus isSpace] (c :: s) else None) as [[|k]|];
    try discriminate;
    destruct (split_from (Some c) 0 s); discriminate.
Qed.

Lemma split_from_terminated (s : jsstring) :
  forall prev skip,
    Forall (fun c => isSpace c = true) (firstn skip s) ->
    terminatedButLast (tl (split_from prev skip s)) = true /\
    match split_from prev skip s with
    | p :: _ :: _ =>
        endsWith isTerminator p = true \/
        (p = [] /\ skip = 0 /\ lookbehind isTerminator prev = true)
    | _ => True
    end.
Proof.
  induction s as [|c s IH]; intros prev skip Hskip.
  - simpl. split; [reflexivity|exact I].
  - destruct skip as [|k].
    + rewrite split_from_0.
      destruct (lookbehind isTerminator prev) eqn:Hprev.
      * rewrite matchHere_plus. simpl takeWhile.
        destruct (isSpace c) eqn:Hc.
        -- simpl length.
           destruct (IH (Some c) (length (takeWhile isSpace s))) as [H1 H2].
           { destruct (@firstn_takeWhile isSpace (length (takeWhile isSpace s)) s
                         (le_n _)) as [H _]. exact H. }
           pose proof (split_from_nonempty s (Some c)
                         (length (takeWhile isSpace s))) as Hne.
           destruct (split_from (Some c) (length (takeWhile isSpace s)) s)
             as [|p l] eqn:Hl; [congruence|].
           simpl tl in *. split; [|right; repeat split].
           destruct l as [|q l]; [reflexivity|].
           destruct H2 as [H2|(_ & _ & H2)].
           ++ simpl. simpl in H1. rewrite H2, H1. reflexivity.
           ++ simpl in H2. rewrite (terminator_notSpace c H2) in Hc. discriminate.
        -- destruct (IH (Some c) 0) as [H1 H2]; [constructor|].
           destruct (split_from (Some c) 0 s) as [|p [|q l]]; simpl.
           ++ split; [reflexivity|exact I].
           ++ split; [reflexivity|exact I].
           ++ split; [exact H1|]. left.
              destruct H2 as [H2|(-> & _ & H2)]; [|exact H2].
              destruct p; [discriminate H2|exact H2].
      * destruct (IH (Some c) 0) as [H1 H2]; [constructor|].
        destruct (split_from (Some c) 0 s) as [|p [|q l]]; simpl.
        -- split; [reflexivity|exact I].
        -- split; [reflexivity|exact I].
        -- split; [exact H1|]. left.
           destruct H2 as [H2|(-> & _ & H2)]; [|exact H2].
           destruct p; [discriminate H2|exact H2].
    + simpl firstn in Hskip. inversion Hskip as [|? ? Hc Hk]; subst.
      simpl split_from.
      destruct (IH (Some c) k Hk) as [H1 H2]. split; [exact H1|].
      destruct (split_from (Some c) k s) as [|p [|q l]]; try exact I.
      left. destruct H2 as [H2|(_ & _ & H2)]; [exact H2|].
      simpl in H2. rewrite (terminator_notSpace c H2) in Hc. discriminate.
Qed.

Lemma sentences_terminated (cleaned : jsstring) :
  terminatedButLast (sentences cleaned) = true.
Proof.
  unfold sentences.
  destruct (split_from_terminated cleaned None 0) as [H1 H2]; [constructor|].
  destruct (split_from None 0 cleaned) as [|p [|q l]]; try reflexivity.
  simpl in H1 |- *.
  destruct H2 as [H2|(_ & _ & H2)]; [|discriminate].
  rewrite H2. exact H1.
Qed.

Lemma terminatedButLast_cons (s : jsstring) (l : list jsstring) :
  endsWith isTerminator s = true -> terminatedButLast l = true ->
  terminatedButLast (s :: l) = true.
Proof.
  intros Hs Hl. destruct l as [|b l]; [reflexivity|].
  change (endsWith isTerminator s && terminatedButLast (b :: l) = true).
  rewrite Hs, Hl. reflexivity.
Qed.

Lemma terminatedButLast_inv (s b : jsstring) (l : list jsstring) :
  terminatedButLast (s :: b :: l) = true ->
  endsWith isTerminator s = true /\ terminatedButLast (b :: l) = true.
Proof.
  intros H.
  change (endsWith isTerminator s && terminatedButLast (b :: l) = true) in H.
  apply andb_true_iff in H. exact H.
Qed.

Lemma terminatedButLast_map (f : jsstring -> jsstring) (l : list jsstring) :
  (forall s, endsWith isTerminator s = true ->
             endsWith isTerminator (f s) = true) ->
  terminatedButLast l = true -> terminatedButLast (map f l) = true.
Proof.
  intros Hf. induction l as [|s l IH]; intros H; [reflexivity|].
  destruct l as [|b l]; [reflexivity|].
  apply terminatedButLast_inv in H. destruct H as [Hs Hl].
  change (map f (s :: b :: l)) with (f s :: map f (b :: l)).
  apply terminatedButLast_cons; [apply Hf; exact Hs|apply IH; exact Hl].
Qed.

Lemma terminatedButLast_filter (f : jsstring -> bool) (l : list jsstring) :
  terminatedButLast l = true -> terminatedButLast (filter f l) = true.
Proof.
  induction l as [|s l IH]; intros H; [reflexivity|].
  destruct l as [|b l].
  - simpl. destruct (f s); reflexivity.
  - apply terminatedButLast_inv in H. destruct H as [Hs Hl].
    change (filter f (s :: b :: l))
      with (if f s then s :: filter f (b :: l) else filter f (b :: l)).
    destruct (f s); [|apply IH; exact Hl].
    apply terminatedButLast_cons; [exact Hs|apply IH; exact Hl].
Qed.

Lemma dropWhile_app_keep (p : char -> bool) (a : jsstring) (t : char) :
  p t = false -> dropWhile p (a ++ [t]) = dropWhile p a ++ [t].
Proof.
  intros Ht. induction a as [|x a IH]; simpl.
  - rewrite Ht. reflexivity.
  - destruct (p x); [exact IH|reflexivity].
Qed.

Lemma trimEnd_snoc (a : jsstring) (t : char) :
  isSpace t = false -> trimEnd (a ++ [t]) = a ++ [t].
Proof.
  intros Ht. unfold trimEnd. rewrite rev_app_distr. simpl. rewrite Ht.
  simpl. rewrite rev_involutive. reflexivity.
Qed.

Lemma endsWith_trim (s : jsstring) :
  endsWith isTerminator s = true -> endsWith isTerminator (trim s) = true.
Proof.
  intros H. apply endsWith_snoc in H. destruct H as (a & t & -> & Ht).
  pose proof (terminator_notSpace t Ht) as Hs.
  unfold trim, trimStart. rewrite (dropWhile_app_keep isSpace a t Hs).
  rewrite (trimEnd_snoc _ t Hs).
  rewrite endsWith_app; [exact Ht|discriminate].
Qed.

Lemma trim_after_space (o : jsstring) (t : char) :
  isTerminator t = true ->
  endsWith isTerminator (trim (o ++ [t; 32%N])) = true.
Proof.
  intros Ht. pose proof (terminator_notSpace t Ht) as Hs.
  unfold trim, trimStart.
  change (o ++ [t; 32%N]) with (o ++ [t] ++ [32%N]). rewrite app_assoc.
  assert (Hd : exists x, dropWhile isSpace ((o ++ [t]) ++ [32%N])
                         = (x ++ [t]) ++ [32%N]).
  { induction o as [|c o IH]; simpl.
    - rewrite Hs. exists []. reflexivity.
    - destruct (isSpace c); [exact IH|].
      exists (c :: o). reflexivity. }
  destruct Hd as [x ->].
  unfold trimEnd. rewrite rev_app_distr. simpl.
  rewrite rev_app_distr. simpl. rewrite Hs. simpl.
  rewrite rev_involutive.
  rewrite endsWith_app; [exact Ht|discriminate].
Qed.

Lemma capitalize_closed (s : jsstring) :
  endsWith isTerminator s = true -> endsWith isTerminator (capitalize s) = true.
Proof.
  intros H. destruct (capitalize_cases s) as [->|(c & s' & -> & Hc & ->)];
    [exact H|].
  destruct s' as [|b s']; [|exact H].
  simpl in H. exfalso. char_arith.
Qed.

(** The end of the result of a global replacement, for a pattern that
    matches no empty text, when the input ends with a terminator. *)
Lemma replaceAll_end (r : regex) (rep : jsstring -> jsstring)
  (Q : jsstring -> Prop) :
  (forall a b, Q b -> Q (a ++ b)) ->
  matchHere r [] = None ->
  (forall c s, matchHere r (c :: s) <> Some 0) ->
  (forall c, matchHere r [c] = None -> isTerminator c = true -> Q [c]) ->
  (forall m, Matches r m [] -> endsWith isTerminator m = true -> Q (rep m)) ->
  forall s, endsWith isTerminator s = true -> Q (replaceAll r rep s).
Proof.
  intros Happ Hnil Hzero Hone Hlast.
  apply (@replaceAll_ind r rep
           (fun s out => endsWith isTerminator s = true -> Q out)).
  - discriminate.
  - intros c s Hm IH H. destruct s as [|b s].
    + rewrite replaceAll_nil, Hnil. apply Hone; [exact Hm|exact H].
    + apply (Happ [c]). apply IH. exact H.
  - intros c s Hm. exfalso. exact (Hzero c s Hm).
  - intros c m rest HM _ IH H. destruct rest as [|b rest].
    + rewrite replaceAll_nil, Hnil, app_nil_r.
      rewrite app_nil_r in H. apply Hlast; assumption.
    + apply Happ. apply IH.
      change (c :: m ++ b :: rest) with ((c :: m) ++ b :: rest) in H.
      rewrite endsWith_app in H; [exact H|discriminate].
Qed.

Lemma closed_app (a b : jsstring) :
  endsWith isTerminator b = true -> endsWith isTerminator (a ++ b) = true.
Proof.
  intros H. rewrite endsWith_app; [exact H|].
  exact (endsWith_nonempty _ _ H).
Qed.

Lemma matchHere_plus_not_zero (p : char -> bool) (r : regex) (s : jsstring) :
  matchHere (plus p :: r) s <> Some 0.
Proof.
  intros H. apply matchHere_sound in H. destruct H as [H _].
  simpl in H. unfold plus in H.
  inversion H as [| |? ? ? ? w m ? Hw Hlo _ _ Heq|]; subst.
  destruct w; simpl in *; [lia|discriminate].
Qed.

Lemma spaces_not_closed (m : jsstring) :
  Forall (fun c => isSpace c = true) m -> endsWith isTerminator m = true -> False.
Proof.
  intros Hall H. apply endsWith_snoc in H. destruct H as (a & t & -> & Ht).
  apply Forall_app in Hall. destruct Hall as [_ Hall].
  inversion Hall as [|? ? Hs _]; subst.
  rewrite (terminator_notSpace t Ht) in Hs. discriminate.
Qed.

(** The sentence cleaner keeps a final terminator. *)
Lemma cleanSentence_closed (s : jsstring) :
  endsWith isTerminator s = true ->
  endsWith isTerminator (cleanSentence s) = true.
Proof.
  intros H. unfold cleanSentence. fold (capitalize s).
  apply capitalize_closed in H. revert H. generalize (capitalize s) as s0.
  intros s0 H.
  assert (Hb : endsWith isTerminator
                 (replaceAll [plus isSpace] (always (str " ")) s0) = true).
  { revert s0 H.
    apply (replaceAll_end [plus isSpace] (always (str " "))
             (fun out => endsWith isTerminator out = true)).
    - exact closed_app.
    - reflexivity.
    - intros c s1. apply matchHere_plus_not_zero.
    - intros c _ Hc. exact Hc.
    - intros m Hm Hcl. exfalso. apply Matches_spaces in Hm.
      exact (spaces_not_closed m (proj1 Hm) Hcl). }
  revert Hb.
  generalize (replaceAll [plus isSpace] (always (str " ")) s0) as s1.
  intros s1 Hb.
  rewrite (@replaceAll_id [One isAlpha; One (isChar 39); One isAlpha]).
  2:{ intros m rest Hm. apply Matches_contraction in Hm.
      destruct Hm as (a & b & ->). reflexivity. }
  rewrite (@replaceAll_id [plus isWordChar; One isPunct]).
  2:{ intros m rest _. apply butLast_lastChar. }
  assert (He : endsWith isTerminator
                 (replaceAll [plus isSpace; One isPunct] (fun m => lastChar m) s1)
               = true).
  { revert s1 Hb.
    apply (replaceAll_end [plus isSpace; One isPunct] (fun m => lastChar m)
             (fun out => endsWith isTerminator out = true)).
    - exact closed_app.
    - reflexivity.
    - intros c s2. apply matchHere_plus_not_zero.
    - intros c _ Hc. exact Hc.
    - intros m Hm Hcl. apply Matches_space_punct in Hm.
      destruct Hm as (w & c & -> & _ & _). rewrite lastChar_snoc.
      rewrite endsWith_app in Hcl; [exact Hcl|discriminate]. }
  revert He.
  generalize (replaceAll [plus isSpace; One isPunct] (fun m => lastChar m) s1)
    as s2.
  intros s2 He.
  assert (Hf : exists o t,
             replaceAll [One isPunct; star isSpace]
               (fun m => firstChar m ++ str " ") s2 = o ++ [t; 32%N]
             /\ isTerminator t = true).
  { revert s2 He.
    apply (replaceAll_end [One isPunct; star isSpace]
             (fun m => firstChar m ++ str " ")
             (fun out => exists o t, out = o ++ [t; 32%N]
                                     /\ isTerminator t = true)).
    - intros a b (o & t & -> & Ht). exists (a ++ o), t.
      rewrite app_assoc. split; [reflexivity|exact Ht].
    - reflexivity.
    - intros c s3. apply matchHere_not_zero.
    - intros c Hm Hc. exfalso. rewrite matchHere_one_star in Hm.
      rewrite (terminator_punct c Hc) in Hm. discriminate.
    - intros m Hm Hcl. apply Matches_punct_space in Hm.
      destruct Hm as (c & w & -> & _ & Hw). simpl firstChar.
      destruct w as [|x w].
      + exists [], c. split; [reflexivity|exact Hcl].
      + exfalso. change (c :: x :: w) with ([c] ++ x :: w) in Hcl.
        rewrite endsWith_app in Hcl by discriminate.
        exact (spaces_not_closed _ Hw Hcl). }
  destruct Hf as (o & t & -> & Ht). apply trim_after_space. exact Ht.
Qed.

(** Every sentence that the segmenter produces, except possibly the
    last, ends with a sentence terminator. *)
Lemma processedSentences_terminated (cleaned : jsstring) :
  terminatedButLast (processedSentences cleaned) = true.
Proof.
  unfold processedSentences.
  apply terminatedButLast_map; [exact cleanSentence_closed|].
  apply terminatedButLast_filter.
  apply terminatedButLast_map; [exact endsWith_trim|].
  apply sentences_terminated.
Qed.

(** The composer's groups of stable sentences: what they are joined into
    is glued from the sentences, and every paragraph is trimmed already. *)
Lemma composeParagraphs_stable (ss : list jsstring) :
  ss <> [] ->
  Forall (fun s => stableSentence s = true) ss ->
  Glued ss (join blankLine (composeParagraphs ss)) /\
  finalParagraphs (composeParagraphs ss) = composeParagraphs ss.
Proof.
  intros Hne Hst.
  destruct (composeParagraphs_groups ss)
    as (groups & tail & Hp & Hg & _ & Hall).
  assert (Hc : concat groups = ss).
  { apply Hall. apply Forall_forall. intros s Hs. apply stable_nonBlank.
    rewrite Forall_forall in Hst. exact (Hst s Hs). }
  assert (Hgne : Forall (fun g : list jsstring => g <> []) groups).
  { apply Forall_forall. intros g Hin. rewrite Forall_forall in Hg.
    specialize (Hg g Hin). destruct g; [simpl in Hg; lia|discriminate]. }
  rewrite Hp. split.
  - rewrite <- Hc at 1. apply Glued_document; [|exact Hgne].
    intros ->. simpl in Hc. congruence.
  - apply finalParagraphs_fixed. apply Forall_forall. intros p Hin.
    apply in_map_iff in Hin. destruct Hin as (g & <- & Hin).
    assert (Hgst : Forall (fun s => stableSentence s = true) g).
    { apply Forall_forall. intros s Hs. rewrite Forall_forall in Hst.
      apply Hst. rewrite <- Hc. apply in_concat. exists g. tauto. }
    destruct (stable_edges g Hgst) as (Hh & Hl & _).
    assert (HG : Glued g (join (str " ") g)).
    { apply Glued_join; [|discriminate|repeat constructor].
      rewrite Forall_forall in Hgne. exact (Hgne g Hin). }
    pose proof (Glued_head_notSpace g _ HG Hh) as Hhead.
    split.
    + apply trim_id; [exact Hhead|].
      exact (Glued_lastNonSpace g _ HG Hh Hl).
    + intros Hnil. destruct g as [|s g']; [inversion HG|].
      inversion Hh as [|? ? (c & t & Hs & _) _]; subst.
      destruct (Glued_head _ _ HG _ _ eq_refl c t eq_refl) as [t' Heq].
      rewrite Heq in Hnil. discriminate.
Qed.

(** The pass does nothing to a document composed of stable sentences in
    which the navigation labels do not occur. *)
Lemma cleanTextLocally_stable (ss : list jsstring) :
  Forall (fun s => stableSentence s = true) ss ->
  terminatedButLast ss = true ->
  test navLabels (join blankLine (composeParagraphs ss)) = false ->
  cleanTextLocally (join blankLine (composeParagraphs ss))
  = join blankLine (composeParagraphs ss).
Proof.
  intros Hst Hterm Hnav.
  destruct ss as [|s0 ss0] eqn:Hss; [reflexivity|]. rewrite <- Hss in *.
  assert (Hne : ss <> []) by (rewrite Hss; discriminate).
  destruct (composeParagraphs_stable ss Hne Hst) as [HG Hfinal].
  destruct (stable_edges ss Hst) as (Hh & Hl & _).
  set (d := join blankLine (composeParagraphs ss)) in *.
  assert (Hclean : cleaned d = d).
  { apply cleaned_normal; [| |exact (Glued_lastNonSpace ss d HG Hh Hl)|exact Hnav].
    - unfold d. apply join_Forall; [repeat constructor|].
      apply composeParagraphs_Forall; [reflexivity|].
      apply Forall_forall. intros s Hs. rewrite Forall_forall in Hst.
      destruct (stableSentence_parts s (Hst s Hs)) as (_ & Hplain & _).
      apply Forall_forall. intros c Hc. rewrite Forall_forall in Hplain.
      apply plainChar_normal. exact (Hplain c Hc).
    - intros c t Hd.
      assert (Hs0 : stableSentence s0 = true).
      { rewrite Forall_forall in Hst. apply Hst. rewrite Hss. left. reflexivity. }
      destruct (stableSentence_parts s0 Hs0) as (_ & _ & Hfirst & _).
      destruct s0 as [|c0 t0]; [discriminate|].
      destruct (Glued_head ss d HG _ _ Hss c0 t0 eq_refl) as [t' Hd'].
      rewrite Hd in Hd'. injection Hd' as -> _.
      destruct (firstOk_head _ Hfirst c0 t0 eq_refl) as (H1 & _ & H3).
      split; assumption. }
  unfold cleanTextLocally. rewrite Hclean.
  rewrite (processedSentences_Glued ss d HG Hst Hterm).
  rewrite Hfinal. reflexivity.
Qed.

(** C7 as the specification states it fails: on the text with a full stop
    inside a word, the first pass puts a space after the full stop, and
    the second pass splits there and capitalises the next word. *)
Lemma C7_second_pass_changes_casing :
  cleanTextLocally dottedText = str "Hello world. this is a test" /\
  cleanTextLocally (cleanTextLocally dottedText)
  = str "Hello world." ++ blankLine ++ str "This is a test" /\
  ~ secondPassKeepsVisible dottedText.
Proof.
  split; [vm_compute; reflexivity|].
  split; [vm_compute; reflexivity|].
  unfold secondPassKeepsVisible. vm_compute. discriminate.
Qed.

(** C7 (amended). Running the pass on its own output changes nothing when
    every sentence of the output is stable and the navigation labels do
    not occur in the output.  A sentence is stable when it passes the
    segmenter's filter, holds only characters that the normaliser keeps
    (no parentheses, no white space but the plain space), begins with a
    character that is not white space, a lower-case letter or a leading
    symbol, does not end with white space, and is tight: no space is
    followed by a space or a punctuation mark, and a punctuation mark that
    is followed by anything is followed by a plain space and is no
    sentence terminator. *)
Theorem C7_second_pass_fixes_stable_output :
  forall text : jsstring,
    forallb stableSentence (processedSentences (cleaned text)) = true ->
    test navLabels (cleanTextLocally text) = false ->
    cleanTextLocally (cleanTextLocally text) = cleanTextLocally text.
Proof.
  intros text Hst Hnav.
  assert (Hst' : Forall (fun s => stableSentence s = true)
                   (processedSentences (cleaned text))).
  { apply Forall_forall. rewrite forallb_forall in Hst. exact Hst. }
  assert (Hout : cleanTextLocally text
                 = join blankLine
                     (composeParagraphs (processedSentences (cleaned text)))).
  { unfold cleanTextLocally.
    destruct (processedSentences (cleaned text)) as [|s ss] eqn:Hss;
      [reflexivity|].
    rewrite (proj2 (composeParagraphs_stable (s :: ss) ltac:(discriminate) Hst')).
    reflexivity. }
  rewrite Hout in *.
  apply cleanTextLocally_stable;
    [exact Hst'|apply processedSentences_terminated|exact Hnav].
Qed.

Lemma C7_second_pass_fixes_stable_output_witness :
  cleanTextLocally (cleanTextLocally scenario2) = cleanTextLocally scenario2.
Proof.
  apply C7_second_pass_fixes_stable_output; vm_compute; reflexivity.
Defined.

Set Implicit Arguments.

(** ** C8: degenerate input and the displayed string *)

Lemma visible_join_in (sep x : jsstring) (l : list jsstring) :
  In x l -> visible x <> [] -> visible (join sep l) <> [].
Proof.
  intros Hin Hx. induction l as [|y l IH]; [contradiction|].
  destruct l as [|z l].
  - destruct Hin as [->|[]]. exact Hx.
  - change (join sep (y :: z :: l)) with (y ++ sep ++ join sep (z :: l)).
    rewrite !visible_app. destruct Hin as [->|Hin].
    + intros H. apply app_eq_nil in H. tauto.
    + intros H. apply app_eq_nil in H. destruct H as [_ H].
      apply app_eq_nil in H. destruct H as [_ H]. exact (IH Hin H).
Qed.

Lemma keepBlock_visible (b : TextBlock) :
  keepBlock b = true -> visible (text b) <> [].
Proof.
  unfold keepBlock. intros H Hv. apply trim_nil_visible in Hv.
  rewrite Hv in H. simpl in H. discriminate.
Qed.

Lemma combinedText_visible (pbs : list TextBlock) :
  visible (combinedText pbs) = visible (join (str " ") (map text pbs)).
Proof.
  unfold combinedText. rewrite visible_trim. unfold visible.
  apply replaceAll_filter.
  intros m rest H. apply Matches_spaces in H. destruct H as [Hm _].
  fold (visible m). rewrite (visible_spaces Hm). reflexivity.
Qed.

(** When a word survives the filter the combined text is not empty. *)
Lemma combinedText_truthy (blocks : list TextBlock) :
  filteredBlocks blocks <> [] ->
  truthy (combinedText (processedBlocks blocks)) = true.
Proof.
  intros Hne.
  destruct (filteredBlocks blocks) as [|b l] eqn:Hf; [congruence|].
  assert (Hin : In b (processedBlocks blocks)).
  { unfold processedBlocks. rewrite Hf.
    apply (Permutation_in _ (sortBy_perm compareBlocks (b :: l))).
    left. reflexivity. }
  assert (Hkeep : keepBlock b = true).
  { assert (H : In b (filteredBlocks blocks)) by (rewrite Hf; left; reflexivity).
    apply filter_In in H. tauto. }
  destruct (combinedText (processedBlocks blocks)) eqn:Hc; [|reflexivity].
  exfalso.
  assert (Hv : visible (combinedText (processedBlocks blocks)) = [])
    by (rewrite Hc; reflexivity).
  rewrite combinedText_visible in Hv. revert Hv.
  apply visible_join_in with (x := text b).
  - apply in_map. exact Hin.
  - apply keepBlock_visible. exact Hkeep.
Qed.

Lemma filterAndFormatBlocks_degenerate (blocks : list TextBlock)
  (st : ScreenReaderState) :
  degenerate blocks -> filterAndFormatBlocks blocks st = (Resolved [], st).
Proof.
  unfold degenerate, filterAndFormatBlocks, processedBlocks.
  intros ->. reflexivity.
Qed.

(** C8 as the specification states it fails: after a run on a frame with
    no words, and after a run on a word list that is filtered out
    entirely, the displayed string is still the old one, not the empty
    string. *)
Lemma C8_degenerate_run_keeps_old_text :
  degenerate (collectBlocks frameWithoutWords) /\
  cleanedText (snd (analyzeFrame true false (Resolved (Some frameWithoutWords))
                      true showingOld)) <> [] /\
  degenerate (collectBlocks frameWithLabelOnly) /\
  cleanedText (snd (analyzeFrame true false (Resolved (Some frameWithLabelOnly))
                      true showingOld)) <> [].
Proof.
  repeat split; try (vm_compute; reflexivity); vm_compute; discriminate.
Qed.

(** C8 (amended). A run on degenerate input leaves the displayed string
    as it was: [filterAndFormatBlocks] writes nothing and returns no
    block, and [analyzeFrame] leaves the string alone whatever else
    happens in the run.  When some word survives the filter, the run
    replaces the displayed string by the cleaned combined text. *)
Theorem C8_displayed_text_replaced_only_when_a_word_survives :
  forall (blocks : list TextBlock) (st : ScreenReaderState),
    (degenerate blocks ->
     filterAndFormatBlocks blocks st = (Resolved [], st) /\
     forall workerReady frameEmpty isMounted data,
       collectBlocks data = blocks ->
       cleanedText (snd (analyzeFrame workerReady frameEmpty
                           (Resolved (Some data)) isMounted st))
       = cleanedText st) /\
    (~ degenerate blocks ->
     filterAndFormatBlocks blocks st
     = (Resolved (processedBlocks blocks),
        setCleanedText
          (cleanTextLocally (combinedText (processedBlocks blocks))) st)).
Proof.
  intros blocks st. split.
  - intros Hd. split; [apply filterAndFormatBlocks_degenerate; exact Hd|].
    intros workerReady frameEmpty isMounted data <-.
    unfold analyzeFrame, tryCatch, bind, await, ret, throw, effect.
    destruct workerReady, frameEmpty; simpl; try reflexivity.
    destruct (truthy (data_text data) && isMounted); [|reflexivity].
    destruct ((0 <? length (collectBlocks data))%nat && isMounted);
      [|reflexivity].
    rewrite (filterAndFormatBlocks_degenerate st Hd). reflexivity.
  - intros Hnd. unfold filterAndFormatBlocks.
    rewrite (combinedText_truthy blocks Hnd). reflexivity.
Qed.

Lemma C8_displayed_text_replaced_only_when_a_word_survives_witness :
  (degenerate (collectBlocks frameWithLabelOnly) /\
   filterAndFormatBlocks (collectBlocks frameWithLabelOnly) showingOld
   = (Resolved [], showingOld)) /\
  (~ degenerate scenario1 /\
   filterAndFormatBlocks scenario1 showingOld
   = (Resolved (processedBlocks scenario1),
      setCleanedText (cleanTextLocally (combinedText (processedBlocks scenario1)))
        showingOld)).
Proof.
  assert (H1 : degenerate (collectBlocks frameWithLabelOnly))
    by (vm_compute; reflexivity).
  assert (H2 : ~ degenerate scenario1) by (vm_compute; discriminate).
  split; split; try assumption.
  - exact (proj1 (proj1 (C8_displayed_text_replaced_only_when_a_word_survives
                           (collectBlocks frameWithLabelOnly) showingOld) H1)).
  - exact (proj2 (C8_displayed_text_replaced_only_when_a_word_survives
                    scenario1 showingOld) H2).
Defined.

(** ** C9: the remote clean-up fails open *)

(** C9. Whatever the remote call does, [cleanTextWithAI] returns a string
    and throws nothing; when the call throws or its response has no
    generated text, the string is the input text unchanged. *)
Theorem C9_cleanTextWithAI_fails_open :
  forall (textGeneration : jsstring -> outcome (option TextGenerationOutput))
         (text : jsstring) (st : ScreenReaderState),
    (exists s, fst (cleanTextWithAI textGeneration text st) = Resolved s) /\
    (failsOrLacksText (textGeneration (cleanupPrompt text)) ->
     fst (cleanTextWithAI textGeneration text st) = Resolved text).
Proof.
  intros tg text st.
  unfold cleanTextWithAI, tryFinally, tryCatch, bind, effect, await, ret,
    failsOrLacksText.
  destruct (tg (cleanupPrompt text)) as [[o|]|e]; simpl.
  - destruct (generated_text o) as [g|]; simpl.
    + destruct g as [|c g]; simpl.
      * split; [eexists; reflexivity|reflexivity].
      * split; [eexists; reflexivity|].
        intros [H|H]; discriminate.
    + split; [eexists; reflexivity|reflexivity].
  - split; [eexists; reflexivity|reflexivity].
  - split; [eexists; reflexivity|reflexivity].
Qed.

Lemma C9_cleanTextWithAI_fails_open_witness :
  failsOrLacksText
    ((fun _ => Rejected (ErrorObject (str "503"))) (cleanupPrompt (str "raw text"))) /\
  fst (cleanTextWithAI (fun _ => Rejected (ErrorObject (str "503")))
         (str "raw text") initialState) = Resolved (str "raw text").
Proof.
  split; [exact I|].
  apply (proj2 (C9_cleanTextWithAI_fails_open
                  (fun _ => Rejected (ErrorObject (str "503")))
                  (str "raw text") initialState)).
  exact I.
Defined.

(* ------------------------------------------------------------------ *)
(** * Further properties of the component *)

Unset Implicit Arguments.

(** ** The idle steps of the normaliser and of the sentence cleaner *)

(** The text that reaches line 225 holds characters of the allowed set
    only. *)
Lemma allowed_after_line_224 (s : jsstring) :
  Forall (fun c => isAllowed c = true)
    (replaceAll [One (fun c => negb (isAllowed c))] (always (str " ")) s).
Proof.
  apply (@replaceAll_Forall [One (fun c => negb (isAllowed c))]
           (always (str " ")) (fun _ => True) (fun c => isAllowed c = true)).
  - intros c s' _ Hm. simpl in Hm.
    destruct (isAllowed c) eqn:Hal; [reflexivity|].
    simpl in Hm. destruct (matchHere [] s'); discriminate.
  - intros c s' _ Hm. exfalso. exact (matchHere_not_zero _ _ _ _ Hm).
  - intros m rest _ _. repeat constructor.
  - intros n Hn. discriminate Hn.
  - apply Forall_forall. intros; exact I.
Qed.

(** Lines 227 and 228 keep a property of characters that the open and the
    closed parenthesis and the space have. *)
Lemma around_Forall (P : char -> Prop) (k : char) (rep s : jsstring) :
  Forall P rep -> Forall P s ->
  Forall P (replaceAll [star isSpace; One (isChar k); star isSpace] (always rep) s).
Proof.
  intros Hrep.
  apply (@replaceAll_Forall _ (always rep) P P).
  - intros c s' H _. exact H.
  - intros c s' H _. exact H.
  - intros m rest _ _. exact Hrep.
  - intros n Hn. discriminate Hn.
Qed.

Lemma around_idle (k : char) (rep : jsstring -> jsstring) (s : jsstring) :
  ~ In k s ->
  replaceAll [star isSpace; One (isChar k); star isSpace] rep s = s.
Proof.
  intros Hk. apply replaceAll_id_local. intros b m rest Hs Hm.
  exfalso. apply Hk. rewrite Hs. apply in_middle. apply Matches_around in Hm.
  exact Hm.
Qed.

Lemma allowed_not_in (k : char) (s : jsstring) :
  isAllowed k = false -> Forall (fun c => isAllowed c = true) s -> ~ In k s.
Proof.
  intros Hk Hs Hin. rewrite Forall_forall in Hs.
  rewrite (Hs k Hin) in Hk. discriminate.
Qed.

Lemma quotes_idle (s : jsstring) :
  Forall (fun c => isAllowed c = true) s ->
  replaceAll [One isQuoteOrBar] (always [34%N]) s = s.
Proof.
  intros Hs. apply replaceAll_id_local. intros b m rest Heq Hm.
  apply Matches_single in Hm. destruct Hm as (c & -> & Hc).
  assert (Hal : isAllowed c = true).
  { rewrite Forall_forall in Hs. apply Hs. rewrite Heq.
    apply in_middle. left. reflexivity. }
  unfold isQuoteOrBar, oneOf in Hc. simpl in Hc.
  rewrite !orb_true_iff, !N.eqb_eq in Hc.
  destruct Hc as [->|[->|[->|Hc]]]; try reflexivity; discriminate.
Qed.

Lemma apostrophes_idle (s : jsstring) :
  replaceAll [One isApostrophe] (always (str "'")) s = s.
Proof.
  apply replaceAll_id. intros m rest Hm.
  apply Matches_single in Hm. destruct Hm as (c & -> & Hc).
  unfold isApostrophe, oneOf in Hc. simpl in Hc.
  rewrite !orb_true_iff, !N.eqb_eq in Hc.
  destruct Hc as [->|[->|Hc]]; try reflexivity; discriminate.
Qed.

Lemma cleaned_in_six_steps (text : jsstring) :
  cleaned text = cleanedInSixSteps text.
Proof.
  unfold cleaned, cleanedInSixSteps.
  set (s4 := replaceAll [One (fun c => negb (isAllowed c))] (always (str " ")) _).
  assert (H4 : Forall (fun c => isAllowed c = true) s4)
    by apply allowed_after_line_224.
  rewrite (around_idle 91%N _ s4) by (apply allowed_not_in; [reflexivity|exact H4]).
  rewrite (around_idle 93%N _ s4) by (apply allowed_not_in; [reflexivity|exact H4]).
  rewrite apostrophes_idle, quotes_idle; [reflexivity|].
  apply around_Forall; [repeat constructor|].
  apply around_Forall; [repeat constructor|exact H4].
Qed.

(** X1. Four steps of the normaliser never change the text: when lines 225
    and 226 run, line 224 has already replaced every bracket, and the
    bar of line 229 with it; what is left for lines 229 and 230 to match
    is the straight quote and the straight apostrophe, which they
    replace by themselves. *)
Theorem X1_cleaned_has_four_idle_steps :
  forall text : jsstring, cleaned text = cleanedInSixSteps text.
Proof. exact cleaned_in_six_steps. Qed.

Lemma cleanSentence_in_four_steps (s : jsstring) :
  cleanSentence s = cleanSentenceInFourSteps s.
Proof.
  unfold cleanSentence, cleanSentenceInFourSteps.
  rewrite (@replaceAll_id [plus isWordChar; One isPunct]).
  2:{ intros m rest _. apply butLast_lastChar. }
  rewrite (@replaceAll_id [One isAlpha; One (isChar 39); One isAlpha]).
  2:{ intros m rest H. apply Matches_contraction in H.
      destruct H as (a & b & ->). reflexivity. }
  reflexivity.
Qed.

(** X2. Two steps of the sentence cleaner never change the sentence: lines
    250 and 251 replace each match by the text that was matched. *)
Theorem X2_cleanSentence_has_two_idle_steps :
  forall sentence : jsstring,
    cleanSentence sentence = cleanSentenceInFourSteps sentence.
Proof. exact cleanSentence_in_four_steps. Qed.

(** ** The characters of the cleaned document *)

Lemma cleaned_allowed (text : jsstring) :
  Forall (fun c => isAllowed c = true) (cleaned text).
Proof.
  rewrite cleaned_in_six_steps. unfold cleanedInSixSteps.
  apply trim_Forall.
  apply around_Forall; [repeat constructor|].
  apply around_Forall; [repeat constructor|].
  apply allowed_after_line_224.
Qed.

(** The normaliser adds spaces and parentheses only. *)
Lemma cleaned_Forall (P : char -> Prop) (text : jsstring) :
  P 32%N -> P 40%N -> P 41%N -> Forall P text -> Forall P (cleaned text).
Proof.
  intros H32 H40 H41 Ht.
  rewrite cleaned_in_six_steps. unfold cleanedInSixSteps.
  apply trim_Forall.
  apply around_Forall; [repeat constructor; assumption|].
  apply around_Forall; [repeat constructor; assumption|].
  apply (@replaceAll_Forall [One (fun c => negb (isAllowed c))]
           (always (str " ")) P P).
  - intros c s' H _. exact H.
  - intros c s' H _. exact H.
  - intros m rest _ _. repeat constructor. exact H32.
  - intros n Hn. discriminate Hn.
  - apply removeAll_Forall. apply removeAll_Forall.
    apply replaceStart_Forall. exact Ht.
Qed.

(** The pieces of a split are made of characters of the text. *)
Lemma split_from_Forall (P : char -> Prop) (s : jsstring) :
  Forall P s ->
  forall prev skip, Forall (Forall P) (split_from prev skip s).
Proof.
  induction 1 as [|c s Hc Hs IH]; intros prev skip.
  - repeat constructor.
  - destruct skip as [|k]; [|apply IH].
    rewrite split_from_0.
    assert (Hcons : Forall (Forall P) (consHead c (split_from (Some c) 0 s))).
    { specialize (IH (Some c) 0).
      destruct (split_from (Some c) 0 s) as [|p ps]; simpl.
      - repeat constructor. exact Hc.
      - inversion IH; subst. constructor; [constructor; assumption|assumption]. }
    destruct (if lookbehind isTerminator prev
              then matchHere [plus isSpace] (c :: s) else None) as [[|k]|];
      try exact Hcons.
    constructor; [constructor|apply IH].
Qed.

(** The sentence cleaner keeps a property of characters that the space
    has and that capitalisation keeps. *)
Lemma cleanSentence_Forall (P : char -> Prop) (s : jsstring) :
  P 32%N -> (forall c, isLower c = true -> P c -> P (toUpperCase c)) ->
  Forall P s -> Forall P (cleanSentence s).
Proof.
  intros H32 Hup Hs.
  rewrite cleanSentence_in_four_steps. unfold cleanSentenceInFourSteps.
  apply trim_Forall.
  apply (@replaceAll_Forall _ _ P P).
  { intros c s' H _. exact H. }
  { intros c s' H _. exact H. }
  { intros m rest H Hm. apply Matches_punct_space in H.
    destruct H as (c & w & -> & _ & _). inversion Hm; subst.
    simpl. repeat constructor; assumption. }
  { intros n _. repeat constructor. exact H32. }
  apply (@replaceAll_Forall _ _ P P).
  { intros c s' H _. exact H. }
  { intros c s' H _. exact H. }
  { intros m rest H Hm. apply Matches_space_punct in H.
    destruct H as (w & c & -> & _ & _). rewrite lastChar_snoc.
    apply Forall_app in Hm. tauto. }
  { intros n _. constructor. }
  apply (@replaceAll_Forall _ _ P P).
  { intros c s' H _. exact H. }
  { intros c s' H _. exact H. }
  { intros m rest _ _. repeat constructor. exact H32. }
  { intros n _. repeat constructor. exact H32. }
  fold (capitalize s).
  destruct (capitalize_cases s) as [->|(c & s' & -> & Hc & ->)]; [exact Hs|].
  inversion Hs; subst. constructor; [apply Hup; assumption|assumption].
Qed.

Lemma processedSentences_Forall (P : char -> Prop) (cleaned : jsstring) :
  P 32%N -> (forall c, isLower c = true -> P c -> P (toUpperCase c)) ->
  Forall P cleaned -> Forall (Forall P) (processedSentences cleaned).
Proof.
  intros H32 Hup Hc. unfold processedSentences, sentences.
  apply Forall_forall. intros s Hs.
  apply in_map_iff in Hs. destruct Hs as (s0 & <- & Hs0).
  apply filter_In in Hs0. destruct Hs0 as [Hs0 _].
  apply in_map_iff in Hs0. destruct Hs0 as (s1 & <- & Hs1).
  apply cleanSentence_Forall; [exact H32|exact Hup|].
  apply trim_Forall.
  pose proof (split_from_Forall P cleaned Hc None 0) as H.
  rewrite Forall_forall in H. apply H. exact Hs1.
Qed.

Lemma allowed_upper (c : char) :
  isLower c = true -> isAllowed c = true -> isAllowed (toUpperCase c) = true.
Proof.
  intros Hc _. unfold isAllowed, isAlpha.
  rewrite (@upper_of_lower c Hc). rewrite orb_true_r. reflexivity.
Qed.

(** X3. The cleaned document is made of line feeds, plain spaces and the
    characters of the allowed set of line 224 that are not white space:
    nothing else, whatever the input holds. *)
Theorem X3_cleanTextLocally_alphabet :
  forall text : jsstring,
    Forall (fun c => documentChar c = true) (cleanTextLocally text).
Proof.
  intros text. unfold cleanTextLocally.
  apply join_Forall; [repeat constructor|].
  unfold finalParagraphs. apply Forall_forall. intros p Hp.
  apply in_map_iff in Hp. destruct Hp as (q & <- & Hq).
  apply filter_In in Hq. destruct Hq as [Hq _].
  apply trim_Forall.
  assert (H : Forall (Forall (fun c => isAllowed c = true /\ plainSpaced c))
                (composeParagraphs (processedSentences (cleaned text)))).
  { apply composeParagraphs_Forall; [split; [reflexivity|intros _; reflexivity]|].
    pose proof (@processedSentences_Forall (fun c => isAllowed c = true)
                  (cleaned text) eq_refl allowed_upper (cleaned_allowed text)) as Ha.
    rewrite Forall_forall in Ha |- *. intros s Hs.
    assert (Hpl : Forall plainSpaced s).
    { unfold processedSentences in Hs. apply in_map_iff in Hs.
      destruct Hs as (s0 & <- & _). apply cleanSentence_plainSpaced. }
    specialize (Ha s Hs). rewrite Forall_forall in Ha, Hpl |- *.
    intros c Hc. split; [apply Ha|apply Hpl]; exact Hc. }
  rewrite Forall_forall in H. specialize (H q Hq).
  rewrite Forall_forall in H |- *. intros c Hc.
  destruct (H c Hc) as [Hal Hpl]. unfold documentChar.
  destruct (isSpace c) eqn:Hsp.
  - rewrite (Hpl Hsp). reflexivity.
  - rewrite Hal. simpl. apply orb_true_r.
Qed.

(** X4. A text without an ASCII letter is cleaned to the empty string:
    line 243 drops every sentence of it. *)
Theorem X4_cleanTextLocally_without_letters :
  forall text : jsstring,
    Forall (fun c => isAlpha c = false) text -> cleanTextLocally text = [].
Proof.
  intros text Ht.
  assert (Hnone : processedSentences (cleaned text) = []).
  { destruct (processedSentences (cleaned text)) as [|s ss] eqn:Hp; [reflexivity|].
    exfalso.
    assert (Hin : In s (processedSentences (cleaned text)))
      by (rewrite Hp; left; reflexivity).
    unfold processedSentences in Hin. apply in_map_iff in Hin.
    destruct Hin as (s0 & _ & Hs0). apply filter_In in Hs0.
    destruct Hs0 as [Hs0 Hkeep].
    apply keepSentence_letter in Hkeep. destruct Hkeep as (c & Hc & Hal).
    apply in_map_iff in Hs0. destruct Hs0 as (s1 & <- & Hs1).
    assert (Hcl : Forall (fun c => isAlpha c = false) (cleaned text))
      by (apply cleaned_Forall; try reflexivity; exact Ht).
    pose proof (split_from_Forall _ _ Hcl None 0) as Hsp.
    rewrite Forall_forall in Hsp. specialize (Hsp s1 Hs1).
    apply (@trim_Forall (fun c => isAlpha c = false) s1) in Hsp.
    rewrite Forall_forall in Hsp. rewrite (Hsp c Hc) in Hal. discriminate. }
  unfold cleanTextLocally. rewrite Hnone. reflexivity.
Qed.

Lemma X4_cleanTextLocally_without_letters_witness :
  cleanTextLocally (str "12:30 - 45.6 (7)") = [].
Proof.
  apply X4_cleanTextLocally_without_letters.
  vm_compute. repeat constructor.
Defined.

(** ** Sentences *)

(** The segmenter drops white space only. *)
Lemma split_from_visible (s : jsstring) :
  forall prev skip,
    Forall (fun c => isSpace c = true) (firstn skip s) ->
    visible (concat (split_from prev skip s)) = visible s.
Proof.
  induction s as [|c s IH]; intros prev skip Hskip; [reflexivity|].
  destruct skip as [|k].
  - rewrite split_from_0.
    assert (Hcons : visible (concat (consHead c (split_from (Some c) 0 s)))
                    = visible (c :: s)).
    { specialize (IH (Some c) 0 ltac:(constructor)).
      destruct (split_from (Some c) 0 s) as [|p ps]; simpl in *.
      - rewrite <- IH. destruct (notSpace c); reflexivity.
      - unfold visible in *. simpl. rewrite <- IH.
        destruct (notSpace c); reflexivity. }
    destruct (lookbehind isTerminator prev); [|exact Hcons].
    rewrite matchHere_plus. simpl takeWhile.
    destruct (isSpace c) eqn:Hc; [|exact Hcons].
    simpl length. simpl concat.
    rewrite IH.
    + unfold visible. simpl. unfold notSpace. rewrite Hc. reflexivity.
    + destruct (@firstn_takeWhile isSpace (length (takeWhile isSpace s)) s
                  (le_n _)) as [H _]. exact H.
  - simpl firstn in Hskip. inversion Hskip as [|? ? Hc Hk]; subst.
    simpl split_from. rewrite (IH (Some c) k Hk).
    unfold visible. simpl. unfold notSpace. rewrite Hc. reflexivity.
Qed.

(** X5. Splitting into sentences loses white space only, and gives at
    least one sentence. *)
Theorem X5_sentences_drop_white_space_only :
  forall cleaned : jsstring,
    visible (concat (sentences cleaned)) = visible cleaned
    /\ sentences cleaned <> [].
Proof.
  intros cleaned. split.
  - apply split_from_visible. constructor.
  - apply split_from_nonempty.
Qed.

(** X6. The sentence cleaner changes white space only, apart from the
    capital it gives to a leading lower-case letter; the white space it
    leaves is plain spaces. *)
Theorem X6_cleanSentence_changes_white_space_only :
  forall sentence : jsstring,
    visible (cleanSentence sentence) = visible (capitalize sentence)
    /\ Forall plainSpaced (cleanSentence sentence).
Proof.
  intros sentence. split.
  - apply cleanSentence_visible.
  - apply cleanSentence_plainSpaced.
Qed.

Lemma dropWhile_head (p : char -> bool) (s : jsstring) (c : char) (t : jsstring) :
  dropWhile p s = c :: t -> p c = false.
Proof.
  induction s as [|a s IH]; simpl; [discriminate|].
  destruct (p a) eqn:Ha; [exact IH|]. intros [= <- _]. exact Ha.
Qed.

Lemma trimEnd_head (s : jsstring) (c : char) (t : jsstring) :
  trimEnd s = c :: t -> exists t', s = c :: t'.
Proof.
  unfold trimEnd. intros H.
  assert (Hsuf : exists w, rev s = w ++ dropWhile isSpace (rev s)).
  { generalize (rev s). intros l. induction l as [|a l [w IH]]; simpl.
    - exists []. reflexivity.
    - destruct (isSpace a).
      + exists (a :: w). simpl. rewrite <- IH. reflexivity.
      + exists []. reflexivity. }
  destruct Hsuf as [w Hw].
  apply (f_equal (@rev char)) in Hw. rewrite rev_involutive, rev_app_distr, H in Hw.
  exists (t ++ rev w). rewrite Hw. reflexivity.
Qed.

Lemma trim_head (s : jsstring) (c : char) (t : jsstring) :
  trim s = c :: t -> isSpace c = false.
Proof.
  unfold trim, trimStart. intros H. apply trimEnd_head in H.
  destruct H as [t' H]. exact (dropWhile_head _ _ _ _ H).
Qed.

Lemma visible_head (c : char) (t : jsstring) :
  isSpace c = false -> visible (c :: t) = c :: visible t.
Proof. intros H. unfold visible. simpl. unfold notSpace. rewrite H. reflexivity. Qed.

(** X7. Every sentence that reaches the composer has a first character,
    which is neither white space nor a lower-case ASCII letter, and
    holds a letter. *)
Theorem X7_processedSentences_never_start_lower_case :
  forall cleaned : jsstring,
    Forall (fun s => exists c t,
                s = c :: t /\ isSpace c = false /\ isLower c = false
                /\ exists letter, In letter s /\ isAlpha letter = true)
      (processedSentences cleaned).
Proof.
  intros cleaned. apply Forall_forall. intros s Hs.
  pose proof (processedSentences_nonBlank cleaned) as Hnb.
  rewrite Forall_forall in Hnb. specialize (Hnb s Hs).
  unfold processedSentences in Hs. apply in_map_iff in Hs.
  destruct Hs as (s0 & <- & Hs0). apply filter_In in Hs0.
  destruct Hs0 as [Hs0 Hkeep].
  apply in_map_iff in Hs0. destruct Hs0 as (s1 & <- & _).
  pose proof (@keepSentence_letter _ Hkeep) as Hletter.
  (* the result is trimmed *)
  assert (Htrim : exists x, cleanSentence (trim s1) = trim x).
  { unfold cleanSentence. eexists. reflexivity. }
  destruct Htrim as [x Hx].
  destruct (cleanSentence (trim s1)) as [|c t] eqn:Hcs.
  { exfalso. apply Hnb. reflexivity. }
  symmetry in Hx. pose proof (trim_head _ _ _ Hx) as Hc.
  exists c, t. split; [reflexivity|]. split; [exact Hc|].
  pose proof (cleanSentence_visible (trim s1)) as Hv.
  rewrite Hcs, (visible_head c t Hc) in Hv.
  split.
  - destruct (trim s1) as [|c0 t0] eqn:Hs1.
    { destruct Hletter as (l & [] & _). }
    pose proof (trim_head _ _ _ Hs1) as Hc0.
    destruct (capitalize_cases (c0 :: t0)) as [Heq|(c1 & s' & Heq & Hlow & Hcap)].
    + rewrite Heq, (visible_head c0 t0 Hc0) in Hv. injection Hv as -> _.
      unfold capitalize, replaceStart in Heq. simpl in Heq.
      destruct (isLower c0) eqn:Hl0; [|reflexivity].
      simpl in Heq. injection Heq as Heq.
      unfold toUpperCase in Heq. rewrite Hl0 in Heq.
      unfold isLower, inRange in Hl0. rewrite andb_true_iff, !N.leb_le in Hl0. lia.
    + injection Heq as <- <-. rewrite Hcap in Hv.
      pose proof (@upper_of_lower c0 Hlow) as Hup.
      assert (Hsp : isSpace (toUpperCase c0) = false).
      { apply (@alpha_notSpace (toUpperCase c0)). unfold isAlpha. rewrite Hup. apply orb_true_r. }
      rewrite (visible_head _ t0 Hsp) in Hv. injection Hv as -> _.
      unfold isUpper, isLower, inRange in *.
      rewrite andb_true_iff, !N.leb_le in Hup.
      apply andb_false_iff. rewrite !N.leb_gt. lia.
  - assert (Hl : exists l, In l (visible (c :: t)) /\ isAlpha l = true).
    { rewrite (visible_head c t Hc), Hv.
      destruct (@capitalize_letter _ Hletter) as (l & Hin & Hal).
      exists l. split; [|exact Hal]. apply filter_In. split; [exact Hin|].
      unfold notSpace. rewrite (@alpha_notSpace _ Hal). reflexivity. }
    destruct Hl as (l & Hin & Hal). exists l. split; [|exact Hal].
    apply filter_In in Hin. tauto.
Qed.

(** ** Short sentences *)

Lemma short_sentences_compose (ss : list jsstring) :
  Forall (fun s => length s < 30) ss ->
  composes [] ss ss /\ forall x, composes [x] ss (x :: ss).
Proof.
  induction 1 as [|s ss Hs Hss [IH0 IH1]].
  - split; [constructor|]. intros x.
    apply (@composes_final [x]). discriminate.
  - split.
    + apply composes_append; [intros [Hne _]; apply Hne; reflexivity|].
      apply IH1.
    + intros x.
      apply (@composes_flush [x] s ss (s :: ss)); [|apply IH1].
      split; [discriminate|]. right. right. left. exact Hs.
Qed.

(** X8. Sentences shorter than 30 characters are never joined: each is a
    paragraph by itself. *)
Theorem X8_composeParagraphs_short_sentences :
  forall ss : list jsstring,
    Forall nonBlank ss -> Forall (fun s => length s < 30) ss ->
    composeParagraphs ss = ss.
Proof.
  intros ss Hnb Hshort.
  apply (@composes_functional [] ss).
  - apply composeParagraphs_composes. exact Hnb.
  - apply short_sentences_compose. exact Hshort.
Qed.

Lemma X8_composeParagraphs_short_sentences_witness :
  composeParagraphs [str "Hello there."; str "Bye now."]
  = [str "Hello there."; str "Bye now."].
Proof.
  apply X8_composeParagraphs_short_sentences.
  - repeat constructor; vm_compute; discriminate.
  - repeat constructor; vm_compute; lia.
Defined.

(** ** The last two steps of [cleanTextLocally] *)

Lemma trim_last (s : jsstring) : lastNonSpace (trim s) = true.
Proof.
  unfold trim, trimEnd. generalize (trimStart s). intros d.
  destruct (dropWhile isSpace (rev d)) as [|c t] eqn:E; [reflexivity|].
  pose proof (dropWhile_head _ _ _ _ E) as Hc. simpl.
  rewrite lastNonSpace_app; [simpl; rewrite Hc; reflexivity|discriminate].
Qed.

(** A processed sentence begins and ends with a character that is no
    white space. *)
Lemma processedSentences_edges (cleaned : jsstring) :
  Forall (fun s => (exists c t, s = c :: t /\ isSpace c = false)
                   /\ lastNonSpace s = true)
    (processedSentences cleaned).
Proof.
  apply Forall_forall. intros s Hs.
  pose proof (processedSentences_nonBlank cleaned) as Hnb.
  rewrite Forall_forall in Hnb. specialize (Hnb s Hs).
  unfold processedSentences in Hs. apply in_map_iff in Hs.
  destruct Hs as (s0 & <- & _).
  assert (Htrim : exists x, cleanSentence s0 = trim x).
  { unfold cleanSentence. eexists. reflexivity. }
  destruct Htrim as [x Hx]. rewrite Hx in *. split; [|apply trim_last].
  destruct (trim x) as [|c t] eqn:E.
  - exfalso. apply Hnb. reflexivity.
  - exists c, t. split; [reflexivity|exact (trim_head _ _ _ E)].
Qed.

Lemma composeParagraphs_trimmed (ss : list jsstring) :
  Forall (fun s => (exists c t, s = c :: t /\ isSpace c = false)
                   /\ lastNonSpace s = true) ss ->
  Forall (fun p => trim p = p /\ p <> []) (composeParagraphs ss).
Proof.
  intros Hss.
  destruct (composeParagraphs_groups ss) as (groups & tail & -> & Hg & Hc & _).
  apply Forall_forall. intros p Hp.
  apply in_map_iff in Hp. destruct Hp as (g & <- & Hin).
  rewrite Forall_forall in Hg. specialize (Hg g Hin).
  assert (Hne : g <> []) by (destruct g; simpl in Hg; [lia|discriminate]).
  assert (Hall : forall s, In s g ->
                   (exists c t, s = c :: t /\ isSpace c = false)
                   /\ lastNonSpace s = true).
  { intros s Hs. rewrite Forall_forall in Hss. apply Hss.
    exact (@in_concat_prefix _ groups tail ss isNonBlank g s Hc Hin Hs). }
  assert (Hheads : headsOk g).
  { apply Forall_forall. intros s Hs. exact (proj1 (Hall s Hs)). }
  assert (Hlasts : Forall (fun s => lastNonSpace s = true) g).
  { apply Forall_forall. intros s Hs. exact (proj2 (Hall s Hs)). }
  assert (HG : Glued g (join (str " ") g)).
  { apply Glued_join; [exact Hne|discriminate|repeat constructor]. }
  split.
  - apply trim_id.
    + exact (Glued_head_notSpace g _ HG Hheads).
    + exact (Glued_lastNonSpace g _ HG Hheads Hlasts).
  - intros E. destruct g as [|s g']; [congruence|].
    destruct (proj1 (Hall s (or_introl eq_refl))) as (c & t & Hs & _).
    destruct (Glued_head _ _ HG s g' eq_refl c t Hs) as [t' Ht'].
    rewrite Ht' in E. discriminate.
Qed.

(** X9. The last two steps never change the paragraphs: no paragraph of
    the composer is empty or has white space at its edges, so that the
    filter of line 291 keeps every paragraph and the trim of line 292
    leaves it as it is. *)
Theorem X9_final_filter_and_trim_are_idle :
  forall text : jsstring,
    finalParagraphs (composeParagraphs (processedSentences (cleaned text)))
    = composeParagraphs (processedSentences (cleaned text))
    /\ cleanTextLocally text
       = join blankLine (composeParagraphs (processedSentences (cleaned text))).
Proof.
  intros text.
  assert (H : finalParagraphs (composeParagraphs (processedSentences (cleaned text)))
              = composeParagraphs (processedSentences (cleaned text))).
  { apply finalParagraphs_fixed, composeParagraphs_trimmed,
      processedSentences_edges. }
  split; [exact H|]. unfold cleanTextLocally. rewrite H. reflexivity.
Qed.

(** ** The blocks that are kept, and their combined text *)

(** X10. The filter and the sort return the blocks that pass the filter,
    each as often as it passes: none is invented, lost or repeated.
    Each has at least three characters between its edges, and a
    letter. *)
Theorem X10_processedBlocks_are_the_kept_blocks :
  forall blocks : list TextBlock,
    Permutation (filter keepBlock blocks) (processedBlocks blocks)
    /\ Forall (fun b => 3 <= length (trim (text b))
                        /\ exists c, In c (text b) /\ isAlpha c = true)
         (processedBlocks blocks).
Proof.
  intros blocks. split; [apply sortBy_perm|].
  apply Forall_forall. intros b Hb.
  assert (Hin : In b (filter keepBlock blocks)).
  { apply (Permutation_in b (Permutation_sym (sortBy_perm compareBlocks _))).
    exact Hb. }
  apply filter_In in Hin. destruct Hin as [_ Hkeep].
  unfold keepBlock in Hkeep.
  destruct (length (trim (text b)) <? 3)%nat eqn:Hlen; [discriminate|].
  apply Nat.ltb_ge in Hlen. split; [exact Hlen|].
  destruct (testStart [Rep isUpperOrSpace 1 (Some 5); Eos] (trim (text b)));
    [discriminate|].
  destruct (confidence b <? 0.6)%float; [discriminate|].
  destruct (testStart [star (fun c => negb (isAlpha c)); Eos] (trim (text b)))
    eqn:Hm; [discriminate|].
  unfold testStart in Hm.
  destruct (matchHere [star (fun c => negb (isAlpha c)); Eos] (trim (text b)))
    eqn:Hm'; [discriminate|].
  destruct (letter_or_none (trim (text b))) as [Hall|(c & Hc & Hal)].
  - exfalso. rewrite <- (app_nil_r (trim (text b))) in Hm'.
    apply (@matchHere_none _ _ _ Hm').
    unfold star. rewrite <- (app_nil_r (trim (text b))) at 1.
    constructor; [exact Hall|lia|exact I|]. constructor. constructor.
  - exists c. split; [|exact Hal].
    assert (Hv : In c (visible (trim (text b)))).
    { apply filter_In. split; [exact Hc|].
      unfold notSpace. rewrite (@alpha_notSpace _ Hal). reflexivity. }
    rewrite visible_trim in Hv. apply filter_In in Hv. tauto.
Qed.

Lemma matchHere_ignoring_case (l t : jsstring) :
  matchHere
    (map (fun x => One (fun c => (toUpperCase c =? toUpperCase x)%N)) l ++ [Eos]) t
  <> None
  <-> sameIgnoringCase t l.
Proof.
  unfold sameIgnoringCase. revert t.
  induction l as [|x l IH]; intros t; simpl.
  - destruct t as [|c t]; simpl; split; congruence.
  - destruct t as [|c t]; simpl; [split; congruence|].
    destruct (N.eqb_spec (toUpperCase c) (toUpperCase x)) as [E|E].
    + specialize (IH t).
      destruct (matchHere
                  (map (fun x => One (fun c => (toUpperCase c =? toUpperCase x)%N)) l
                   ++ [Eos]) t) as [n|]; simpl.
      * split; [intros _|discriminate]. f_equal; [exact E|].
        apply IH. discriminate.
      * split; [congruence|]. intros [= _ H]. apply IH in H. congruence.
    + split; [congruence|]. intros [= H _]. congruence.
Qed.

Lemma isNavLabel_ignores_case :
  forall text : jsstring,
    isNavLabel text = true
    <-> exists label, In label navLabelNames /\ sameIgnoringCase text (str label).
Proof.
  intros text. unfold isNavLabel.
  change navAlternatives with (map lit_i navLabelNames).
  rewrite existsb_exists. split.
  - intros (alt & Hin & Hm). apply in_map_iff in Hin.
    destruct Hin as (label & <- & Hl). exists label. split; [exact Hl|].
    apply matchHere_ignoring_case. unfold testStart, lit_i in Hm.
    destruct (matchHere _ text); [discriminate|discriminate].
  - intros (label & Hl & Hs). exists (lit_i label).
    split; [apply in_map; exact Hl|].
    apply matchHere_ignoring_case in Hs. unfold testStart, lit_i.
    destruct (matchHere _ text); [reflexivity|congruence].
Qed.

(** X11. The test of line 310 holds of the twelve navigation labels in any
    mixture of upper and lower case, and of nothing else; a block whose
    trimmed text passes it is dropped. *)
Theorem X11_keepBlock_drops_navigation_labels :
  forall b : TextBlock,
    (isNavLabel (trim (text b)) = true
     <-> exists label, In label navLabelNames
                       /\ sameIgnoringCase (trim (text b)) (str label))
    /\ (isNavLabel (trim (text b)) = true -> keepBlock b = false).
Proof.
  intros b. split; [apply isNavLabel_ignores_case|].
  intros H. unfold keepBlock. rewrite H.
  destruct (length (trim (text b)) <? 3)%nat; [reflexivity|].
  destruct (testStart [Rep isUpperOrSpace 1 (Some 5); Eos] (trim (text b)));
    [reflexivity|].
  destruct (confidence b <? 0.6)%float; [reflexivity|].
  destruct (testStart [star (fun c => negb (isAlpha c)); Eos] (trim (text b)));
    reflexivity.
Qed.

Lemma singleSpaced_cons (a : char) (t : jsstring) :
  singleSpaced t = true ->
  (isSpace a = true -> forall b u, t = b :: u -> isSpace b = false) ->
  singleSpaced (a :: t) = true.
Proof.
  intros Ht Ha. destruct t as [|b u]; [reflexivity|].
  change (negb (isSpace a && isSpace b) && singleSpaced (b :: u) = true).
  rewrite Ht, andb_true_r.
  destruct (isSpace a) eqn:Hsa; [|reflexivity].
  rewrite (Ha eq_refl b u eq_refl). reflexivity.
Qed.

Lemma singleSpaced_tail (a : char) (t : jsstring) :
  singleSpaced (a :: t) = true -> singleSpaced t = true.
Proof.
  destruct t as [|b u]; [reflexivity|].
  change (negb (isSpace a && isSpace b) && singleSpaced (b :: u) = true
          -> singleSpaced (b :: u) = true).
  rewrite andb_true_iff. tauto.
Qed.

(** After line 324 no white space is next to white space, and the
    result begins with white space only where the input does. *)
Lemma collapse_singleSpaced (s : jsstring) :
  singleSpaced (replaceAll [plus isSpace] (always (str " ")) s) = true
  /\ (forall c o, replaceAll [plus isSpace] (always (str " ")) s = c :: o ->
        isSpace c = true -> exists c' s', s = c' :: s' /\ isSpace c' = true).
Proof.
  apply (@replaceAll_ind [plus isSpace] (always (str " "))
           (fun s out =>
              singleSpaced out = true
              /\ (forall c o, out = c :: o -> isSpace c = true ->
                    exists c' s', s = c' :: s' /\ isSpace c' = true))).
  - simpl. split; [reflexivity|]. intros c o H. discriminate.
  - intros c s' Hm [IH1 IH2]. apply unmatched_space in Hm. split.
    + apply singleSpaced_cons; [exact IH1|]. intros H. congruence.
    + intros c0 o [= <- _] H. congruence.
  - intros c s' Hm _. exfalso. exact (matchHere_plus_not_zero _ _ _ Hm).
  - intros c m rest HM Hm [IH1 IH2].
    apply Matches_spaces in HM. destruct HM as [Hsp _].
    rewrite matchHere_plus in Hm.
    assert (Hrest : forall b u, rest = b :: u -> isSpace b = false).
    { intros b u ->. destruct (isSpace b) eqn:Hb; [|reflexivity]. exfalso.
      assert (Hall : Forall (fun c => isSpace c = true) ((c :: m) ++ [b])).
      { apply Forall_app. split; [exact Hsp|repeat constructor; exact Hb]. }
      pose proof (@takeWhile_longest isSpace ((c :: m) ++ [b]) u Hall) as Hlen.
      rewrite <- app_assoc in Hlen. simpl in Hlen.
      rewrite length_app in Hlen. simpl in Hlen.
      simpl in Hm. inversion Hsp as [|? ? Hc _]; subst. rewrite Hc in Hm, Hlen.
      simpl in Hm, Hlen. injection Hm as Hm. lia. }
    split.
    + change (always (str " ") (c :: m) ++ replaceAll [plus isSpace] (always (str " ")) rest)
        with (32%N :: replaceAll [plus isSpace] (always (str " ")) rest).
      apply singleSpaced_cons; [exact IH1|].
      intros _ b u Hout.
      destruct (isSpace b) eqn:Hb; [|reflexivity]. exfalso.
      destruct (IH2 b u Hout Hb) as (c' & s' & -> & Hc').
      rewrite (Hrest c' s' eq_refl) in Hc'. discriminate.
    + intros c0 o _ _. exists c, (m ++ rest). split; [reflexivity|].
      inversion Hsp; assumption.
Qed.

Lemma singleSpaced_dropWhile (p : char -> bool) (s : jsstring) :
  singleSpaced s = true -> singleSpaced (dropWhile p s) = true.
Proof.
  induction s as [|a s IH]; [reflexivity|]. intros H. simpl.
  destruct (p a); [apply IH; exact (singleSpaced_tail a s H)|exact H].
Qed.

Lemma singleSpaced_snoc (s : jsstring) (a : char) :
  singleSpaced s = true ->
  (isSpace a = true -> forall u b, s = u ++ [b] -> isSpace b = false) ->
  singleSpaced (s ++ [a]) = true.
Proof.
  induction s as [|x s IH]; intros Hs Ha; [reflexivity|].
  simpl app. apply singleSpaced_cons.
  - apply IH; [exact (singleSpaced_tail x s Hs)|].
    intros Hsa u b ->. apply (Ha Hsa (x :: u) b). reflexivity.
  - intros Hx b u Heq. destruct s as [|y s].
    + simpl in Heq. injection Heq as E1 E2. subst b u.
      destruct (isSpace a) eqn:Hb; [|reflexivity].
      rewrite (Ha eq_refl [] x eq_refl) in Hx. discriminate.
    + simpl in Heq. injection Heq as E1 E2. subst b u.
      change (negb (isSpace x && isSpace y) && singleSpaced (y :: s) = true) in Hs.
      rewrite andb_true_iff, negb_true_iff, andb_false_iff in Hs.
      destruct (isSpace y); [|reflexivity].
      destruct Hs as [[Hs|Hs] _]; congruence.
Qed.

Lemma singleSpaced_rev (s : jsstring) :
  singleSpaced s = true -> singleSpaced (rev s) = true.
Proof.
  induction s as [|a s IH]; [reflexivity|]. intros H. simpl.
  apply singleSpaced_snoc; [apply IH; exact (singleSpaced_tail a s H)|].
  intros Ha u b Heq.
  destruct s as [|y s]; [destruct u; discriminate|].
  assert (Hb : y = b).
  { apply (f_equal (@rev char)) in Heq. rewrite rev_involutive, rev_app_distr in Heq.
    simpl in Heq. congruence. }
  subst y.
  change (negb (isSpace a && isSpace b) && singleSpaced (b :: s) = true) in H.
  rewrite andb_true_iff, negb_true_iff, andb_false_iff in H.
  destruct H as [[H|H] _]; congruence.
Qed.

Lemma trim_singleSpaced (s : jsstring) :
  singleSpaced s = true -> singleSpaced (trim s) = true.
Proof.
  intros H. unfold trim, trimEnd, trimStart.
  apply singleSpaced_rev, singleSpaced_dropWhile, singleSpaced_rev,
    singleSpaced_dropWhile. exact H.
Qed.

(** X12. In the combined text the only white space is the plain space, no
    two spaces are neighbours, and the text neither begins nor ends with
    one. *)
Theorem X12_combinedText_is_single_spaced :
  forall processedBlocks : list TextBlock,
    let s := combinedText processedBlocks in
    Forall plainSpaced s
    /\ singleSpaced s = true
    /\ (forall c t, s = c :: t -> isSpace c = false)
    /\ lastNonSpace s = true.
Proof.
  intros pbs s. subst s. unfold combinedText.
  split; [apply trim_Forall, collapse_plainSpaced|].
  split; [apply trim_singleSpaced, collapse_singleSpaced|].
  split; [intros c t H; exact (trim_head _ _ _ H)|apply trim_last].
Qed.

(** ** What [analyzeFrame] and [cleanTextWithAI] do to the state *)

Lemma filterAndFormatBlocks_run (bs : list TextBlock) (st : ScreenReaderState) :
  exists v,
    filterAndFormatBlocks bs st = (Resolved (processedBlocks bs), v)
    /\ blocks v = blocks st /\ isLoading v = isLoading st
    /\ initError v = initError st.
Proof.
  unfold filterAndFormatBlocks, bind, effect, ret.
  destruct (truthy (combinedText (processedBlocks bs))); simpl;
    eexists; (split; [reflexivity|]); simpl; auto.
Qed.

(** X13. [analyzeFrame] never rejects and never touches the loading flag.
    It records [Worker not initialized] when the worker is missing and
    the message of the thrown [Error] when the recognition rejects; the
    recorded error is as before when the frame is empty or the
    recognition resolves. *)
Theorem X13_analyzeFrame_never_rejects :
  forall (workerReady frameEmpty : bool)
         (recognized : outcome (option TesseractData)) (isMounted : bool)
         (st : ScreenReaderState),
    let st' := snd (analyzeFrame workerReady frameEmpty recognized isMounted st) in
    fst (analyzeFrame workerReady frameEmpty recognized isMounted st) = Resolved tt
    /\ isLoading st' = isLoading st
    /\ initError st'
       = (if negb workerReady then Some (str "Worker not initialized")
          else if frameEmpty then initError st
          else match recognized with
               | Rejected error => Some (analysisMessage error)
               | Resolved _ => initError st
               end).
Proof.
  intros workerReady frameEmpty recognized isMounted st st'. subst st'.
  unfold analyzeFrame, tryCatch, bind, await, effect, ret, throw.
  destruct workerReady, frameEmpty; simpl; auto;
    destruct recognized as [[data|]|[m|]]; simpl; auto.
  destruct (truthy (data_text data) && isMounted); simpl; auto.
  destruct ((0 <? length (collectBlocks data))%nat && isMounted); simpl; auto.
  destruct (filterAndFormatBlocks_run (collectBlocks data) st)
    as (v & -> & _ & H2 & H3).
  simpl. auto.
Qed.

Lemma collectBlocks_madeOf (data : TesseractData) (b : TextBlock) :
  In b (collectBlocks data) -> madeOf data b.
Proof.
  unfold collectBlocks. intros H. apply in_flat_map in H.
  destruct H as (line & Hline & H). apply in_flat_map in H.
  destruct H as (word & Hword & H).
  destruct (truthy (trim (word_text word))) eqn:Ht; [|contradiction].
  destruct H as [<-|[]]. exists line, word.
  repeat split; try assumption.
  - intros E. rewrite E in Ht. discriminate.
  - simpl. destruct (word_bbox word); reflexivity.
Qed.

(** X14. [analyzeFrame] leaves the stored blocks as they are, or replaces
    them by blocks that pass the filter, each made of a recognised word
    whose text is not blank, with the confidence of the word divided by
    100; the latter only when the component is mounted and the result
    has a text. *)
Theorem X14_analyzeFrame_stores_kept_words_only :
  forall (workerReady frameEmpty : bool)
         (recognized : outcome (option TesseractData)) (isMounted : bool)
         (st : ScreenReaderState),
    let st' := snd (analyzeFrame workerReady frameEmpty recognized isMounted st) in
    blocks st' = blocks st
    \/ exists data,
         recognized = Resolved (Some data)
         /\ workerReady = true /\ frameEmpty = false /\ isMounted = true
         /\ data_text data <> []
         /\ blocks st' = processedBlocks (collectBlocks data)
         /\ Forall (fun b => keepBlock b = true /\ madeOf data b) (blocks st').
Proof.
  intros workerReady frameEmpty recognized isMounted st st'. subst st'.
  unfold analyzeFrame, tryCatch, bind, await, effect, ret, throw.
  destruct workerReady, frameEmpty; simpl; auto;
    destruct recognized as [[data|]|[m|]]; simpl; auto.
  destruct (truthy (data_text data)) eqn:Htext; simpl; auto.
  destruct isMounted; simpl; auto.
  destruct (0 <? length (collectBlocks data))%nat; simpl; auto.
  destruct (filterAndFormatBlocks_run (collectBlocks data) st)
    as (v & -> & _). simpl.
  right. exists data. repeat split; try reflexivity.
  - intros E. rewrite E in Htext. discriminate.
  - apply Forall_forall. intros b Hb.
    assert (Hin : In b (filter keepBlock (collectBlocks data))).
    { apply (Permutation_in b (Permutation_sym (sortBy_perm compareBlocks _))).
      exact Hb. }
    apply filter_In in Hin. destruct Hin as [Hin Hkeep].
    split; [exact Hkeep|apply collectBlocks_madeOf; exact Hin].
Qed.

(** X15. Whatever the remote call does, [cleanTextWithAI] ends with the
    loading flag off and every other cell as it was. *)
Theorem X15_cleanTextWithAI_clears_loading :
  forall (textGeneration : jsstring -> outcome (option TextGenerationOutput))
         (text : jsstring) (st : ScreenReaderState),
    snd (cleanTextWithAI textGeneration text st) = setIsLoading false st.
Proof.
  intros textGeneration text st.
  unfold cleanTextWithAI, tryFinally, tryCatch, bind, await, effect, ret.
  destruct (textGeneration (cleanupPrompt text)) as [[[[g|]]|]|e]; simpl;
    try reflexivity.
  destruct (truthy g); reflexivity.
Qed.

(** X16. Where the response carries a generated text that is not empty,
    [cleanTextWithAI] returns it without its leading and trailing white
    space (the empty string, when it is white space only). *)
Theorem X16_cleanTextWithAI_returns_trimmed_generated_text :
  forall (textGeneration : jsstring -> outcome (option TextGenerationOutput))
         (text generated : jsstring) (st : ScreenReaderState),
    textGeneration (cleanupPrompt text)
    = Resolved (Some (mkOutput (Some generated))) ->
    generated <> [] ->
    fst (cleanTextWithAI textGeneration text st) = Resolved (trim generated).
Proof.
  intros textGeneration text generated st H Hne.
  unfold cleanTextWithAI, tryFinally, tryCatch, bind, await, effect, ret.
  rewrite H. simpl. destruct generated; [congruence|reflexivity].
Qed.

Lemma X16_cleanTextWithAI_returns_trimmed_generated_text_witness :
  fst (cleanTextWithAI
         (fun _ => Resolved (Some (mkOutput (Some (str "  Clean text. ")))))
         (str "raw text") initialState)
  = Resolved (str "Clean text.").
Proof.
  apply (X16_cleanTextWithAI_returns_trimmed_generated_text
           (fun _ => Resolved (Some (mkOutput (Some (str "  Clean text. ")))))
           (str "raw text") (str "  Clean text. ") initialState).
  - reflexivity.
  - discriminate.
Defined.

(** ** The image filter *)

Lemma sums_all (P : Z -> bool) :
  forallb P sums = true -> forall s, (0 <= s <= 765)%Z -> P s = true.
Proof.
  intros H s Hs. rewrite forallb_forall in H. apply H.
  unfold sums. apply in_map_iff. exists (Z.to_nat s). split; [lia|].
  apply in_seq. lia.
Qed.

Lemma adjusted_sum (r g b : Z) :
  adjusted (Some r) (Some g) (Some b) = adjusted (Some (r + g + b)%Z) (Some 0%Z) (Some 0%Z).
Proof. unfold adjusted, sum3. rewrite !Z.add_0_r. reflexivity. Qed.

Lemma adjusted_greyLevel (r g b : Z) :
  isByte r -> isByte g -> isByte b ->
  adjusted (Some r) (Some g) (Some b) = greyLevel (r + g + b).
Proof.
  unfold isByte. intros Hr Hg Hb. rewrite adjusted_sum.
  apply Z.eqb_eq.
  apply (sums_all (fun s => (adjusted (Some s) (Some 0%Z) (Some 0%Z) =? greyLevel s)%Z));
    [vm_compute; reflexivity|lia].
Qed.

Lemma enhance_length (data : list Z) :
  length (enhanceImageForOCR data) = length data.
Proof.
  assert (H : forall n (d : list Z), (length d <= n)%nat ->
                length (enhanceImageForOCR d) = length d).
  { induction n as [|n IH]; intros d Hd.
    - destruct d; [reflexivity|simpl in Hd; lia].
    - destruct d as [|r [|g [|b [|a rest]]]]; try reflexivity.
      simpl. rewrite IH; [reflexivity|simpl in Hd; lia]. }
  apply (H (length data)). lia.
Qed.

Lemma pixelAt_S (r g b a : Z) (rest : list Z) (i : nat) :
  pixelAt (r :: g :: b :: a :: rest) (S i) = pixelAt rest i.
Proof.
  unfold pixelAt. replace (4 * S i)%nat with (S (S (S (S (4 * i))))) by lia.
  reflexivity.
Qed.

Lemma pixelAt_short (data : list Z) (i : nat) (p : Z * Z * Z * Z) :
  pixelAt data (S i) = Some p ->
  exists r g b a rest, data = r :: g :: b :: a :: rest.
Proof.
  unfold pixelAt. replace (4 * S i)%nat with (S (S (S (S (4 * i))))) by lia.
  destruct data as [|r [|g [|b [|a rest]]]]; try discriminate.
  intros _. repeat eexists.
Qed.

Lemma enhance_pixelAt (data : list Z) (i : nat) (r g b a : Z) :
  pixelAt data i = Some (r, g, b, a) ->
  let v := adjusted (Some r) (Some g) (Some b) in
  pixelAt (enhanceImageForOCR data) i = Some (v, v, v, a).
Proof.
  revert data. induction i as [|i IH]; intros data H.
  - destruct data as [|r' [|g' [|b' [|a' rest]]]]; try discriminate.
    injection H as -> -> -> ->. reflexivity.
  - destruct (pixelAt_short _ _ _ H) as (r' & g' & b' & a' & rest & ->).
    rewrite pixelAt_S in H.
    change (enhanceImageForOCR (r' :: g' :: b' :: a' :: rest))
      with (let v := adjusted (Some r') (Some g') (Some b') in
            v :: v :: v :: a' :: enhanceImageForOCR rest).
    cbv zeta. rewrite pixelAt_S. apply IH. exact H.
Qed.

Lemma pixelAt_In (data : list Z) (i : nat) (r g b a : Z) :
  pixelAt data i = Some (r, g, b, a) ->
  In r data /\ In g data /\ In b data /\ In a data.
Proof.
  unfold pixelAt. intros H.
  destruct (skipn (4 * i) data) as [|r' [|g' [|b' [|a' rest]]]] eqn:E;
    try discriminate.
  injection H as -> -> -> ->.
  assert (Hin : forall x, In x (r :: g :: b :: a :: rest) -> In x data).
  { intros x Hx. rewrite <- (firstn_skipn (4 * i) data), E.
    apply in_or_app. right. exact Hx. }
  repeat split; apply Hin; simpl; tauto.
Qed.

Lemma pixelAt_bytes (data : list Z) (i : nat) (r g b a : Z) :
  Forall isByte data -> pixelAt data i = Some (r, g, b, a) ->
  isByte r /\ isByte g /\ isByte b.
Proof.
  intros Hd H. apply pixelAt_In in H. rewrite Forall_forall in Hd.
  destruct H as (Hr & Hg & Hb & _). auto.
Qed.

Lemma greyLevel_facts :
  forall s, (0 <= s <= 765)%Z ->
    (0 <= greyLevel s <= 255)%Z /\
    (s < 384 -> greyLevel s <= 64)%Z /\
    (384 <= s -> 192 <= greyLevel s)%Z /\
    (510 <= s -> greyLevel s = 255)%Z /\
    (s < 765 -> greyLevel s <= greyLevel (s + 1))%Z.
Proof.
  intros s Hs.
  assert (H := sums_all
    (fun s => (0 <=? greyLevel s)%Z && (greyLevel s <=? 255)%Z
              && ((384 <=? s) || (greyLevel s <=? 64))%Z
              && ((s <? 384) || (192 <=? greyLevel s))%Z
              && ((s <? 510) || (greyLevel s =? 255))%Z
              && ((765 <=? s) || (greyLevel s <=? greyLevel (s + 1)))%Z)
    ltac:(vm_compute; reflexivity) s Hs).
  cbv beta in H.
  rewrite !andb_true_iff, !orb_true_iff in H.
  rewrite !Z.leb_le, !Z.ltb_lt, !Z.eqb_eq in H.
  destruct H as (((((H0 & H1) & H2) & H3) & H4) & H5).
  repeat split; try lia.
Qed.

Lemma greyLevel_monotone (s t : Z) :
  (0 <= s)%Z -> (s <= t)%Z -> (t <= 765)%Z -> (greyLevel s <= greyLevel t)%Z.
Proof.
  intros H0 Hst Ht.
  replace t with (s + Z.of_nat (Z.to_nat (t - s)))%Z by lia.
  assert (Hb : (s + Z.of_nat (Z.to_nat (t - s)) <= 765)%Z) by lia.
  induction (Z.to_nat (t - s)) as [|n IH].
  - rewrite Z.add_0_r. lia.
  - etransitivity; [apply IH; lia|].
    replace (s + Z.of_nat (S n))%Z with (s + Z.of_nat n + 1)%Z by lia.
    apply greyLevel_facts; lia.
Qed.

(** X17. [enhanceImageForOCR] keeps the length of the array, makes every
    pixel grey (red, green and blue equal) and leaves its alpha byte
    alone. *)
Theorem X17_enhanceImageForOCR_keeps_size_and_alpha :
  forall data : list Z,
    length (enhanceImageForOCR data) = length data
    /\ forall i r g b a,
         pixelAt data i = Some (r, g, b, a) ->
         exists v, pixelAt (enhanceImageForOCR data) i = Some (v, v, v, a).
Proof.
  intros data. split; [apply enhance_length|].
  intros i r g b a H. eexists. exact (enhance_pixelAt data i r g b a H).
Qed.

(** X18. The grey level that the binary64 computation of lines 461-462
    stores for a pixel is, in integer arithmetic, a sixth of the sum of
    its colour bytes when the sum is below 384, and half the sum, at
    most 255, otherwise; each rounded to the nearest integer, a tie
    going to the even one. *)
Theorem X18_enhanceImageForOCR_grey_level :
  forall (data : list Z) (i : nat) (r g b a : Z),
    Forall isByte data ->
    pixelAt data i = Some (r, g, b, a) ->
    pixelAt (enhanceImageForOCR data) i
    = Some (greyLevel (r + g + b), greyLevel (r + g + b),
            greyLevel (r + g + b), a).
Proof.
  intros data i r g b a Hd H.
  destruct (pixelAt_bytes data i r g b a Hd H) as (Hr & Hg & Hb).
  rewrite (enhance_pixelAt data i r g b a H).
  rewrite (adjusted_greyLevel r g b Hr Hg Hb). reflexivity.
Qed.

Lemma X18_enhanceImageForOCR_grey_level_witness :
  pixelAt (enhanceImageForOCR sampleImage) 1 = Some (192, 192, 192, 128)%Z.
Proof.
  apply (X18_enhanceImageForOCR_grey_level sampleImage 1 200 100 85 128).
  - unfold sampleImage, isByte. repeat constructor; lia.
  - reflexivity.
Defined.

(** X19. [enhanceImageForOCR] leaves no middle grey: a pixel whose average
    is below 128 gets a level of at most 64, any other pixel a level of
    at least 192, and 255 from an average of 170. *)
Theorem X19_enhanceImageForOCR_splits_dark_and_bright :
  forall (data : list Z) (i : nat) (r g b a : Z),
    Forall isByte data ->
    pixelAt data i = Some (r, g, b, a) ->
    exists v,
      pixelAt (enhanceImageForOCR data) i = Some (v, v, v, a)
      /\ (r + g + b < 384 -> 0 <= v <= 64)%Z
      /\ (384 <= r + g + b -> 192 <= v <= 255)%Z
      /\ (510 <= r + g + b -> v = 255)%Z.
Proof.
  intros data i r g b a Hd H.
  destruct (pixelAt_bytes data i r g b a Hd H) as (Hr & Hg & Hb).
  exists (adjusted (Some r) (Some g) (Some b)).
  split; [exact (enhance_pixelAt data i r g b a H)|].
  rewrite (adjusted_greyLevel r g b Hr Hg Hb). unfold isByte in *.
  destruct (greyLevel_facts (r + g + b)%Z) as (H0 & H1 & H2 & H3 & _); [lia|].
  repeat split; lia.
Qed.

Lemma X19_enhanceImageForOCR_splits_dark_and_bright_witness :
  exists v,
    pixelAt (enhanceImageForOCR sampleImage) 0 = Some (v, v, v, 255%Z)
    /\ (0 <= v <= 64)%Z.
Proof.
  destruct (X19_enhanceImageForOCR_splits_dark_and_bright sampleImage 0 10 20 30 255)
    as (v & Hv & Hdark & _).
  - unfold sampleImage, isByte. repeat constructor; lia.
  - reflexivity.
  - exists v. split; [exact Hv|apply Hdark; lia].
Defined.

(** X20. [enhanceImageForOCR] keeps the order of brightness: a pixel whose
    colour bytes sum to no more than those of another gets a grey level
    no higher. *)
Theorem X20_enhanceImageForOCR_keeps_brightness_order :
  forall (data : list Z) (i j : nat) (r g b a r' g' b' a' : Z),
    Forall isByte data ->
    pixelAt data i = Some (r, g, b, a) ->
    pixelAt data j = Some (r', g', b', a') ->
    (r + g + b <= r' + g' + b')%Z ->
    exists v v',
      pixelAt (enhanceImageForOCR data) i = Some (v, v, v, a)
      /\ pixelAt (enhanceImageForOCR data) j = Some (v', v', v', a')
      /\ (v <= v')%Z.
Proof.
  intros data i j r g b a r' g' b' a' Hd Hi Hj Hle.
  destruct (pixelAt_bytes data i r g b a Hd Hi) as (Hr & Hg & Hb).
  destruct (pixelAt_bytes data j r' g' b' a' Hd Hj) as (Hr' & Hg' & Hb').
  exists (adjusted (Some r) (Some g) (Some b)),
         (adjusted (Some r') (Some g') (Some b')).
  split; [exact (enhance_pixelAt data i r g b a Hi)|].
  split; [exact (enhance_pixelAt data j r' g' b' a' Hj)|].
  rewrite (adjusted_greyLevel r g b Hr Hg Hb), (adjusted_greyLevel r' g' b' Hr' Hg' Hb').
  unfold isByte in *. apply greyLevel_monotone; lia.
Qed.

Lemma X20_enhanceImageForOCR_keeps_brightness_order_witness :
  exists v v',
    pixelAt (enhanceImageForOCR sampleImage) 0 = Some (v, v, v, 255%Z)
    /\ pixelAt (enhanceImageForOCR sampleImage) 1 = Some (v', v', v', 128%Z)
    /\ (v <= v')%Z.
Proof.
  apply (X20_enhanceImageForOCR_keeps_brightness_order sampleImage 0 1
           10 20 30 255 200 100 85 128).
  - unfold sampleImage, isByte. repeat constructor; lia.
  - reflexivity.
  - reflexivity.
  - lia.
Defined.

(** ** The life cycle: what happens while a promise is pending *)

Lemma happen_frame (w : World) (e : event) :
  view (happen w e) = view w /\ isCapturing (happen w e) = isCapturing w
  /\ isAnalyzing (happen w e) = isAnalyzing w /\ videos (happen w e) = videos w.
Proof.
  destruct e as [|status]; simpl.
  - unfold cleanup. simpl. destruct (workerRef w); simpl; auto.
  - unfold logger. destruct (isMounted w); simpl; auto.
Qed.

Lemma events_frame (evs : list event) (w : World) :
  view (fold_left happen evs w) = view w
  /\ isCapturing (fold_left happen evs w) = isCapturing w
  /\ isAnalyzing (fold_left happen evs w) = isAnalyzing w
  /\ videos (fold_left happen evs w) = videos w.
Proof.
  revert w. induction evs as [|e evs IH]; intros w; simpl; [auto|].
  destruct (IH (happen w e)) as (H1 & H2 & H3 & H4).
  destruct (happen_frame w e) as (G1 & G2 & G3 & G4).
  repeat split; congruence.
Qed.

Lemma events_view (evs : list event) (w : World) :
  view (fold_left happen evs w) = view w.
Proof. apply events_frame. Qed.

(** While the component stays mounted, events change the status line only. *)
Lemma events_mounted (evs : list event) (w : World) :
  isMounted w = true -> ~ In Unmount evs ->
  exists status, fold_left happen evs w = setInitializationStatus status w.
Proof.
  revert w. induction evs as [|e evs IH]; intros w Hm Hq; simpl.
  - exists (initializationStatus w). destruct w; reflexivity.
  - destruct e as [|status]; [exfalso; apply Hq; left; reflexivity|].
    simpl. unfold logger. rewrite Hm.
    destruct (IH (setInitializationStatus status w)) as (s' & ->).
    + exact Hm.
    + intros H. apply Hq. right. exact H.
    + exists s'. reflexivity.
Qed.

Lemma events_mounted_status (evs : list event) (w : World) :
  isMounted w = true -> ~ In Unmount evs ->
  exists status,
    fold_left happen evs w = setInitializationStatus status w
    /\ (evs = [] -> status = initializationStatus w).
Proof.
  intros Hm Hq. destruct evs as [|e evs].
  - exists (initializationStatus w). split; [destruct w; reflexivity|reflexivity].
  - destruct (events_mounted (e :: evs) w Hm Hq) as (s & Hs).
    exists s. split; [exact Hs|discriminate].
Qed.

(** Once unmounted with no worker, nothing happens. *)
Lemma events_unmounted (evs : list event) (w : World) :
  isMounted w = false -> workerRef w = None -> fold_left happen evs w = w.
Proof.
  revert w. induction evs as [|e evs IH]; intros w Hm Hw; simpl; [reflexivity|].
  assert (H : happen w e = w).
  { destruct w; simpl in *; subst. destruct e; reflexivity. }
  rewrite H. apply IH; assumption.
Qed.

(** An unmount with no worker in the ref leaves the calls as they are. *)
Lemma events_unmount (evs : list event) (w : World) :
  In Unmount evs -> workerRef w = None ->
  exists status,
    fold_left happen evs w = setIsMounted false (setInitializationStatus status w).
Proof.
  revert w. induction evs as [|e evs IH]; intros w Hin Hw; [contradiction|].
  simpl. destruct e as [|status].
  - exists (initializationStatus w).
    assert (Hc : cleanup w = setIsMounted false w).
    { unfold cleanup. simpl. rewrite Hw. reflexivity. }
    change (happen w Unmount) with (cleanup w). rewrite Hc.
    rewrite events_unmounted; [destruct w; reflexivity|reflexivity|exact Hw].
  - destruct Hin as [Hin|Hin]; [discriminate|].
    simpl. unfold logger. destruct (isMounted w) eqn:Hm.
    + destruct (IH (setInitializationStatus status w) Hin Hw) as (s' & ->).
      exists s'. reflexivity.
    + destruct (IH w Hin Hw) as (s' & ->). exists s'. reflexivity.
Qed.

(** An unmount with a worker in the ref terminates the worker, once. *)
Lemma events_unmount_worker (evs : list event) (w : World) (worker : Worker) :
  In Unmount evs -> workerRef w = Some worker ->
  exists status,
    fold_left happen evs w
    = setIsMounted false
        (setWorkerRef None
           (called (Terminate worker) (setInitializationStatus status w))).
Proof.
  revert w. induction evs as [|e evs IH]; intros w Hin Hw; [contradiction|].
  simpl. destruct e as [|status].
  - exists (initializationStatus w).
    assert (Hc : cleanup w
                 = setWorkerRef None (called (Terminate worker) (setIsMounted false w))).
    { unfold cleanup. simpl. rewrite Hw. reflexivity. }
    change (happen w Unmount) with (cleanup w). rewrite Hc.
    rewrite events_unmounted; [destruct w; reflexivity|reflexivity|reflexivity].
  - destruct Hin as [Hin|Hin]; [discriminate|].
    simpl. unfold logger. destruct (isMounted w) eqn:Hm.
    + destruct (IH (setInitializationStatus status w) Hin Hw) as (s' & ->).
      exists s'. reflexivity.
    + destruct (IH w Hin Hw) as (s' & ->). exists s'. reflexivity.
Qed.

Lemma happen_calls (e : event) (w : World) :
  exists cs, calls (happen w e) = calls w ++ cs.
Proof.
  destruct e as [|status]; simpl.
  - unfold cleanup. simpl. destruct (workerRef w); simpl.
    + eexists. reflexivity.
    + exists []. rewrite app_nil_r. reflexivity.
  - unfold logger. exists []. rewrite app_nil_r.
    destruct (isMounted w); reflexivity.
Qed.

Lemma events_calls (evs : list event) (w : World) :
  exists cs, calls (fold_left happen evs w) = calls w ++ cs.
Proof.
  revert w. induction evs as [|e evs IH]; intros w; simpl.
  - exists []. rewrite app_nil_r. reflexivity.
  - destruct (IH (happen w e)) as (cs & ->).
    destruct (happen_calls e w) as (cs' & ->).
    exists (cs' ++ cs). rewrite app_assoc. reflexivity.
Qed.

Lemma messageOr_truthy (fallback : jsstring) (e : thrown) :
  truthy fallback = true -> truthy (messageOr fallback e) = true.
Proof.
  intros H. destruct e as [m|]; simpl; [|exact H].
  destruct (truthy m) eqn:Hm; [exact Hm|exact H].
Qed.

(** ** The life cycle: initialisation *)

(** X21. [initializeWorker] never rejects, whatever Tesseract does and
    whenever the component is unmounted. *)
Theorem X21_initializeWorker_always_resolves :
  forall (t : Tesseract) (w : World),
    fst (initializeWorker t w) = Resolved tt.
Proof.
  intros t w. unfold initializeWorker, languages, loadLanguages.
  run_code; reflexivity.
Qed.

Lemma initializeWorker_ready :
  forall (t : Tesseract) (worker : Worker) (w : World),
    isMounted w = true -> neverUnmounts t -> succeeds t worker ->
    let w' := snd (initializeWorker t w) in
    workerRef w' = Some worker
    /\ initializationStatus w' = str "Ready"
    /\ calls w' = calls w ++ [CreateWorker; LoadLanguage worker (str "eng");
                              LoadLanguage worker (str "kor");
                              Initialize worker (str "eng+kor")]
    /\ view w' = view w
    /\ isCapturing w' = isCapturing w
    /\ isAnalyzing w' = isAnalyzing w
    /\ videos w' = videos w
    /\ isMounted w' = true
    /\ buttonDisabled (render w') = false
    /\ buttonLabel (render w')
       = (if isCapturing w then str "Stop Capture" else str "Start Capture").
Proof.
  intros t worker w Hm (Hc & Hl & Hi & Ht) (Sc & Sl & Si) w'. subst w'.
  unfold staysMounted in *.
  assert (Se := Sl (str "eng") ltac:(left; reflexivity)).
  assert (Sk := Sl (str "kor") ltac:(right; left; reflexivity)).
  unfold initializeWorker, languages, loadLanguages.
  change (join (str "+") [str "eng"; str "kor"]) with (str "eng+kor").
  unfold tryCatchL, bindL, awaitL, effectL, readL, retL, throwL.
  rewrite Sc. cbv beta iota.
  settle_with events_mounted_status Hm. rewrite Hm. simpl. rewrite Se. 
  settle_with events_mounted_status Hm. rewrite Hm. simpl. rewrite Sk. 
  settle_with events_mounted_status Hm. rewrite Hm. simpl. rewrite Si.
  settle_with events_mounted_status Hm.
  rewrite <- !app_assoc. simpl.
  split; [reflexivity|]. split; [reflexivity|]. split; [reflexivity|].
  split; [reflexivity|]. split; [reflexivity|]. split; [reflexivity|].
  split; [reflexivity|]. split; [exact Hm|]. split; [reflexivity|].
  unfold render. simpl. destruct (isCapturing w); reflexivity.
Qed.

(** X22. Where every promise is fulfilled and the component stays mounted,
    [initializeWorker] creates the worker, loads English, then Korean,
    and initialises the worker with both; it terminates nothing, leaves
    the worker in the ref and the status [Ready], so that the button is
    enabled, and touches no other state. *)
Theorem X22_initializeWorker_success :
  forall (t : Tesseract) (worker : Worker) (w : World),
    isMounted w = true -> neverUnmounts t -> succeeds t worker ->
    let w' := snd (initializeWorker t w) in
    workerRef w' = Some worker
    /\ initializationStatus w' = str "Ready"
    /\ calls w' = calls w ++ [CreateWorker; LoadLanguage worker (str "eng");
                              LoadLanguage worker (str "kor");
                              Initialize worker (str "eng+kor")]
    /\ view w' = view w
    /\ isCapturing w' = isCapturing w
    /\ isAnalyzing w' = isAnalyzing w
    /\ videos w' = videos w
    /\ isMounted w' = true
    /\ buttonDisabled (render w') = false
    /\ buttonLabel (render w')
       = (if isCapturing w then str "Stop Capture" else str "Start Capture").
Proof. exact initializeWorker_ready. Qed.

Lemma tesseractOk_neverUnmounts : neverUnmounts tesseractOk.
Proof. unfold neverUnmounts, staysMounted. simpl. tauto. Qed.

Lemma tesseractOk_succeeds : succeeds tesseractOk 1.
Proof. unfold succeeds. simpl. auto. Qed.

Lemma X22_initializeWorker_success_witness :
  workerRef (snd (initializeWorker tesseractOk mountedWorld)) = Some 1
  /\ buttonDisabled (render (snd (initializeWorker tesseractOk mountedWorld)))
     = false.
Proof.
  destruct (X22_initializeWorker_success tesseractOk 1 mountedWorld)
    as (H1 & _ & _ & _ & _ & _ & _ & _ & H6 & _).
  - reflexivity.
  - unfold neverUnmounts, staysMounted. simpl. tauto.
  - unfold succeeds. simpl. auto.
  - split; [exact H1|exact H6].
Defined.

(** X23. Where a promise is rejected and the component stays mounted,
    [initializeWorker] records an error message that is not empty,
    empties the worker ref, so that the button is disabled, and
    terminates the worker if one was created, in which case the message
    says that the language initialisation failed.  The status is
    [Initialization failed] unless progress is reported while the
    worker terminates. *)
Theorem X23_initializeWorker_failure :
  forall (t : Tesseract) (w : World),
    isMounted w = true -> neverUnmounts t ->
    (forall worker, ~ succeeds t worker) ->
    let w' := snd (initializeWorker t w) in
    hasError w' = true
    /\ workerRef w' = None
    /\ buttonDisabled (render w') = true
    /\ (forall worker, settles (createWorker t) = Resolved worker ->
          In (Terminate worker) (calls w')
          /\ exists e, initError (view w')
                       = Some (str "Language initialization failed: "
                               ++ toString t e))
    /\ (meanwhile (terminate t) = [] ->
          initializationStatus w' = str "Initialization failed").
Proof.
  intros t w Hm (Hc & Hl & Hi & Ht) Hfail w'. subst w'.
  unfold staysMounted in *.
  unfold initializeWorker, languages, loadLanguages.
  change (join (str "+") [str "eng"; str "kor"]) with (str "eng+kor").
  unfold tryCatchL, bindL, awaitL, effectL, readL, retL, throwL.
  destruct (settles (createWorker t)) as [worker|e0] eqn:Sc; cbv beta iota.
  - settle_with events_mounted_status Hm. rewrite Hm. simpl.
    destruct (settles (loadLanguage t (str "eng"))) as [[]|e1] eqn:Se.
    + settle_with events_mounted_status Hm. rewrite Hm. simpl.
      destruct (settles (loadLanguage t (str "kor"))) as [[]|e2] eqn:Sk.
      * settle_with events_mounted_status Hm. rewrite Hm. simpl.
        destruct (settles (initialize t (str "eng+kor"))) as [[]|e3] eqn:Si.
        { exfalso. apply (Hfail worker). split; [exact Sc|split; [|exact Si]].
          intros lang [<-|[<-|[]]]; assumption. }
        settle_with events_mounted_status Hm. rewrite Hm. simpl.
        destruct (settles (terminate t)) as [[]|?]; settle_with events_mounted_status Hm;
          failure_tail messageOr_truthy e3.
      * settle_with events_mounted_status Hm. rewrite Hm. simpl.
        destruct (settles (terminate t)) as [[]|?]; settle_with events_mounted_status Hm;
          failure_tail messageOr_truthy e2.
    + settle_with events_mounted_status Hm. rewrite Hm. simpl.
      destruct (settles (terminate t)) as [[]|?]; settle_with events_mounted_status Hm;
        failure_tail messageOr_truthy e1.
  - settle_with events_mounted_status Hm. rewrite Hm. simpl.
    destruct (workerRef w) as [old|] eqn:Hw; simpl.
    + destruct (settles (terminate t)) as [[]|?]; settle_with events_mounted_status Hm;
        failure_tail messageOr_truthy e0.
    + failure_tail messageOr_truthy e0.
Qed.

Lemma X23_initializeWorker_failure_witness :
  hasError (snd (initializeWorker tesseractWithoutKorean mountedWorld)) = true
  /\ workerRef (snd (initializeWorker tesseractWithoutKorean mountedWorld)) = None.
Proof.
  destruct (X23_initializeWorker_failure tesseractWithoutKorean mountedWorld)
    as (H1 & H2 & _).
  - reflexivity.
  - unfold neverUnmounts, staysMounted. simpl.
    repeat split; try tauto. intros lang.
    destruct (eqString lang (str "kor")); simpl; tauto.
  - intros worker (_ & Hl & _).
    specialize (Hl (str "kor") ltac:(right; left; reflexivity)).
    vm_compute in Hl. discriminate.
  - split; [exact H1|exact H2].
Defined.

(** X24. Where the component is unmounted while [createWorker] is pending,
    the worker that arrives is put in the ref and never terminated, no
    language is loaded, and the status is set to [Loading languages...]. *)
Theorem X24_initializeWorker_unmounted_while_creating :
  forall (t : Tesseract) (worker : Worker) (w : World),
    workerRef w = None ->
    In Unmount (meanwhile (createWorker t)) ->
    settles (createWorker t) = Resolved worker ->
    let w' := snd (initializeWorker t w) in
    isMounted w' = false
    /\ workerRef w' = Some worker
    /\ calls w' = calls w ++ [CreateWorker]
    /\ initializationStatus w' = str "Loading languages..."
    /\ view w' = view w.
Proof.
  intros t worker w Hw Hin Sc w'. subst w'.
  unfold initializeWorker, languages, loadLanguages.
  unfold tryCatchL, bindL, awaitL, effectL, readL, retL, throwL.
  rewrite Sc. cbv beta iota.
  destruct (@events_unmount (meanwhile (createWorker t)) (called CreateWorker w) Hin Hw)
    as (status & ->).
  simpl. repeat split; reflexivity.
Qed.

Lemma X24_initializeWorker_unmounted_while_creating_witness :
  workerRef (snd (initializeWorker tesseractSlow mountedWorld)) = Some 1
  /\ calls (snd (initializeWorker tesseractSlow mountedWorld)) = [CreateWorker].
Proof.
  destruct (X24_initializeWorker_unmounted_while_creating tesseractSlow 1 mountedWorld)
    as (_ & H2 & H3 & _).
  - reflexivity.
  - simpl. left. reflexivity.
  - reflexivity.
  - split; [exact H2|exact H3].
Defined.

(** X25. Where the component is unmounted while the first language loads,
    the clean-up terminates the worker and nothing follows: the second
    language is not loaded, the worker is not initialised, and no error
    is recorded, even where the load is rejected. *)
Theorem X25_initializeWorker_unmounted_while_loading :
  forall (t : Tesseract) (worker : Worker) (w : World),
    isMounted w = true ->
    staysMounted (createWorker t) ->
    settles (createWorker t) = Resolved worker ->
    In Unmount (meanwhile (loadLanguage t (str "eng"))) ->
    let w' := snd (initializeWorker t w) in
    calls w' = calls w ++ [CreateWorker; LoadLanguage worker (str "eng");
                           Terminate worker]
    /\ workerRef w' = None
    /\ isMounted w' = false
    /\ view w' = view w.
Proof.
  intros t worker w Hm Hc Sc Hin w'. subst w'. unfold staysMounted in Hc.
  unfold initializeWorker, languages, loadLanguages.
  unfold tryCatchL, bindL, awaitL, effectL, readL, retL, throwL.
  rewrite Sc. cbv beta iota.
  destruct (events_mounted_status (meanwhile (createWorker t))
              (called CreateWorker w) Hm Hc) as (s0 & -> & _).
  simpl. rewrite Hm. simpl.
  match goal with
  | |- context [fold_left happen (meanwhile ?p) ?X] =>
      destruct (events_unmount_worker (meanwhile p) X worker Hin eq_refl)
        as (s1 & ->)
  end.
  destruct (settles (loadLanguage t (str "eng"))) as [[]|e]; simpl;
    rewrite <- !app_assoc; simpl; repeat split; reflexivity.
Qed.

Lemma X25_initializeWorker_unmounted_while_loading_witness :
  calls (snd (initializeWorker tesseractLeft mountedWorld))
  = [CreateWorker; LoadLanguage 1 (str "eng"); Terminate 1]
  /\ hasError (snd (initializeWorker tesseractLeft mountedWorld)) = false.
Proof.
  destruct (X25_initializeWorker_unmounted_while_loading tesseractLeft 1 mountedWorld)
    as (H1 & _ & _ & H4).
  - reflexivity.
  - unfold staysMounted. simpl. tauto.
  - reflexivity.
  - simpl. left. reflexivity.
  - split; [exact H1|]. unfold hasError. rewrite H4. reflexivity.
Defined.

(** X26. The clean-up that follows a successful initialisation terminates
    the worker that the initialisation created, and empties the ref. *)
Theorem X26_unmount_terminates_the_worker :
  forall (t : Tesseract) (worker : Worker) (w : World),
    isMounted w = true -> neverUnmounts t -> succeeds t worker ->
    let w' := cleanup (snd (initializeWorker t w)) in
    calls w' = calls w ++ [CreateWorker; LoadLanguage worker (str "eng");
                           LoadLanguage worker (str "kor");
                           Initialize worker (str "eng+kor");
                           Terminate worker]
    /\ workerRef w' = None
    /\ isMounted w' = false.
Proof.
  intros t worker w Hm Hq Hs w'. subst w'.
  destruct (initializeWorker_ready t worker w Hm Hq Hs) as (Hw & _ & Hc & _).
  unfold cleanup. simpl. rewrite Hw. simpl. rewrite Hc.
  rewrite <- app_assoc. simpl. repeat split; reflexivity.
Qed.

Lemma X26_unmount_terminates_the_worker_witness :
  calls (cleanup (snd (initializeWorker tesseractOk mountedWorld)))
  = [CreateWorker; LoadLanguage 1 (str "eng"); LoadLanguage 1 (str "kor");
     Initialize 1 (str "eng+kor"); Terminate 1].
Proof.
  destruct (X26_unmount_terminates_the_worker tesseractOk 1 mountedWorld)
    as (H1 & _).
  - reflexivity.
  - exact tesseractOk_neverUnmounts.
  - exact tesseractOk_succeeds.
  - exact H1.
Defined.

(** ** The life cycle: invariants *)

Section Preserves.
Variable Inv : World -> Prop.

Lemma preserves_ret (A : Type) (a : A) : preserves Inv (retL a).
Proof. intros w H. exact H. Qed.

Lemma preserves_throw (A : Type) (e : thrown) : preserves Inv (@throwL A e).
Proof. intros w H. exact H. Qed.

Lemma preserves_read (A : Type) (cell : World -> A) : preserves Inv (readL cell).
Proof. intros w H. exact H. Qed.

Lemma preserves_effect (f : World -> World) :
  (forall w, Inv w -> Inv (f w)) -> preserves Inv (effectL f).
Proof. intros Hf w H. apply Hf. exact H. Qed.

Lemma preserves_bind (A B : Type) (m : L A) (f : A -> L B) :
  preserves Inv m -> (forall a, preserves Inv (f a)) -> preserves Inv (bindL m f).
Proof.
  intros Hm Hf w H. unfold bindL. specialize (Hm w H).
  destruct (m w) as [[a|e] w1]; simpl in *; [apply Hf; exact Hm|exact Hm].
Qed.

Lemma preserves_tryCatch (A : Type) (body : L A) (handler : thrown -> L A) :
  preserves Inv body -> (forall e, preserves Inv (handler e)) ->
  preserves Inv (tryCatchL body handler).
Proof.
  intros Hb Hh w H. unfold tryCatchL. specialize (Hb w H).
  destruct (body w) as [[a|e] w1]; simpl in *; [exact Hb|apply Hh; exact Hb].
Qed.

Lemma preserves_events (evs : list event) (w : World) :
  (forall e w, Inv w -> Inv (happen w e)) -> Inv w -> Inv (fold_left happen evs w).
Proof.
  intros He. revert w. induction evs as [|e evs IH]; intros w H; simpl;
    [exact H|]. apply IH, He, H.
Qed.

Lemma preserves_await (A : Type) (c : call) (p : Pending A) :
  (forall w, Inv w -> Inv (called c w)) ->
  (forall e w, Inv w -> Inv (happen w e)) ->
  preserves Inv (awaitL c p).
Proof.
  intros Hc He w H. unfold awaitL. simpl. apply preserves_events; auto.
Qed.

Lemma preserves_if (A : Type) (b : bool) (m1 m2 : L A) :
  preserves Inv m1 -> preserves Inv m2 -> preserves Inv (if b then m1 else m2).
Proof. destruct b; auto. Qed.
End Preserves.

Lemma loadLanguages_preserves (Inv : World -> Prop) (t : Tesseract)
  (worker : Worker) (langs : list jsstring) :
  (forall c w, Inv w -> Inv (called c w)) ->
  (forall e w, Inv w -> Inv (happen w e)) ->
  preserves Inv (loadLanguages t worker langs).
Proof.
  intros Hc He. induction langs as [|lang rest IH]; simpl.
  - apply preserves_ret.
  - apply preserves_bind; [apply preserves_read|]. intros mounted.
    apply preserves_if; [apply preserves_ret|].
    apply preserves_bind; [apply preserves_await; auto|].
    intros _. exact IH.
Qed.

(** An initialisation error that has been recorded stays: no run of
    [initializeWorker] clears it. *)
Lemma initializeWorker_keeps_error (t : Tesseract) :
  preserves (fun w => hasError w = true) (initializeWorker t).
Proof.
  assert (Hc : forall c w, hasError w = true -> hasError (called c w) = true)
    by (intros c w H; exact H).
  assert (He : forall e w, hasError w = true -> hasError (happen w e) = true).
  { intros e w H. unfold hasError in *.
    destruct (happen_frame w e) as (-> & _). exact H. }
  unfold initializeWorker.
  apply preserves_tryCatch.
  - apply preserves_bind; [apply preserves_await; auto|]. intros worker.
    apply preserves_bind; [apply preserves_effect; auto|]. intros _.
    apply preserves_tryCatch; [|intros e; apply preserves_throw].
    apply preserves_bind; [apply preserves_effect; auto|]. intros _.
    apply preserves_bind; [apply loadLanguages_preserves; auto|]. intros _.
    apply preserves_bind; [apply preserves_read|]. intros mounted.
    apply preserves_if; [|apply preserves_ret].
    apply preserves_bind; [apply preserves_await; auto|]. intros _.
    apply preserves_effect; auto.
  - intros e.
    apply preserves_bind; [apply preserves_read|]. intros mounted.
    apply preserves_if; [|apply preserves_ret].
    apply preserves_bind.
    { apply preserves_effect. intros w _. unfold hasError. simpl.
      apply messageOr_truthy. reflexivity. }
    intros _.
    apply preserves_bind; [apply preserves_effect; auto|]. intros _.
    apply preserves_bind; [apply preserves_read|]. intros [worker|].
    + apply preserves_bind; [|intros _; apply preserves_effect; auto].
      apply preserves_tryCatch; [apply preserves_await; auto|].
      intros _. apply preserves_ret.
    + apply preserves_ret.
Qed.

(** X27. Once an error is recorded no run of [initializeWorker] clears it:
    after the run the error is still shown and [startCapture] does
    nothing, even where the run succeeds and enables the button. *)
Theorem X27_retry_does_not_unblock_capture :
  forall (t : Tesseract) (worker : Worker) (displayMedia : Pending Stream)
         (w : World),
    hasError w = true ->
    let w' := snd (initializeWorker t w) in
    errorMessage (render w') <> None
    /\ startCapture displayMedia w' = (Resolved tt, w')
    /\ (isMounted w = true -> neverUnmounts t -> succeeds t worker ->
        buttonDisabled (render w') = false
        /\ errorMessage (render w') = initError (view w)).
Proof.
  intros t worker displayMedia w H w'.
  assert (H' : hasError w' = true) by (apply initializeWorker_keeps_error; exact H).
  split; [|split].
  - unfold render. simpl. rewrite H'. unfold hasError in H'.
    destruct (initError (view w')); [discriminate|discriminate].
  - unfold startCapture, bindL, readL. simpl. rewrite H'. reflexivity.
  - intros Hm Hq Hs.
    destruct (initializeWorker_ready t worker w Hm Hq Hs)
      as (_ & _ & _ & Hv & _ & _ & _ & _ & Hb & _).
    split; [exact Hb|]. unfold render. simpl. fold w'. rewrite H'.
    fold w' in Hv. rewrite Hv. reflexivity.
Qed.

Lemma X27_retry_does_not_unblock_capture_witness :
  startCapture (promptly (Resolved 7))
    (snd (initializeWorker tesseractOk failedWorld))
  = (Resolved tt, snd (initializeWorker tesseractOk failedWorld))
  /\ buttonDisabled (render (snd (initializeWorker tesseractOk failedWorld)))
     = false.
Proof.
  destruct (X27_retry_does_not_unblock_capture tesseractOk 1 (promptly (Resolved 7))
              failedWorld) as (_ & H2 & H3).
  - reflexivity.
  - split; [exact H2|].
    apply H3; [reflexivity|exact tesseractOk_neverUnmounts|exact tesseractOk_succeeds].
Defined.

(** ** The life cycle: capture and analysis *)

Lemma analyzeFrame_resolves (workerReady frameEmpty : bool)
  (recognized : outcome (option TesseractData)) (isMounted : bool)
  (st : ScreenReaderState) :
  fst (analyzeFrame workerReady frameEmpty recognized isMounted st) = Resolved tt.
Proof.
  unfold analyzeFrame, tryCatch, bind, await, effect, ret, throw,
    filterAndFormatBlocks.
  destruct workerReady, frameEmpty; simpl; try reflexivity;
    destruct recognized as [[data|]|e]; simpl; try reflexivity.
  destruct (truthy (data_text data) && isMounted); simpl; [|reflexivity].
  destruct ((0 <? length (collectBlocks data))%nat && isMounted); simpl;
    [|reflexivity].
  destruct (truthy (combinedText (processedBlocks (collectBlocks data))));
    reflexivity.
Qed.

Lemma analyzeFrameL_resolves (frame : Frame) (w : World) :
  exists w1 cs,
    analyzeFrameL frame w = (Resolved tt, w1)
    /\ isCapturing w1 = isCapturing w /\ isAnalyzing w1 = isAnalyzing w
    /\ videos w1 = videos w /\ calls w1 = calls w ++ cs.
Proof.
  unfold analyzeFrameL, liftM.
  set (w' := match workerRef w with
             | Some worker =>
                 if frameEmpty frame then w
                 else fold_left happen (meanwhile (recognize frame))
                        (called (Recognize worker) w)
             | None => w
             end).
  assert (Hw' : isCapturing w' = isCapturing w /\ isAnalyzing w' = isAnalyzing w
                /\ videos w' = videos w /\ exists cs, calls w' = calls w ++ cs).
  { subst w'. destruct (workerRef w) as [worker|];
      [destruct (frameEmpty frame)|];
      try (repeat split; try reflexivity; exists []; rewrite app_nil_r; reflexivity).
    destruct (events_frame (meanwhile (recognize frame)) (called (Recognize worker) w))
      as (_ & -> & -> & ->).
    destruct (events_calls (meanwhile (recognize frame)) (called (Recognize worker) w))
      as (cs & ->).
    repeat split. simpl. exists ([Recognize worker] ++ cs).
    rewrite app_assoc. reflexivity. }
  destruct Hw' as (H1 & H2 & H3 & cs & H4).
  pose proof (analyzeFrame_resolves (isSet (workerRef w)) (frameEmpty frame)
                (settles (recognize frame)) (isMounted w') (view w')) as Hr.
  destruct (analyzeFrame (isSet (workerRef w)) (frameEmpty frame)
              (settles (recognize frame)) (isMounted w') (view w')) as [r v].
  simpl in Hr. subst r.
  eexists. exists cs. split; [reflexivity|]. simpl. auto.
Qed.

Lemma analysis_run :
  forall (stream : Stream) (frame : Frame) (w : World),
    exists w' cs,
      analysis stream frame w = (Resolved tt, w')
      /\ isAnalyzing w' = false
      /\ isCapturing w' = false
      /\ calls w' = calls w ++ cs ++ [StopTracks stream]
      /\ videos w' = removeChild stream (videos w).
Proof.
  intros stream frame w. unfold analysis, bindL, effectL.
  destruct (analyzeFrameL_resolves frame (setIsAnalyzing true w))
    as (w1 & cs & -> & H1 & H2 & H3 & H4).
  eexists. exists cs. split; [reflexivity|]. simpl.
  rewrite H3, H4. simpl. rewrite app_assoc. auto.
Qed.

Lemma removeChild_last (stream : Stream) (vs : list Stream) :
  ~ In stream vs -> removeChild stream (vs ++ [stream]) = vs.
Proof.
  induction vs as [|v vs IH]; intros H; simpl.
  - rewrite Nat.eqb_refl. reflexivity.
  - destruct (Nat.eqb v stream) eqn:E.
    + apply Nat.eqb_eq in E. exfalso. apply H. left. exact E.
    + rewrite IH; [reflexivity|]. intros Hin. apply H. right. exact Hin.
Qed.

Lemma startCapture_run :
  forall (displayMedia : Pending Stream) (w : World),
    hasError w = false ->
    exists w' cs,
      startCapture displayMedia w = (Resolved tt, w')
      /\ calls w' = calls w ++ [GetDisplayMedia] ++ cs
      /\ view w' = view w
      /\ match settles displayMedia with
         | Resolved stream =>
             isCapturing w' = true /\ videos w' = videos w ++ [stream]
         | Rejected _ => isCapturing w' = false /\ videos w' = videos w
         end.
Proof.
  intros displayMedia w H.
  unfold startCapture, handleStream, tryCatchL, bindL, readL, awaitL, effectL.
  rewrite H.
  destruct (events_frame (meanwhile displayMedia) (called GetDisplayMedia w))
    as (Hv & _ & _ & Hvid).
  destruct (events_calls (meanwhile displayMedia) (called GetDisplayMedia w))
    as (cs & Hcs).
  destruct (settles displayMedia) as [stream|e]; simpl;
    eexists; exists cs; (split; [reflexivity|]); simpl;
    rewrite Hv, Hvid, Hcs; simpl; rewrite <- app_assoc; auto.
Qed.

(** X28. With no error recorded [startCapture] asks for the screen and
    never rejects: where the stream is granted the component is
    capturing and a video is appended for it; where it is refused the
    component is not capturing and no video is appended. *)
Theorem X28_startCapture_outcomes :
  forall (displayMedia : Pending Stream) (w : World),
    hasError w = false ->
    exists w' cs,
      startCapture displayMedia w = (Resolved tt, w')
      /\ calls w' = calls w ++ [GetDisplayMedia] ++ cs
      /\ view w' = view w
      /\ match settles displayMedia with
         | Resolved stream =>
             isCapturing w' = true /\ videos w' = videos w ++ [stream]
         | Rejected _ => isCapturing w' = false /\ videos w' = videos w
         end.
Proof. exact startCapture_run. Qed.

Lemma X28_startCapture_outcomes_witness :
  exists w', startCapture (promptly (Rejected OtherValue)) mountedWorld
             = (Resolved tt, w')
             /\ isCapturing w' = false /\ videos w' = [].
Proof.
  destruct (X28_startCapture_outcomes (promptly (Rejected OtherValue)) mountedWorld)
    as (w' & cs & H1 & _ & _ & H4).
  - reflexivity.
  - exists w'. split; [exact H1|exact H4].
Defined.

(** X29. The callback of the timer always runs to its end, whatever the
    recognition does: the analysing and capturing flags are off, the
    tracks of the stream are stopped last, and the video of the stream
    is removed. *)
Theorem X29_analysis_always_cleans_up :
  forall (stream : Stream) (frame : Frame) (w : World),
    exists w' cs,
      analysis stream frame w = (Resolved tt, w')
      /\ isAnalyzing w' = false
      /\ isCapturing w' = false
      /\ calls w' = calls w ++ cs ++ [StopTracks stream]
      /\ videos w' = removeChild stream (videos w).
Proof. exact analysis_run. Qed.

(** X30. A capture that is granted and analysed leaves the document as it
    found it: the video that [startCapture] appends is the one that the
    analysis removes, and the stream that was granted is stopped. *)
Theorem X30_capture_session_removes_its_video :
  forall (displayMedia : Pending Stream) (stream : Stream)
         (delay : list event) (frame : Frame) (w : World),
    hasError w = false ->
    settles displayMedia = Resolved stream ->
    ~ In stream (videos w) ->
    exists w' cs,
      (startCapture displayMedia ;;~ analyzeFrames true delay stream frame) w
      = (Resolved tt, w')
      /\ videos w' = videos w
      /\ isCapturing w' = false
      /\ isAnalyzing w' = false
      /\ calls w' = calls w ++ [GetDisplayMedia] ++ cs ++ [StopTracks stream].
Proof.
  intros displayMedia stream delay frame w H Hs Hnew.
  destruct (startCapture_run displayMedia w H) as (w1 & cs1 & E1 & C1 & _ & Hm).
  rewrite Hs in Hm. destruct Hm as [_ V1].
  unfold bindL at 1. rewrite E1. cbv beta iota.
  unfold analyzeFrames. change (negb true) with false. cbv iota.
  unfold bindL at 1. unfold effectL at 1. cbv beta iota.
  destruct (analysis_run stream frame (fold_left happen delay w1))
    as (w2 & cs2 & -> & A & B & C & D).
  destruct (events_frame delay w1) as (_ & _ & _ & V2).
  destruct (events_calls delay w1) as (cs3 & C3).
  eexists. exists (cs1 ++ cs3 ++ cs2). split; [reflexivity|].
  rewrite D, V2, V1, C, C3, C1. rewrite removeChild_last by exact Hnew.
  repeat split; try assumption. rewrite <- !app_assoc. reflexivity.
Qed.

Lemma X30_capture_session_removes_its_video_witness :
  exists w',
    (startCapture (promptly (Resolved 7)) ;;~
     analyzeFrames true [] 7 blankFrame) mountedWorld = (Resolved tt, w')
    /\ videos w' = [] /\ isCapturing w' = false.
Proof.
  destruct (X30_capture_session_removes_its_video (promptly (Resolved 7)) 7 []
              blankFrame mountedWorld) as (w' & cs & H1 & H2 & H3 & _).
  - reflexivity.
  - reflexivity.
  - simpl. tauto.
  - exists w'. split; [exact H1|]. split; [exact H2|exact H3].
Defined.
